(** * amqp-manager: the connection lifecycle state machine and its facade

    A shallow embedding of [src/amqp_manager.js].  The JavaScript program is
    event driven and single threaded: every callback (a promise settling, an
    event emitted by a handle, a timer, a call of the application) runs to
    completion.  The embedding is therefore a deterministic step function
    [step : world -> event -> world] over a record that holds the state of
    the Machina state machine, of the [AmqpManager] facade, of the handles
    given out by the transport client and of the timers, together with a log
    of everything the program did. *)

From Stdlib Require Import List String Ascii ZArith Bool Arith Lia.
Import ListNotations.

Local Open Scope string_scope.
Local Open Scope list_scope.
Local Open Scope nat_scope.

(** ** The configuration object *)

(** A JavaScript object with optional properties: [None] is a property that
    is [undefined].  [options] may also be [null] (the inner [None]).  A
    property is undefined or a value of the type given here; a [null] in
    another place, or a value of another type, is outside of these records
    (the source never tests for one, and [_.defaultsDeep] keeps it). *)

Record connection_object := {
  protocol : option string;
  user : option string;
  password : option string;
  host : option string;
  port : option Z;
  vhost : option string;
  params : option (list (string * string));
  options : option (option string)
}.

Record channel_object := {
  prefetch : option Z;
  confirm : option bool
}.

Record exchange_decl := {
  exchange : string;
  type : string;
  e_options : option string
}.

Record queue_decl := {
  queue : string;
  q_options : option string
}.

Record binding_decl := {
  b_queue : string;
  b_exchange : string;
  pattern : string
}.

Record config_object := {
  connection : option connection_object;
  channel : option channel_object;
  queues : option (list queue_decl);
  exchanges : option (list exchange_decl);
  bindings : option (list binding_decl)
}.

Module Defaults.

(** [_.defaultsDeep(config, {...})]: every property of the destination that
    is [undefined] takes the default, recursively for nested objects.  The
    destination is the object it was given, written in place. *)

Definition or_default {A} (d : A) (o : option A) : option A :=
  match o with
  | Some x => Some x
  | None => Some d
  end.

Fixpoint has_key (k : string) (l : list (string * string)) : bool :=
  match l with
  | [] => false
  | (k', _) :: r => if String.eqb k k' then true else has_key k r
  end.

Definition default_params (p : list (string * string)) : list (string * string) :=
  if has_key "heartbeat" p then p else p ++ [("heartbeat", "30")].

Definition default_connection (c : connection_object) : connection_object :=
  {| protocol := or_default "amqp" (protocol c);
     user := or_default "guest" (user c);
     password := or_default "guest" (password c);
     host := or_default "localhost" (host c);
     port := or_default 5672%Z (port c);
     vhost := or_default "/" (vhost c);
     params := Some (default_params (match params c with Some p => p | None => [] end));
     options := or_default None (options c) |}.

Definition default_channel (c : channel_object) : channel_object :=
  {| prefetch := or_default 1%Z (prefetch c);
     confirm := or_default true (confirm c) |}.

Definition empty_connection : connection_object :=
  {| protocol := None; user := None; password := None; host := None;
     port := None; vhost := None; params := None; options := None |}.

Definition empty_channel : channel_object :=
  {| prefetch := None; confirm := None |}.

Definition defaultsDeep (config : config_object) : config_object :=
  {| connection :=
       Some (default_connection
               (match connection config with Some c => c | None => empty_connection end));
     channel :=
       Some (default_channel
               (match channel config with Some c => c | None => empty_channel end));
     queues := or_default [] (queues config);
     exchanges := or_default [] (exchanges config);
     bindings := or_default [] (bindings config) |}.

End Defaults.

(** What the state machine reads from [this.config]. *)

Definition config_confirm (cfg : config_object) : bool :=
  match channel cfg with
  | Some ch => match confirm ch with Some b => b | None => false end
  | None => false
  end.

Definition config_prefetch (cfg : config_object) : option Z :=
  match channel cfg with
  | Some ch => prefetch ch
  | None => None
  end.

Definition config_exchanges (cfg : config_object) : list exchange_decl :=
  match exchanges cfg with Some l => l | None => [] end.

Definition config_queues (cfg : config_object) : list queue_decl :=
  match queues cfg with Some l => l | None => [] end.

Definition config_bindings (cfg : config_object) : list binding_decl :=
  match bindings cfg with Some l => l | None => [] end.

(** ** [/PRECONDITION-FAILED/i.test(error.message)] *)

Module Precondition.

Definition lower (a : ascii) : ascii :=
  let n := nat_of_ascii a in
  if (65 <=? n) && (n <=? 90) then ascii_of_nat (n + 32) else a.

Fixpoint prefix_ci (p s : string) : bool :=
  match p with
  | EmptyString => true
  | String a p' =>
      match s with
      | EmptyString => false
      | String b s' => Ascii.eqb (lower a) (lower b) && prefix_ci p' s'
      end
  end.

Fixpoint search_ci (p s : string) : bool :=
  prefix_ci p s ||
  match s with
  | EmptyString => false
  | String _ s' => search_ci p s'
  end.

Definition test (message : string) : bool :=
  search_ci "PRECONDITION-FAILED" message.

End Precondition.

(** ** Backoff: [Math.min(Math.pow(2, reconnects) * 100, 60 * 1000)]

    The numbers of the source are doubles: [Math.pow(2, n)] is exact up to
    n = 1023 and infinite above, and in both cases the minimum with 60000 is
    the one taken over the integers. *)

Module Backoff.

Definition waitTimeMs (reconnects : nat) : Z :=
  Z.min (2 ^ Z.of_nat reconnects * 100) (60 * 1000)%Z.

End Backoff.

(** ** The state machine, the facade and their environment *)

(** The states of [AmqpConnectionFsm]. *)
Inductive fsm_state :=
| St_uninitialized
| St_idle
| St_connect
| St_assert
| St_connected
| St_reconnect
| St_error
| St_close.

(** The inputs given to [this.handle]. *)
Inductive input :=
| In_open
| In_connection_error
| In_error
| In_channel_error (message : string)
| In_channel_close.

(** [this.memory]: starts as [{}], written with [_.assign].  Handles are
    named by their index in the tables of the world. *)
Record memory := {
  mem_connection : option nat;
  mem_channel : option nat;
  mem_reconnects : option nat
}.

(** The two events the handles of the transport client emit. *)
Inductive emitted := On_error | On_close.

(** A connection handle: whether the transport is open, and the events that
    have a listener (each listener of a connection calls
    [this.handle('connection_error', error)]). *)
Record connection_handle := {
  conn_open : bool;
  conn_listeners : list emitted
}.

(** [assertTopology] is a chain of three [Promise.all]: the collection that
    is being declared and the declarations of it that have not settled. *)
Inductive phase := Exchanges | Queues | Bindings.

Inductive topology :=
| T_running (ph : phase) (pending : list nat)
| T_resolved
| T_rejected.

Record channel_handle := {
  chan_connection : nat;
  chan_open : bool;
  chan_listeners : list emitted;
  chan_topology : topology
}.

(** The promise returned by [AmqpManager.prototype.channel]. *)
Inductive failure := Connection_closed | Channel_Timeout.

Inductive call_status :=
| Pending
| Resolved (ch : option nat)
| Rejected (err : failure).

(** The promise returned by [AmqpManager.prototype.close]. *)
Inductive close_status := Close_pending | Close_resolved.

(** The two callbacks given to [setTimeout]. *)
Inductive timer_callback :=
| Cb_reconnect (reconnects : nat)
| Cb_channel_timeout (call : nat).

Record timer := {
  due : Z;
  callback : timer_callback
}.

(** Everything the program does that is visible outside of it, in the order
    it does it. *)
Inductive action :=
| A_transition (from to : fsm_state)
| A_connect (c : option connection_object)
| A_connection_on (h : nat) (ev : emitted)
| A_createChannel (h : nat) (confirm_mode : bool)
| A_prefetch (c : nat) (count : option Z)
| A_channel_on (c : nat) (ev : emitted)
| A_assertExchange (c : nat) (e : exchange_decl)
| A_assertQueue (c : nat) (q : queue_decl)
| A_bindQueue (c : nat) (b : binding_decl)
| A_settled (c : nat) (ph : phase) (i : nat)
| A_connection_removeAllListeners (h : nat)
| A_channel_removeAllListeners (c : nat)
| A_connection_close (h : nat)
| A_setTimeout (ms : Z)
| A_emit_ready (ch : option nat)
| A_emit_reconnect (reconnects : nat) (wait_time_ms : Z)
| A_emit_error (message : option string)
| A_emit_close
| A_manager_connected
| A_manager_disconnected
| A_fsm_open
| A_fsm_close.

(** The keys that [new AmqpConnectionFsm(this.config)] adds to the object it
    is given: the constructor that [Machina.Fsm.extend] makes for the machine
    copies the [initialState] and the table of [states] of the machine into
    its first argument ([_.extend(args[0], blendedState)]) before it calls
    Machina's own constructor.  The table is held by the names of its
    states. *)
Record machina_keys := {
  initialState : string;
  states : list fsm_state
}.

(** [w_config] and [w_machina] are the object the caller gave to the
    constructor: the manager and the state machine hold a reference to that
    same object ([this.config]).  [w_config] has the properties of the
    configuration, [w_machina] the two keys of Machina, [None] as long as
    the object has no such keys.  [m_channel], [m_closed], [m_started] are [_channel],
    [closed], [started] of the manager; [ready_listeners] and
    [close_listeners] are the [onReady] and [onClosed] listeners still
    registered on the state machine, in the order they were registered, each
    named by the call that registered it.  [w_log] has the latest action
    first. *)
Record world := {
  w_config : config_object;
  w_machina : option machina_keys;
  w_state : fsm_state;
  w_memory : memory;
  m_channel : option nat;
  m_closed : bool;
  m_started : bool;
  ready_listeners : list nat;
  close_listeners : list nat;
  calls : list call_status;
  close_calls : list close_status;
  connections : list connection_handle;
  channels : list channel_handle;
  pending_connects : nat;
  pending_channels : list nat;
  timers : list timer;
  now : Z;
  w_log : list action
}.

(** Assignments to one field of the world. *)

Definition set_state (x : fsm_state) (w : world) : world :=
  {| w_config := w_config w; w_machina := w_machina w; w_state := x; w_memory := w_memory w; m_channel :=
     m_channel w; m_closed := m_closed w; m_started := m_started w; ready_listeners :=
     ready_listeners w; close_listeners := close_listeners w; calls := calls w;
     close_calls := close_calls w; connections := connections w; channels := channels
     w; pending_connects := pending_connects w; pending_channels := pending_channels
     w; timers := timers w; now := now w; w_log := w_log w |}.

Definition set_memory (x : memory) (w : world) : world :=
  {| w_config := w_config w; w_machina := w_machina w; w_state := w_state w; w_memory := x; m_channel :=
     m_channel w; m_closed := m_closed w; m_started := m_started w; ready_listeners :=
     ready_listeners w; close_listeners := close_listeners w; calls := calls w;
     close_calls := close_calls w; connections := connections w; channels := channels
     w; pending_connects := pending_connects w; pending_channels := pending_channels
     w; timers := timers w; now := now w; w_log := w_log w |}.

Definition set_m_channel (x : option nat) (w : world) : world :=
  {| w_config := w_config w; w_machina := w_machina w; w_state := w_state w; w_memory := w_memory w; m_channel
     := x; m_closed := m_closed w; m_started := m_started w; ready_listeners :=
     ready_listeners w; close_listeners := close_listeners w; calls := calls w;
     close_calls := close_calls w; connections := connections w; channels := channels
     w; pending_connects := pending_connects w; pending_channels := pending_channels
     w; timers := timers w; now := now w; w_log := w_log w |}.

Definition set_m_closed (x : bool) (w : world) : world :=
  {| w_config := w_config w; w_machina := w_machina w; w_state := w_state w; w_memory := w_memory w; m_channel
     := m_channel w; m_closed := x; m_started := m_started w; ready_listeners :=
     ready_listeners w; close_listeners := close_listeners w; calls := calls w;
     close_calls := close_calls w; connections := connections w; channels := channels
     w; pending_connects := pending_connects w; pending_channels := pending_channels
     w; timers := timers w; now := now w; w_log := w_log w |}.

Definition set_m_started (x : bool) (w : world) : world :=
  {| w_config := w_config w; w_machina := w_machina w; w_state := w_state w; w_memory := w_memory w; m_channel
     := m_channel w; m_closed := m_closed w; m_started := x; ready_listeners :=
     ready_listeners w; close_listeners := close_listeners w; calls := calls w;
     close_calls := close_calls w; connections := connections w; channels := channels
     w; pending_connects := pending_connects w; pending_channels := pending_channels
     w; timers := timers w; now := now w; w_log := w_log w |}.

Definition set_ready_listeners (x : list nat) (w : world) : world :=
  {| w_config := w_config w; w_machina := w_machina w; w_state := w_state w; w_memory := w_memory w; m_channel
     := m_channel w; m_closed := m_closed w; m_started := m_started w; ready_listeners
     := x; close_listeners := close_listeners w; calls := calls w; close_calls :=
     close_calls w; connections := connections w; channels := channels w;
     pending_connects := pending_connects w; pending_channels := pending_channels w;
     timers := timers w; now := now w; w_log := w_log w |}.

Definition set_close_listeners (x : list nat) (w : world) : world :=
  {| w_config := w_config w; w_machina := w_machina w; w_state := w_state w; w_memory := w_memory w; m_channel
     := m_channel w; m_closed := m_closed w; m_started := m_started w; ready_listeners
     := ready_listeners w; close_listeners := x; calls := calls w; close_calls :=
     close_calls w; connections := connections w; channels := channels w;
     pending_connects := pending_connects w; pending_channels := pending_channels w;
     timers := timers w; now := now w; w_log := w_log w |}.

Definition set_calls (x : list call_status) (w : world) : world :=
  {| w_config := w_config w; w_machina := w_machina w; w_state := w_state w; w_memory := w_memory w; m_channel
     := m_channel w; m_closed := m_closed w; m_started := m_started w; ready_listeners
     := ready_listeners w; close_listeners := close_listeners w; calls := x;
     close_calls := close_calls w; connections := connections w; channels := channels
     w; pending_connects := pending_connects w; pending_channels := pending_channels
     w; timers := timers w; now := now w; w_log := w_log w |}.

Definition set_close_calls (x : list close_status) (w : world) : world :=
  {| w_config := w_config w; w_machina := w_machina w; w_state := w_state w; w_memory := w_memory w; m_channel
     := m_channel w; m_closed := m_closed w; m_started := m_started w; ready_listeners
     := ready_listeners w; close_listeners := close_listeners w; calls := calls w;
     close_calls := x; connections := connections w; channels := channels w;
     pending_connects := pending_connects w; pending_channels := pending_channels w;
     timers := timers w; now := now w; w_log := w_log w |}.

Definition set_connections (x : list connection_handle) (w : world) : world :=
  {| w_config := w_config w; w_machina := w_machina w; w_state := w_state w; w_memory := w_memory w; m_channel
     := m_channel w; m_closed := m_closed w; m_started := m_started w; ready_listeners
     := ready_listeners w; close_listeners := close_listeners w; calls := calls w;
     close_calls := close_calls w; connections := x; channels := channels w;
     pending_connects := pending_connects w; pending_channels := pending_channels w;
     timers := timers w; now := now w; w_log := w_log w |}.

Definition set_channels (x : list channel_handle) (w : world) : world :=
  {| w_config := w_config w; w_machina := w_machina w; w_state := w_state w; w_memory := w_memory w; m_channel
     := m_channel w; m_closed := m_closed w; m_started := m_started w; ready_listeners
     := ready_listeners w; close_listeners := close_listeners w; calls := calls w;
     close_calls := close_calls w; connections := connections w; channels := x;
     pending_connects := pending_connects w; pending_channels := pending_channels w;
     timers := timers w; now := now w; w_log := w_log w |}.

Definition set_pending_connects (x : nat) (w : world) : world :=
  {| w_config := w_config w; w_machina := w_machina w; w_state := w_state w; w_memory := w_memory w; m_channel
     := m_channel w; m_closed := m_closed w; m_started := m_started w; ready_listeners
     := ready_listeners w; close_listeners := close_listeners w; calls := calls w;
     close_calls := close_calls w; connections := connections w; channels := channels
     w; pending_connects := x; pending_channels := pending_channels w; timers :=
     timers w; now := now w; w_log := w_log w |}.

Definition set_pending_channels (x : list nat) (w : world) : world :=
  {| w_config := w_config w; w_machina := w_machina w; w_state := w_state w; w_memory := w_memory w; m_channel
     := m_channel w; m_closed := m_closed w; m_started := m_started w; ready_listeners
     := ready_listeners w; close_listeners := close_listeners w; calls := calls w;
     close_calls := close_calls w; connections := connections w; channels := channels
     w; pending_connects := pending_connects w; pending_channels := x; timers :=
     timers w; now := now w; w_log := w_log w |}.

Definition set_timers (x : list timer) (w : world) : world :=
  {| w_config := w_config w; w_machina := w_machina w; w_state := w_state w; w_memory := w_memory w; m_channel
     := m_channel w; m_closed := m_closed w; m_started := m_started w; ready_listeners
     := ready_listeners w; close_listeners := close_listeners w; calls := calls w;
     close_calls := close_calls w; connections := connections w; channels := channels
     w; pending_connects := pending_connects w; pending_channels := pending_channels
     w; timers := x; now := now w; w_log := w_log w |}.

Definition set_now (x : Z) (w : world) : world :=
  {| w_config := w_config w; w_machina := w_machina w; w_state := w_state w; w_memory := w_memory w; m_channel
     := m_channel w; m_closed := m_closed w; m_started := m_started w; ready_listeners
     := ready_listeners w; close_listeners := close_listeners w; calls := calls w;
     close_calls := close_calls w; connections := connections w; channels := channels
     w; pending_connects := pending_connects w; pending_channels := pending_channels
     w; timers := timers w; now := x; w_log := w_log w |}.

Definition set_log (x : list action) (w : world) : world :=
  {| w_config := w_config w; w_machina := w_machina w; w_state := w_state w; w_memory := w_memory w; m_channel
     := m_channel w; m_closed := m_closed w; m_started := m_started w; ready_listeners
     := ready_listeners w; close_listeners := close_listeners w; calls := calls w;
     close_calls := close_calls w; connections := connections w; channels := channels
     w; pending_connects := pending_connects w; pending_channels := pending_channels
     w; timers := timers w; now := now w; w_log := x |}.
(** ** Tables *)

Fixpoint update_nth {A} (n : nat) (f : A -> A) (l : list A) : list A :=
  match l, n with
  | [], _ => []
  | x :: r, O => f x :: r
  | x :: r, S n' => x :: update_nth n' f r
  end.

Fixpoint remove_first (x : nat) (l : list nat) : list nat :=
  match l with
  | [] => []
  | y :: r => if Nat.eqb x y then r else y :: remove_first x r
  end.

Definition mem (x : nat) (l : list nat) : bool := existsb (Nat.eqb x) l.

Definition log (a : action) (w : world) : world :=
  set_log (a :: w_log w) w.

(** [l] has the earliest action first. *)
Definition log_all (l : list action) (w : world) : world :=
  set_log (rev l ++ w_log w) w.

Definition setTimeout (cb : timer_callback) (ms : Z) (w : world) : world :=
  log (A_setTimeout ms)
      (set_timers (timers w ++ [{| due := (now w + ms)%Z; callback := cb |}]) w).

(** ** The listeners of the facade on the state machine *)

(** The [disconnect] closure of the constructor. *)
Definition disconnect (w : world) : world :=
  match m_channel w with
  | Some _ => log A_manager_disconnected (set_m_channel None w)
  | None => w
  end.

(** [Promise.race]: the first settlement of a call stays. *)
Definition settle_call (k : nat) (st : call_status) (w : world) : world :=
  match nth_error (calls w) k with
  | Some Pending => set_calls (update_nth k (fun _ => st) (calls w)) w
  | _ => w
  end.

Definition settle_close (k : nat) (w : world) : world :=
  set_close_calls (update_nth k (fun _ => Close_resolved) (close_calls w)) w.

(** [this.emit('ready', this.memory)]: the listener of the constructor, then
    every [onReady], each of which removes itself and resolves its call with
    [state.channel]. *)
Definition emit_ready (w : world) : world :=
  let ch := mem_channel (w_memory w) in
  let w := log (A_emit_ready ch) w in
  let w := log A_manager_connected (set_m_channel ch w) in
  fold_left (fun w k => settle_call k (Resolved ch) w)
            (ready_listeners w) (set_ready_listeners [] w).

(** [this.emit('close')]: the listener of the constructor, then every
    [onClosed]. *)
Definition emit_close (w : world) : world :=
  let w := log A_emit_close w in
  let w := disconnect (set_m_closed true w) in
  fold_left (fun w k => settle_close k w)
            (close_listeners w) (set_close_listeners [] w).

Definition emit_reconnect (reconnects : nat) (wait_time_ms : Z) (w : world) : world :=
  disconnect (log (A_emit_reconnect reconnects wait_time_ms) w).

Definition emit_error (message : option string) (w : world) : world :=
  disconnect (log (A_emit_error message) w).

(** ** [AmqpConnectionFsm] *)

Definition clear_connection (c : connection_handle) : connection_handle :=
  {| conn_open := conn_open c; conn_listeners := [] |}.

Definition clear_channel (c : channel_handle) : channel_handle :=
  {| chan_connection := chan_connection c; chan_open := chan_open c;
     chan_listeners := []; chan_topology := chan_topology c |}.

Definition cleanHandlers (w : world) : world :=
  let w :=
    match mem_connection (w_memory w) with
    | Some h =>
        log (A_connection_removeAllListeners h)
            (set_connections (update_nth h clear_connection (connections w)) w)
    | None => w
    end in
  match mem_channel (w_memory w) with
  | Some c =>
      log (A_channel_removeAllListeners c)
          (set_channels (update_nth c clear_channel (channels w)) w)
  | None => w
  end.

Definition close_connection (c : connection_handle) : connection_handle :=
  {| conn_open := false; conn_listeners := conn_listeners c |}.

(** [(this.memory.reconnects || 0) + 1] *)
Definition next_reconnects (m : memory) : nat :=
  match mem_reconnects m with
  | Some n => n + 1
  | None => 0 + 1
  end.

Definition state_eqb (a b : fsm_state) : bool :=
  match a, b with
  | St_uninitialized, St_uninitialized
  | St_idle, St_idle
  | St_connect, St_connect
  | St_assert, St_assert
  | St_connected, St_connected
  | St_reconnect, St_reconnect
  | St_error, St_error
  | St_close, St_close => true
  | _, _ => false
  end.

(** The [_onEnter] of each state.  The one of [error] takes the error as its
    argument; no call of [transition] in the program gives one. *)
Definition onEnter (s : fsm_state) (w : world) : world :=
  match s with
  | St_uninitialized | St_idle => w
  | St_connect =>
      log (A_connect (connection (w_config w)))
          (set_pending_connects (S (pending_connects w)) w)
  | St_assert =>
      match mem_connection (w_memory w) with
      | Some h =>
          log (A_createChannel h (config_confirm (w_config w)))
              (set_pending_channels (pending_channels w ++ [h]) w)
      | None => w
      end
  | St_connected => emit_ready w
  | St_reconnect =>
      let reconnects := next_reconnects (w_memory w) in
      let waitTimeMs := Backoff.waitTimeMs reconnects in
      let w := emit_reconnect reconnects waitTimeMs w in
      setTimeout (Cb_reconnect reconnects) waitTimeMs w
  | St_error =>
      let w := cleanHandlers w in
      emit_error None w
  | St_close =>
      let w := cleanHandlers w in
      let w :=
        match mem_connection (w_memory w) with
        | Some h =>
            log (A_connection_close h)
                (set_connections (update_nth h close_connection (connections w)) w)
        | None => w
        end in
      emit_close w
  end.

(** Machina's [transition]: nothing happens when the target is the current
    state; otherwise the state changes and the [_onEnter] of the target runs
    (no state of this machine has an [_onExit]). *)
Definition transition (s : fsm_state) (w : world) : world :=
  if state_eqb s (w_state w) then w
  else onEnter s (log (A_transition (w_state w) s) (set_state s w)).

(** The handlers of the states other than [uninitialized]; an input without
    a handler in the current state is dropped. *)
Definition dispatch (i : input) (w : world) : world :=
  match w_state w, i with
  | St_idle, In_open => transition St_connect w
  | St_connect, In_connection_error => transition St_reconnect w
  | St_connect, In_error => transition St_reconnect w
  | St_assert, In_connection_error => transition St_reconnect w
  | St_assert, In_channel_close => transition St_reconnect w
  | St_assert, In_channel_error message =>
      if Precondition.test message then emit_error (Some message) w
      else transition St_reconnect w
  | St_connected, In_channel_error _ => transition St_reconnect w
  | St_connected, In_connection_error => transition St_reconnect w
  | St_connected, In_channel_close => transition St_reconnect w
  | _, _ => w
  end.

(** [this.handle]: in [uninitialized] the catch-all handler does
    [deferAndTransition('idle')], and the deferred input is replayed once
    [idle] is entered. *)
Definition handle (i : input) (w : world) : world :=
  match w_state w with
  | St_uninitialized => dispatch i (transition St_idle w)
  | _ => dispatch i w
  end.

Definition fsm_open (w : world) : world :=
  handle In_open (log A_fsm_open w).

Definition fsm_close (w : world) : world :=
  transition St_close (log A_fsm_close w).

(** ** [assertTopology] *)

Definition declarations (cfg : config_object) (ph : phase) : nat :=
  match ph with
  | Exchanges => List.length (config_exchanges cfg)
  | Queues => List.length (config_queues cfg)
  | Bindings => List.length (config_bindings cfg)
  end.

(** The calls one [Promise.all(collection.map(...))] makes on the channel,
    all of them before anything else runs. *)
Definition issue (cfg : config_object) (c : nat) (ph : phase) : list action :=
  match ph with
  | Exchanges => map (A_assertExchange c) (config_exchanges cfg)
  | Queues => map (A_assertQueue c) (config_queues cfg)
  | Bindings => map (A_bindQueue c) (config_bindings cfg)
  end.

Definition with_topology (t : topology) (ch : channel_handle) : channel_handle :=
  {| chan_connection := chan_connection ch; chan_open := chan_open ch;
     chan_listeners := chan_listeners ch; chan_topology := t |}.

Definition set_topology (c : nat) (t : topology) (w : world) : world :=
  set_channels (update_nth c (with_topology t) (channels w)) w.

(** The last [then] of [assert._onEnter]: [this.transition('connected')]. *)
Definition topology_resolved (c : nat) (w : world) : world :=
  transition St_connected (set_topology c T_resolved w).

(** Each step of the chain makes all the calls of its collection; the
    [Promise.all] of an empty collection is resolved and the chain goes on. *)
Definition bindQueues (c : nat) (w : world) : world :=
  let w := log_all (issue (w_config w) c Bindings) w in
  match declarations (w_config w) Bindings with
  | O => topology_resolved c w
  | S n => set_topology c (T_running Bindings (seq 0 (S n))) w
  end.

Definition assertQueues (c : nat) (w : world) : world :=
  let w := log_all (issue (w_config w) c Queues) w in
  match declarations (w_config w) Queues with
  | O => bindQueues c w
  | S n => set_topology c (T_running Queues (seq 0 (S n))) w
  end.

Definition assertExchanges (c : nat) (w : world) : world :=
  let w := log_all (issue (w_config w) c Exchanges) w in
  match declarations (w_config w) Exchanges with
  | O => assertQueues c w
  | S n => set_topology c (T_running Exchanges (seq 0 (S n))) w
  end.

Definition assertTopology (c : nat) (w : world) : world :=
  assertExchanges c w.

(** What follows a [Promise.all] that is resolved. *)
Definition continue_after (ph : phase) (c : nat) (w : world) : world :=
  match ph with
  | Exchanges => assertQueues c w
  | Queues => bindQueues c w
  | Bindings => topology_resolved c w
  end.

(** Declaration [i] of the collection being declared on channel [c] is
    resolved by the broker. *)
Definition declare_resolved (c i : nat) (w : world) : world :=
  match nth_error (channels w) c with
  | Some ch =>
      match chan_topology ch with
      | T_running ph pending =>
          if mem i pending then
            let w := log (A_settled c ph i) w in
            match remove_first i pending with
            | [] => continue_after ph c w
            | rest => set_topology c (T_running ph rest) w
            end
          else w
      | _ => w
      end
  | None => w
  end.

(** It is rejected: the [Promise.all] is rejected, the rest of the chain is
    skipped, and nothing in the program handles the rejection. *)
Definition declare_rejected (c i : nat) (w : world) : world :=
  match nth_error (channels w) c with
  | Some ch =>
      match chan_topology ch with
      | T_running ph pending =>
          if mem i pending then set_topology c T_rejected w else w
      | _ => w
      end
  | None => w
  end.

(** ** The callbacks of [connect] and [assert] *)

Definition assign_connection (h : nat) (m : memory) : memory :=
  {| mem_connection := Some h; mem_channel := mem_channel m;
     mem_reconnects := Some 0 |}.

Definition assign_channel (c : nat) (m : memory) : memory :=
  {| mem_connection := mem_connection m; mem_channel := Some c;
     mem_reconnects := mem_reconnects m |}.

Definition assign_reconnects (n : nat) (m : memory) : memory :=
  {| mem_connection := mem_connection m; mem_channel := mem_channel m;
     mem_reconnects := Some n |}.

(** [Amqp.connect(...)] is resolved with a new connection. *)
Definition connect_resolved (w : world) : world :=
  let h := List.length (connections w) in
  let w := set_connections
             (connections w ++ [{| conn_open := true; conn_listeners := [On_error] |}]) w in
  let w := log (A_connection_on h On_error) w in
  let w := set_memory (assign_connection h (w_memory w)) w in
  transition St_assert w.

(** [createChannel()] or [createConfirmChannel()] on connection [h] is resolved
    with a new channel.  The topology of the new handle is written by
    [assertTopology] before the callback returns. *)
Definition createChannel_resolved (h : nat) (w : world) : world :=
  let c := List.length (channels w) in
  let w := set_channels
             (channels w ++ [{| chan_connection := h; chan_open := true;
                                chan_listeners := [On_error; On_close];
                                chan_topology := T_running Exchanges [] |}]) w in
  let w := log (A_prefetch c (config_prefetch (w_config w))) w in
  let w := set_memory (assign_channel c (w_memory w)) w in
  let w := log (A_channel_on c On_error) w in
  let w := log (A_channel_on c On_close) w in
  assertTopology c w.

(** ** Timers *)

Definition run_timer (t : timer) (w : world) : world :=
  match callback t with
  | Cb_reconnect reconnects =>
      transition St_connect
                 (set_memory (assign_reconnects reconnects (w_memory w)) w)
  | Cb_channel_timeout k => settle_call k (Rejected Channel_Timeout) w
  end.

Fixpoint insert_by_due (t : timer) (l : list timer) : list timer :=
  match l with
  | [] => [t]
  | x :: r => if (due t <? due x)%Z then t :: l else x :: insert_by_due t r
  end.

(** Timers run by due time, and in the order they were set when due at the
    same time. *)
Definition sort_by_due (l : list timer) : list timer :=
  fold_left (fun acc t => insert_by_due t acc) l [].

Definition is_due (t : Z) (tm : timer) : bool := (due tm <=? t)%Z.

(** Time passes: every timer that has come due runs.  No callback of this
    program sets a timer, so one pass is all there is to run. *)
Definition advance (ms : Z) (w : world) : world :=
  let t := (now w + Z.max 0 ms)%Z in
  let ready := sort_by_due (filter (is_due t) (timers w)) in
  let rest := filter (fun tm => negb (is_due t tm)) (timers w) in
  fold_left (fun w tm => run_timer tm w) ready (set_timers rest (set_now t w)).

(** ** [AmqpManager] *)

Definition initial_memory : memory :=
  {| mem_connection := None; mem_channel := None; mem_reconnects := None |}.

(** What [new AmqpConnectionFsm(this.config)] writes into [this.config]:
    the [initialState] of the machine and its table of [states]. *)
Definition AmqpConnectionFsm_keys : machina_keys :=
  {| initialState := "uninitialized";
     states := [St_uninitialized; St_idle; St_connect; St_assert; St_connected;
                St_reconnect; St_error; St_close] |}.

(** [new AmqpManager(config)]: [_.defaultsDeep] writes the defaults into the
    object it is given and returns that object, and the constructor of the
    state machine adds its two keys to it. *)
Definition AmqpManager (config : config_object) : world :=
  {| w_config := Defaults.defaultsDeep config;
     w_machina := Some AmqpConnectionFsm_keys;
     w_state := St_uninitialized;
     w_memory := initial_memory;
     m_channel := None;
     m_closed := false;
     m_started := false;
     ready_listeners := [];
     close_listeners := [];
     calls := [];
     close_calls := [];
     connections := [];
     channels := [];
     pending_connects := 0;
     pending_channels := [];
     timers := [];
     now := 0;
     w_log := [] |}.

(** [AmqpManager.prototype.channel]; the call is the next entry of [calls]. *)
Definition AmqpManager_channel (w : world) : world :=
  let k := List.length (calls w) in
  if m_closed w then set_calls (calls w ++ [Rejected Connection_closed]) w
  else
    match m_channel w with
    | Some c => set_calls (calls w ++ [Resolved (Some c)]) w
    | None =>
        let w := if m_started w then w else fsm_open (set_m_started true w) in
        let w := set_calls (calls w ++ [Pending]) w in
        let w := setTimeout (Cb_channel_timeout k) 2000 w in
        set_ready_listeners (ready_listeners w ++ [k]) w
    end.

(** [AmqpManager.prototype.close]: the executor of the promise calls
    [this.fsm.close()] and then registers [onClosed]. *)
Definition AmqpManager_close (w : world) : world :=
  let k := List.length (close_calls w) in
  let w := set_close_calls (close_calls w ++ [Close_pending]) w in
  let w := fsm_close w in
  set_close_listeners (close_listeners w ++ [k]) w.

(** ** Events *)

Inductive event :=
| Call_channel
| Call_close
| Connect_resolved
| Connect_rejected
| CreateChannel_resolved (h : nat)
| CreateChannel_rejected (h : nat) (message : string)
| Declare_resolved (c i : nat)
| Declare_rejected (c i : nat)
| Connection_emits (h : nat) (ev : emitted)
| Channel_emits (c : nat) (ev : emitted) (message : string)
| Advance (ms : Z).

Definition emitted_eqb (a b : emitted) : bool :=
  match a, b with
  | On_error, On_error | On_close, On_close => true
  | _, _ => false
  end.

(** A handle that emits [close] has shut down.  The only listener this
    program puts on a connection is [connection.on('error', ...)]; an event
    nobody listens to is dropped. *)
Definition after_emitting_connection (ev : emitted) (c : connection_handle)
  : connection_handle :=
  match ev with
  | On_close => close_connection c
  | On_error => c
  end.

Definition connection_emits (h : nat) (ev : emitted) (w : world) : world :=
  match nth_error (connections w) h with
  | Some c =>
      let w := set_connections
                 (update_nth h (after_emitting_connection ev) (connections w)) w in
      fold_left (fun w l => if emitted_eqb l ev then handle In_connection_error w else w)
                (conn_listeners c) w
  | None => w
  end.

Definition shut_channel (ch : channel_handle) : channel_handle :=
  {| chan_connection := chan_connection ch; chan_open := false;
     chan_listeners := chan_listeners ch; chan_topology := chan_topology ch |}.

Definition after_emitting_channel (ev : emitted) (ch : channel_handle)
  : channel_handle :=
  match ev with
  | On_close => shut_channel ch
  | On_error => ch
  end.

Definition channel_listener (ev : emitted) (message : string) : input :=
  match ev with
  | On_error => In_channel_error message
  | On_close => In_channel_close
  end.

Definition channel_emits (c : nat) (ev : emitted) (message : string) (w : world) : world :=
  match nth_error (channels w) c with
  | Some ch =>
      let w := set_channels
                 (update_nth c (after_emitting_channel ev) (channels w)) w in
      fold_left (fun w l => if emitted_eqb l ev
                            then handle (channel_listener ev message) w else w)
                (chan_listeners ch) w
  | None => w
  end.

(** An event that cannot happen in [w] (no such promise is pending, no such
    handle exists) leaves [w] as it is. *)
Definition step (w : world) (e : event) : world :=
  match e with
  | Call_channel => AmqpManager_channel w
  | Call_close => AmqpManager_close w
  | Connect_resolved =>
      match pending_connects w with
      | O => w
      | S n => connect_resolved (set_pending_connects n w)
      end
  | Connect_rejected =>
      match pending_connects w with
      | O => w
      | S n => handle In_error (set_pending_connects n w)
      end
  | CreateChannel_resolved h =>
      if mem h (pending_channels w)
      then createChannel_resolved h
             (set_pending_channels (remove_first h (pending_channels w)) w)
      else w
  | CreateChannel_rejected h message =>
      if mem h (pending_channels w)
      then handle (In_channel_error message)
             (set_pending_channels (remove_first h (pending_channels w)) w)
      else w
  | Declare_resolved c i => declare_resolved c i w
  | Declare_rejected c i => declare_rejected c i w
  | Connection_emits h ev => connection_emits h ev w
  | Channel_emits c ev message => channel_emits c ev message w
  | Advance ms => advance ms w
  end.

Definition run (evs : list event) (w : world) : world :=
  fold_left step evs w.

(** ** Which events the environment can produce *)

Definition connection_is_open (w : world) (h : nat) : bool :=
  match nth_error (connections w) h with
  | Some c => conn_open c
  | None => false
  end.

Definition channel_is_open (w : world) (c : nat) : bool :=
  match nth_error (channels w) c with
  | Some ch => chan_open ch && connection_is_open w (chan_connection ch)
  | None => false
  end.

Definition is_pending_declaration (w : world) (c i : nat) : bool :=
  match nth_error (channels w) c with
  | Some ch =>
      match chan_topology ch with
      | T_running _ pending => mem i pending
      | _ => false
      end
  | None => false
  end.

(** Promises settle only when pending, a broker answers only on handles that
    are open, only open handles emit, and time does not go back. *)
Definition enabled (w : world) (e : event) : bool :=
  match e with
  | Call_channel | Call_close => true
  | Connect_resolved | Connect_rejected => negb (Nat.eqb (pending_connects w) 0)
  | CreateChannel_resolved h => mem h (pending_channels w) && connection_is_open w h
  | CreateChannel_rejected h _ => mem h (pending_channels w)
  | Declare_resolved c i => is_pending_declaration w c i && channel_is_open w c
  | Declare_rejected c i => is_pending_declaration w c i
  | Connection_emits h _ => connection_is_open w h
  | Channel_emits c _ _ => channel_is_open w c
  | Advance ms => (0 <=? ms)%Z
  end.

Fixpoint feasible (evs : list event) (w : world) : bool :=
  match evs with
  | [] => true
  | e :: r => enabled w e && feasible r (step w e)
  end.

Definition open_connections (w : world) : nat :=
  List.length (filter conn_open (connections w)).

Definition open_channels (w : world) : nat :=
  List.length (filter (channel_is_open w) (seq 0 (List.length (channels w)))).

Definition is_cleanup (a : action) : bool :=
  match a with
  | A_connection_removeAllListeners _ | A_channel_removeAllListeners _
  | A_connection_close _ => true
  | _ => false
  end.

Definition is_connect (a : action) : bool :=
  match a with
  | A_connect _ => true
  | _ => false
  end.

Definition is_reconnect_timer (t : timer) : bool :=
  match callback t with
  | Cb_reconnect _ => true
  | Cb_channel_timeout _ => false
  end.

(** ** Example inputs *)

Definition empty_config : config_object :=
  {| connection := None; channel := None; queues := None;
     exchanges := None; bindings := None |}.

(** Exchange [E] (topic), queue [Q], and [Q] bound to [E] on ["events.#"]. *)
Definition events_config : config_object :=
  {| connection := None; channel := None;
     queues := Some [ {| queue := "Q"; q_options := None |} ];
     exchanges := Some [ {| exchange := "E"; type := "topic"; e_options := None |} ];
     bindings := Some [ {| b_queue := "Q"; b_exchange := "E"; pattern := "events.#" |} ] |}.

(** * Predicates used in the statements *)

(** [l'] is [l] with more actions on top, each of which satisfies [P]. *)
Inductive grows {A} (P : A -> Prop) (l : list A) : list A -> Prop :=
| grows_refl : grows P l l
| grows_cons a l' : P a -> grows P l l' -> grows P l (a :: l').

(** [l'] is [l] with more entries at its end, each of which satisfies [P]. *)
Definition appended {A} (P : A -> Prop) (l l' : list A) : Prop :=
  exists d, l' = l ++ d /\ Forall P d.

(** ** What an action is about *)

Inductive kind := K_topology | K_ready | K_open | K_other.

Definition kind_of (a : action) : kind :=
  match a with
  | A_assertExchange _ _ | A_assertQueue _ _ | A_bindQueue _ _
  | A_settled _ _ _ => K_topology
  | A_emit_ready _ => K_ready
  | A_fsm_open => K_open
  | _ => K_other
  end.

Definition other (a : action) : Prop := kind_of a = K_other.

Definition topologies (w : world) : list topology :=
  map chan_topology (channels w).

Definition reconnect_timer (t : timer) : Prop :=
  exists n, callback t = Cb_reconnect n.

(** ** Steps that leave the facade and the topology alone

    Everything the state machine does outside of entering [connected]:
    the configuration, the memory, the calls of [channel()], their listeners,
    the clock and the progress of every [assertTopology] stay as they are;
    the log grows by actions that are neither declarations nor [ready] nor a
    call of [open]; the only timers added are reconnect timers. *)
Record quiet (w w' : world) : Prop := {
  q_config : w_config w' = w_config w;
  q_machina : w_machina w' = w_machina w;
  q_memory : w_memory w' = w_memory w;
  q_state : w_state w' = St_error -> w_state w = St_error;
  q_started : m_started w' = m_started w;
  q_calls : calls w' = calls w;
  q_ready_listeners : ready_listeners w' = ready_listeners w;
  q_now : now w' = now w;
  q_topologies : topologies w' = topologies w;
  q_channels : List.length (channels w') = List.length (channels w);
  q_log : grows other (w_log w) (w_log w');
  q_timers : appended reconnect_timer (timers w) (timers w')
}.


Definition declaring (a : action) : Prop :=
  kind_of a = K_other \/ kind_of a = K_topology.

(** ** Steps that leave the facade alone

    As [quiet], but the topology may progress and handles may be written. *)
Record calm (w w' : world) : Prop := {
  c_config : w_config w' = w_config w;
  c_machina : w_machina w' = w_machina w;
  c_reconnects : mem_reconnects (w_memory w') = mem_reconnects (w_memory w);
  c_state : w_state w' = St_error -> w_state w = St_error;
  c_started : m_started w' = m_started w;
  c_calls : calls w' = calls w;
  c_ready_listeners : ready_listeners w' = ready_listeners w;
  c_now : now w' = now w;
  c_log : grows declaring (w_log w) (w_log w');
  c_timers : appended reconnect_timer (timers w) (timers w')
}.

(** A calm step, but for the counter of reconnects. *)
Record loose (w w' : world) : Prop := {
  l_config : w_config w' = w_config w;
  l_machina : w_machina w' = w_machina w;
  l_state : w_state w' = St_error -> w_state w = St_error;
  l_started : m_started w' = m_started w;
  l_calls : calls w' = calls w;
  l_ready_listeners : ready_listeners w' = ready_listeners w;
  l_now : now w' = now w;
  l_log : grows declaring (w_log w) (w_log w');
  l_timers : appended reconnect_timer (timers w) (timers w')
}.

(** What one callback of the state machine comes to: a step in [R], at the
    end of which [ready] may be emitted. *)
Inductive outcome (R : world -> world -> Prop) (w w' : world) : Prop :=
| out_calm : R w w' -> outcome R w w'
| out_ready w1 : R w w1 -> w' = emit_ready w1 -> outcome R w w'.

(** What running timers does: everything a calm step keeps but the counter
    of reconnects, and a pending call may be rejected with a timeout. *)
Record timed (w w' : world) : Prop := {
  t_config : w_config w' = w_config w;
  t_machina : w_machina w' = w_machina w;
  t_state : w_state w' = St_error -> w_state w = St_error;
  t_started : m_started w' = m_started w;
  t_ready_listeners : ready_listeners w' = ready_listeners w;
  t_now : now w' = now w;
  t_topologies : topologies w' = topologies w;
  t_log : grows other (w_log w) (w_log w');
  t_timers : appended reconnect_timer (timers w) (timers w');
  t_calls : forall j,
      nth_error (calls w') j = nth_error (calls w) j \/
      (nth_error (calls w) j = Some Pending /\
       nth_error (calls w') j = Some (Rejected Channel_Timeout))
}.

(** ** The configuration after [_.defaultsDeep] *)

(** A property that was defined has kept its value. *)
Definition kept {A} (before after : option A) : Prop :=
  forall x, before = Some x -> after = Some x.

Definition connection_kept (a b : connection_object) : Prop :=
  kept (protocol a) (protocol b) /\ kept (user a) (user b) /\
  kept (password a) (password b) /\ kept (host a) (host b) /\
  kept (port a) (port b) /\ kept (vhost a) (vhost b) /\
  kept (options a) (options b) /\
  (forall p, params a = Some p -> exists d, params b = Some (p ++ d)).

Definition channel_kept (a b : channel_object) : Prop :=
  kept (prefetch a) (prefetch b) /\ kept (confirm a) (confirm b).

Definition config_kept (a b : config_object) : Prop :=
  (forall c, connection a = Some c ->
             exists c', connection b = Some c' /\ connection_kept c c') /\
  (forall c, channel a = Some c ->
             exists c', channel b = Some c' /\ channel_kept c c') /\
  kept (queues a) (queues b) /\ kept (exchanges a) (exchanges b) /\
  kept (bindings a) (bindings b).

(** The caller's object: the properties of the configuration, and the two
    keys of Machina when it has them. *)
Record caller_object := {
  properties : config_object;
  machina : option machina_keys
}.

(** The object as the caller makes it, from a configuration: it has no key
    of Machina. *)
Definition given (config : config_object) : caller_object :=
  {| properties := config; machina := None |}.

(** The object as the program holds it. *)
Definition held (w : world) : caller_object :=
  {| properties := w_config w; machina := w_machina w |}.

(** The value of a property that has a default, after the construction: the
    value the caller gave, or [default] where the caller left it undefined. *)
Definition given_or {A} (default : A) (given : option A) : A :=
  match given with
  | Some x => x
  | None => default
  end.

(** A configuration in which the caller has defined every property. *)
Definition full_config : config_object :=
  {| connection :=
       Some {| protocol := Some "amqps"; user := Some "app"; password := Some "secret";
               host := Some "broker"; port := Some 5671%Z; vhost := Some "events";
               params := Some [("heartbeat", "10")]; options := Some None |};
     channel := Some {| prefetch := Some 10%Z; confirm := Some false |};
     queues := Some []; exchanges := Some []; bindings := Some [] |}.

(** ** Scenarios *)

(** The first [channel()], a connection and a channel; the broker closes the
    channel with an error, the machine reconnects; later the first
    connection fails, and the machine reconnects again. *)
Definition channel_failure : list event :=
  [Call_channel; Connect_resolved; CreateChannel_resolved 0;
   Channel_emits 0 On_error "Channel closed by server"; Channel_emits 0 On_close "";
   Advance 200; Connect_resolved; CreateChannel_resolved 1].

Definition two_failures : list event :=
  channel_failure ++
  [Connection_emits 0 On_error; Connection_emits 0 On_close;
   Advance 200; Connect_resolved; CreateChannel_resolved 2].

(** [close()] while the backoff of a reconnect is pending. *)
Definition close_during_backoff : list event :=
  [Call_channel; Connect_rejected; Call_close; Advance 200].

(** [close()] while the connect is in flight. *)
Definition close_during_connect : list event :=
  [Call_channel; Call_close; Connect_resolved; CreateChannel_resolved 0].

Definition precondition_message : string :=
  "Channel closed by server: 406 (PRECONDITION-FAILED) with message: inequivalent arg".

(** The exchange exists with another type: the broker rejects the
    declaration and closes the channel with an error. *)
Definition precondition_failure : list event :=
  [Call_channel; Connect_resolved; CreateChannel_resolved 0;
   Declare_rejected 0 0; Channel_emits 0 On_error precondition_message].

(** The transport is closed without an error while connected. *)
Definition transport_close : list event :=
  [Call_channel; Connect_resolved; CreateChannel_resolved 0;
   Connection_emits 0 On_close].

(** A manager that is closed and has nothing in flight. *)
Definition closed_and_idle (w : world) : Prop :=
  w_state w = St_close /\ m_closed w = true /\
  pending_connects w = 0 /\ pending_channels w = [] /\ timers w = [] /\
  connections w = [] /\ channels w = [] /\
  Forall (fun s => s = Close_pending) (close_calls w).

(** ** The order of the declarations *)

(** Every declaration of collection [ph] on channel [c] has settled. *)
Definition all_settled (cfg : config_object) (c : nat) (ph : phase)
           (log : list action) : Prop :=
  forall i, i < declarations cfg ph -> In (A_settled c ph i) log.

(** Every declaration of collection [ph] has been made on channel [c]. *)
Definition all_issued (cfg : config_object) (c : nat) (ph : phase)
           (log : list action) : Prop :=
  incl (issue cfg c ph) log.

Definition phase_index (ph : phase) : nat :=
  match ph with
  | Exchanges => 0
  | Queues => 1
  | Bindings => 2
  end.

(** The collections before [ph] are declared on [c], all of them. *)
Definition done_before (cfg : config_object) (c : nat) (ph : phase)
           (log : list action) : Prop :=
  forall ph', phase_index ph' < phase_index ph ->
              all_issued cfg c ph' log /\ all_settled cfg c ph' log.

Definition topology_done (cfg : config_object) (c : nat) (log : list action) : Prop :=
  forall ph, all_issued cfg c ph log /\ all_settled cfg c ph log.

(** What has to have happened before an action:
    - a queue is declared on a channel once every exchange has settled on it;
    - a binding is made once every exchange and every queue has settled;
    - a declaration settles after the whole of its collection was issued;
    - [ready] is emitted once some channel has its whole topology issued and
      settled. *)
Definition requirement (cfg : config_object) (a : action) (earlier : list action)
  : Prop :=
  match a with
  | A_assertQueue c _ => all_settled cfg c Exchanges earlier
  | A_bindQueue c _ =>
      all_settled cfg c Exchanges earlier /\ all_settled cfg c Queues earlier
  | A_settled c ph i => i < declarations cfg ph /\ all_issued cfg c ph earlier
  | A_emit_ready _ => exists c, topology_done cfg c earlier
  | _ => True
  end.

(** The log, latest action first, meets the requirement of each of its
    actions. *)
Fixpoint in_order (cfg : config_object) (log : list action) : Prop :=
  match log with
  | [] => True
  | a :: earlier => requirement cfg a earlier /\ in_order cfg earlier
  end.

(** What the log holds about a channel whose topology is being asserted. *)
Definition topology_fact (cfg : config_object) (log : list action) (c : nat)
           (t : topology) : Prop :=
  match t with
  | T_running ph pending =>
      all_issued cfg c ph log /\
      (forall i, In i pending -> i < declarations cfg ph) /\
      (forall i, i < declarations cfg ph -> ~ In i pending ->
                 In (A_settled c ph i) log) /\
      done_before cfg c ph log
  | _ => True
  end.

(** The invariant, for every channel but [skip]. *)
Definition ordered_but (skip : option nat) (w : world) : Prop :=
  in_order (w_config w) (w_log w) /\
  forall c t, Some c <> skip -> nth_error (topologies w) c = Some t ->
              topology_fact (w_config w) (w_log w) c t.

Definition ordered (w : world) : Prop := ordered_but None w.

Definition enter_phase (ph : phase) (c : nat) (w : world) : world :=
  match ph with
  | Exchanges => assertExchanges c w
  | Queues => assertQueues c w
  | Bindings => bindQueues c w
  end.

(** ** A call of [channel()] that waits *)

Definition is_fsm_open (a : action) : bool :=
  match a with
  | A_fsm_open => true
  | _ => false
  end.

(** How many times the facade has called [open] on the state machine. *)
Definition opens (log : list action) : nat :=
  List.length (filter is_fsm_open log).

Definition not_ready (a : action) : Prop := kind_of a <> K_ready.

Definition timeout_of (k : nat) (D : Z) : timer :=
  {| due := D; callback := Cb_channel_timeout k |}.

(** [ready] has been emitted since [base], the first time with [ch]. *)
Definition first_ready (ch : option nat) (base log : list action) : Prop :=
  exists d1 d2, log = d1 ++ A_emit_ready ch :: d2 ++ base /\ Forall not_ready d2.

(** Where call [k], which started to wait when the log was [base] and whose
    timeout is due at [D], stands. *)
Definition call_state (k : nat) (D : Z) (base : list action) (w : world) : Prop :=
  match nth_error (calls w) k with
  | Some Pending =>
      In k (ready_listeners w) /\ In (timeout_of k D) (timers w) /\
      (now w < D)%Z /\ grows not_ready base (w_log w)
  | Some (Resolved ch) => first_ready ch base (w_log w)
  | Some (Rejected e) => e = Channel_Timeout /\ (D <= now w)%Z
  | None => False
  end.

Definition waiting (k : nat) (D : Z) (base : list action) (w : world) : Prop :=
  (forall tm, In tm (timers w) -> callback tm = Cb_channel_timeout k -> due tm = D) /\
  call_state k D base w.

(** The timeouts that are set are those of calls that were made. *)
Definition timeouts_of_calls (w : world) : Prop :=
  forall tm j, In tm (timers w) -> callback tm = Cb_channel_timeout j ->
               nth_error (calls w) j <> None.

(** [open] was called once if the facade has started, and never before. *)
Definition opened_once (w : world) : Prop :=
  opens (w_log w) = if m_started w then 1 else 0.

(** ** [ready] and the channel it carries *)

(** Every item of a collection was declared, and every declaration of it has
    settled. *)
Definition declared_and_settled {A} (declare : A -> action) (settled : nat -> action)
           (items : list A) (log : list action) : Prop :=
  (forall x, In x items -> In (declare x) log) /\
  (forall i, i < List.length items -> In (settled i) log).

Definition exchanges_done (cfg : config_object) (c : nat) (log : list action) : Prop :=
  declared_and_settled (A_assertExchange c) (A_settled c Exchanges)
                       (config_exchanges cfg) log.

Definition queues_done (cfg : config_object) (c : nat) (log : list action) : Prop :=
  declared_and_settled (A_assertQueue c) (A_settled c Queues)
                       (config_queues cfg) log.

Definition bindings_done (cfg : config_object) (c : nat) (log : list action) : Prop :=
  declared_and_settled (A_bindQueue c) (A_settled c Bindings)
                       (config_bindings cfg) log.

(** What was declared, and what has settled, on channel [c]. *)
Definition on_channel (c : nat) (a : action) : bool :=
  match a with
  | A_assertExchange c' _ | A_assertQueue c' _ | A_bindQueue c' _
  | A_settled c' _ _ => Nat.eqb c' c
  | _ => false
  end.

(** After [two_failures] the third attempt has its channel, on which the
    exchange is being declared, and the second connection and its channel
    are still open: the broker answers the three declarations that the
    second attempt made. *)
Definition stale_chain : list event :=
  two_failures ++ [Declare_resolved 1 0; Declare_resolved 1 0; Declare_resolved 1 0].

(** ** The counter of reconnects *)

Definition counter (w : world) : option nat := mem_reconnects (w_memory w).

(** The counter after the callback of a timer: the timer of a backoff
    stores the number of its attempt, the timeout of a call stores nothing. *)
Definition counter_after (c : option nat) (tm : timer) : option nat :=
  match callback tm with
  | Cb_reconnect n => Some n
  | Cb_channel_timeout _ => c
  end.

(** The timers that run when [ms] milliseconds pass, in the order they
    run. *)
Definition due_timers (ms : Z) (w : world) : list timer :=
  sort_by_due (filter (is_due (now w + Z.max 0 ms)%Z) (timers w)).

(** A connect fails, and the backoff of the first attempt is pending. *)
Definition first_backoff : list event :=
  [Call_channel; Connect_rejected].

Definition is_emit_reconnect (a : action) : bool :=
  match a with
  | A_emit_reconnect _ _ => true
  | _ => false
  end.

Definition enters_connected (a : action) : bool :=
  match a with
  | A_transition _ St_connected => true
  | _ => false
  end.

(** Two connects fail, the third succeeds, and then the channel cannot be
    opened. *)
Definition assert_failure : list event :=
  [Call_channel; Connect_rejected; Advance 200; Connect_rejected; Advance 400;
   Connect_resolved; CreateChannel_rejected 0 "refused"].

(** The whole of the example of the specification: [E], [Q] and the binding
    are declared and settle one after the other. *)
Definition declared : list event :=
  [Call_channel; Connect_resolved; CreateChannel_resolved 0;
   Declare_resolved 0 0; Declare_resolved 0 0; Declare_resolved 0 0].

(** * More of the program *)

(** ** The configuration the machine reads *)

Definition defined {A} (o : option A) : Prop := o <> None.

(** Every property the constructor gives a default to is defined. *)
Definition complete (cfg : config_object) : Prop :=
  (exists c, connection cfg = Some c /\
             defined (protocol c) /\ defined (user c) /\ defined (password c) /\
             defined (host c) /\ defined (port c) /\ defined (vhost c) /\
             defined (options c) /\
             exists p, params c = Some p /\ Defaults.has_key "heartbeat" p = true) /\
  (exists c, channel cfg = Some c /\ defined (prefetch c) /\ defined (confirm c)) /\
  defined (queues cfg) /\ defined (exchanges cfg) /\ defined (bindings cfg).

(** ** The message of a precondition failure *)

Fixpoint lowercase (s : string) : string :=
  match s with
  | EmptyString => EmptyString
  | String a r => String (Precondition.lower a) (lowercase r)
  end.

(** [m] has a part that reads [p] when the case of the letters A-Z is
    ignored. *)
Definition contains_ci (p m : string) : Prop :=
  exists pre mid post,
    m = (pre ++ mid ++ post)%string /\ lowercase mid = lowercase p.

(** ** The events of the facade *)

Definition is_manager_event (a : action) : bool :=
  match a with
  | A_manager_connected | A_manager_disconnected => true
  | _ => false
  end.

(** The latest of [connected] and [disconnected] in a log. *)
Fixpoint last_manager_event (log : list action) : option action :=
  match log with
  | [] => None
  | a :: earlier =>
      if is_manager_event a then Some a else last_manager_event earlier
  end.

(** Every [disconnected] follows a [connected], with no [disconnected] in
    between. *)
Fixpoint alternates (log : list action) : Prop :=
  match log with
  | [] => True
  | a :: earlier =>
      (a = A_manager_disconnected ->
       last_manager_event earlier = Some A_manager_connected) /\
      alternates earlier
  end.

Definition cache_ok (w : world) : Prop :=
  alternates (w_log w) /\
  (m_channel w <> None -> last_manager_event (w_log w) = Some A_manager_connected).

(** ** What is asked of the transport client and of the clock *)

(** The arguments of a call come from the configuration; a timer is the
    timeout of [channel()] or a backoff. *)
Definition argument_ok (cfg : config_object) (a : action) : Prop :=
  match a with
  | A_connect c => c = connection cfg
  | A_createChannel _ b => b = config_confirm cfg
  | A_prefetch _ n => n = config_prefetch cfg
  | A_assertExchange _ e => In e (config_exchanges cfg)
  | A_assertQueue _ q => In q (config_queues cfg)
  | A_bindQueue _ b => In b (config_bindings cfg)
  | A_setTimeout ms => ms = 2000%Z \/ (200 <= ms <= 60000)%Z
  | A_emit_reconnect n ms => 1 <= n /\ ms = Backoff.waitTimeMs n
  | _ => True
  end.

Definition arguments_ok (w : world) : Prop :=
  Forall (argument_ok (w_config w)) (w_log w).

(** ** What no callback undoes *)

(** The part of [facade] that every assignment keeps. *)
Record facade_frame (w w' : world) : Prop := {
  ff_config : w_config w' = w_config w;
  ff_closed : m_closed w = true -> m_closed w' = true;
  ff_cache : cache_ok w -> cache_ok w';
  ff_arguments : arguments_ok w -> arguments_ok w';
  ff_log : incl (w_log w) (w_log w');
  ff_cached : forall c, m_channel w' = Some c ->
                        m_channel w = Some c \/ In (A_emit_ready (Some c)) (w_log w')
}.

(** A step keeps the configuration, the [closed] flag once it is set, the
    order of [connected] and [disconnected], the arguments of the calls it
    logs and the log it found, and it puts in the cache only a channel that
    some [ready] carried; and the machine enters [close] only with the flag
    set. *)
Record facade (w w' : world) : Prop := {
  f_frame : facade_frame w w';
  f_close_state :
    w_state w' = St_close -> w_state w = St_close \/ m_closed w' = true
}.

Definition closed_in_close (w : world) : Prop :=
  w_state w = St_close -> m_closed w = true.

(** What the entry actions keep: the frame, and the state of the machine. *)
Record inner (w w' : world) : Prop := {
  in_frame : facade_frame w w';
  in_state : w_state w' = w_state w
}.

(** A connected machine loses its channel. *)
Definition channel_loss : list event :=
  [Call_channel; Connect_resolved; CreateChannel_resolved 0;
   Channel_emits 0 On_error "Channel closed by server"].

(** ** Calls that wait *)

(** Every call that is pending has its [onReady] listener registered. *)
Definition pending_listen (w : world) : Prop :=
  forall k, nth_error (calls w) k = Some Pending -> In k (ready_listeners w).

(** Three calls of [channel()] before the machine is connected. *)
Definition three_callers : list event :=
  [Call_channel; Call_channel; Connect_resolved; Call_channel].

(** ** Before the first call of [channel()] *)

Definition close_action (a : action) : Prop :=
  a = A_fsm_close \/ a = A_emit_close \/ exists s, a = A_transition s St_close.

(** A machine that was not opened: it is where it started or in [close], its
    memory is empty, nothing is in flight, no handle exists, and all it ever
    did was to close. *)
Definition asleep (w : world) : Prop :=
  (w_state w = St_uninitialized \/ w_state w = St_close) /\
  w_memory w = initial_memory /\ m_channel w = None /\ m_started w = false /\
  pending_connects w = 0 /\ pending_channels w = [] /\ timers w = [] /\
  connections w = [] /\ channels w = [] /\
  Forall close_action (w_log w).

(** ** The channel that [ready] carries *)

(** The channel that was created last. *)
Definition newest (w : world) : option nat :=
  match List.length (channels w) with
  | O => None
  | S n => Some n
  end.

(** [ch] is a channel that was created. *)
Definition existing (w : world) (ch : option nat) : Prop :=
  exists c, ch = Some c /\ c < List.length (channels w).

(** The memory of the machine holds the channel created last; what [ready]
    carried, what the facade has in its cache and what a call of [channel()]
    was resolved with are channels that were created. *)
Definition known (w : world) : Prop :=
  mem_channel (w_memory w) = newest w /\
  (forall ch, In (A_emit_ready ch) (w_log w) -> existing w ch) /\
  (forall c, m_channel w = Some c -> c < List.length (channels w)) /\
  (forall ch, In (Resolved ch) (calls w) -> existing w ch).

(** Steps that create no channel and keep the one in memory. *)
Record steady (w w' : world) : Prop := {
  s_channels : List.length (channels w') = List.length (channels w);
  s_memory : mem_channel (w_memory w') = mem_channel (w_memory w);
  s_known : known w -> known w'
}.

(** The channel of a first attempt fails while its exchange is being
    declared; the second attempt has its channel when the broker answers
    the declaration made on the first. *)
Definition late_answer : list event :=
  [Call_channel; Connect_resolved; CreateChannel_resolved 0;
   Channel_emits 0 On_error "Channel closed by server";
   Advance 200; Connect_resolved; CreateChannel_resolved 1;
   Declare_resolved 0 0; Declare_resolved 0 0].

(** ** A chain that has ended *)

(** [a] is a declaration made on channel [c]. *)
Definition declares_on (c : nat) (a : action) : Prop :=
  match a with
  | A_assertExchange c' _ | A_assertQueue c' _ | A_bindQueue c' _ => c' = c
  | _ => False
  end.

(** The promise of [assertTopology] is settled. *)
Definition finished (t : topology) : Prop := t = T_resolved \/ t = T_rejected.

(** Steps that leave the chain of channel [c] where it is and declare
    nothing on [c]. *)
Record apart (c : nat) (w w' : world) : Prop := {
  ap_topology : forall t, nth_error (topologies w) c = Some t ->
                          nth_error (topologies w') c = Some t;
  ap_log : forall a, declares_on c a -> In a (w_log w') -> In a (w_log w)
}.

(** The broker refuses the exchange. *)
Definition refused : list event :=
  [Call_channel; Connect_resolved; CreateChannel_resolved 0; Declare_rejected 0 0].

(** What may follow: a late answer of the broker, the loss of the channel,
    and a second attempt. *)
Definition second_attempt : list event :=
  [Declare_resolved 0 0; Channel_emits 0 On_close "Channel closed";
   Advance 200; Connect_resolved; CreateChannel_resolved 1;
   Declare_resolved 1 0].

(** * The connection machine of [src/unnamed/part_000]

    The state machine of the connection alone: no channel, no topology, and
    a [closed] flag of its own.  [Amqp.connect], the backoff, the handles and
    Machina are those of the machine above.  What it writes through [Logger]
    is left out. *)

Module ConnectionFsm.

Inductive fsm_state :=
| St_uninitialized
| St_idle
| St_connect
| St_connected
| St_disconnect
| St_reconnect.

Inductive input :=
| In_open
| In_error
| In_connection_error
| In_connection_close.

(** [this.memory]: an absent key is [None]. *)
Record memory := {
  mem_connection : option nat;
  mem_reconnects : option nat
}.

Inductive action :=
| A_connect (c : connection_object)
| A_connection_on (h : nat) (ev : emitted)
| A_connection_removeAllListeners (h : nat)
| A_connection_close (h : nat)
| A_emit_connected (h : nat)
| A_emit_disconnected
| A_emit_reconnect_waiting (reconnects : nat) (wait_time_ms : Z)
| A_emit_reconnecting (reconnects : nat) (wait_time_ms : Z)
| A_setTimeout (ms : Z)
| A_transition (from to : fsm_state).

Record world := {
  w_config : config_object;
  w_state : fsm_state;
  w_memory : memory;
  closed : bool;
  connections : list connection_handle;
  pending_connects : nat;
  timers : list timer;
  now : Z;
  w_log : list action
}.

Definition set_state (x : fsm_state) (w : world) : world :=
  {| w_config := w_config w; w_state := x; w_memory := w_memory w;
     closed := closed w; connections := connections w;
     pending_connects := pending_connects w; timers := timers w; now := now w;
     w_log := w_log w |}.

Definition set_memory (x : memory) (w : world) : world :=
  {| w_config := w_config w; w_state := w_state w; w_memory := x;
     closed := closed w; connections := connections w;
     pending_connects := pending_connects w; timers := timers w; now := now w;
     w_log := w_log w |}.

Definition set_closed (x : bool) (w : world) : world :=
  {| w_config := w_config w; w_state := w_state w; w_memory := w_memory w;
     closed := x; connections := connections w;
     pending_connects := pending_connects w; timers := timers w; now := now w;
     w_log := w_log w |}.

Definition set_connections (x : list connection_handle) (w : world) : world :=
  {| w_config := w_config w; w_state := w_state w; w_memory := w_memory w;
     closed := closed w; connections := x;
     pending_connects := pending_connects w; timers := timers w; now := now w;
     w_log := w_log w |}.

Definition set_pending_connects (x : nat) (w : world) : world :=
  {| w_config := w_config w; w_state := w_state w; w_memory := w_memory w;
     closed := closed w; connections := connections w;
     pending_connects := x; timers := timers w; now := now w;
     w_log := w_log w |}.

Definition set_timers (x : list timer) (w : world) : world :=
  {| w_config := w_config w; w_state := w_state w; w_memory := w_memory w;
     closed := closed w; connections := connections w;
     pending_connects := pending_connects w; timers := x; now := now w;
     w_log := w_log w |}.

Definition set_now (x : Z) (w : world) : world :=
  {| w_config := w_config w; w_state := w_state w; w_memory := w_memory w;
     closed := closed w; connections := connections w;
     pending_connects := pending_connects w; timers := timers w; now := x;
     w_log := w_log w |}.

Definition set_log (x : list action) (w : world) : world :=
  {| w_config := w_config w; w_state := w_state w; w_memory := w_memory w;
     closed := closed w; connections := connections w;
     pending_connects := pending_connects w; timers := timers w; now := now w;
     w_log := x |}.

Definition log (a : action) (w : world) : world :=
  set_log (a :: w_log w) w.

Definition setTimeout (cb : timer_callback) (ms : Z) (w : world) : world :=
  log (A_setTimeout ms)
      (set_timers (timers w ++ [{| due := (now w + ms)%Z; callback := cb |}]) w).

(** [connection.on(ev, ...)] *)
Definition add_listener (ev : emitted) (c : connection_handle) : connection_handle :=
  {| conn_open := conn_open c; conn_listeners := conn_listeners c ++ [ev] |}.

Definition connection_on (h : nat) (ev : emitted) (w : world) : world :=
  log (A_connection_on h ev)
      (set_connections (update_nth h (add_listener ev) (connections w)) w).

(** [(this.memory.reconnects || 0) + 1] *)
Definition next_reconnects (m : memory) : nat :=
  match mem_reconnects m with
  | Some n => n + 1
  | None => 0 + 1
  end.

Definition state_eqb (a b : fsm_state) : bool :=
  match a, b with
  | St_uninitialized, St_uninitialized
  | St_idle, St_idle
  | St_connect, St_connect
  | St_connected, St_connected
  | St_disconnect, St_disconnect
  | St_reconnect, St_reconnect => true
  | _, _ => false
  end.

(** Machina's [transition], over the [_onEnter] it is to run: nothing happens
    when the target is the current state. *)
Definition transition_with (enter : fsm_state -> world -> world)
           (s : fsm_state) (w : world) : world :=
  if state_eqb s (w_state w) then w
  else enter s (log (A_transition (w_state w) s) (set_state s w)).

(** The [_onEnter] of the states that make no transition themselves.  In
    [connect], [connection.protocol] of a configuration without [connection]
    throws, and nothing is asked of the transport client; in [connected],
    [this.memory.connection.on] throws when the memory has no connection,
    before anything is emitted. *)
Definition onEnter_leaf (s : fsm_state) (w : world) : world :=
  match s with
  | St_connect =>
      match connection (w_config w) with
      | Some c => log (A_connect c) (set_pending_connects (S (pending_connects w)) w)
      | None => w
      end
  | St_connected =>
      match mem_connection (w_memory w) with
      | Some h =>
          let w := connection_on h On_error w in
          let w := connection_on h On_close w in
          log (A_emit_connected h) w
      | None => w
      end
  | St_reconnect =>
      let reconnects := next_reconnects (w_memory w) in
      let waitTimeMs := Backoff.waitTimeMs reconnects in
      let w := log (A_emit_reconnect_waiting reconnects waitTimeMs) w in
      setTimeout (Cb_reconnect reconnects) waitTimeMs w
  | _ => w
  end.

(** The [_onEnter] of each state; the one of [disconnect] ends with
    [if (!this.closed) this.transition('reconnect')]. *)
Definition onEnter (s : fsm_state) (w : world) : world :=
  match s with
  | St_disconnect =>
      let w :=
        match mem_connection (w_memory w) with
        | Some h =>
            let w := log (A_connection_removeAllListeners h)
                         (set_connections
                            (update_nth h clear_connection (connections w)) w) in
            log (A_connection_close h)
                (set_connections (update_nth h close_connection (connections w)) w)
        | None => w
        end in
      let w := log A_emit_disconnected w in
      if closed w then w else transition_with onEnter_leaf St_reconnect w
  | _ => onEnter_leaf s w
  end.

Definition transition (s : fsm_state) (w : world) : world :=
  transition_with onEnter s w.

(** The handlers of the states other than [uninitialized]; an input without a
    handler in the current state is dropped.  The input that
    [deferAndTransition('disconnect')] puts aside is replayed in [disconnect],
    which has no handler for it. *)
Definition dispatch (i : input) (w : world) : world :=
  match w_state w, i with
  | St_idle, In_open => transition St_connect w
  | St_connect, In_error => transition St_disconnect w
  | St_connected, In_connection_error => transition St_disconnect w
  | St_connected, In_connection_close => transition St_disconnect w
  | _, _ => w
  end.

(** [this.handle]: in [uninitialized] the catch-all handler does
    [deferAndTransition('idle')], and the deferred input is replayed once
    [idle] is entered. *)
Definition handle (i : input) (w : world) : world :=
  match w_state w with
  | St_uninitialized => dispatch i (transition St_idle w)
  | _ => dispatch i w
  end.

Definition fsm_open (w : world) : world :=
  handle In_open w.

Definition fsm_close (w : world) : world :=
  transition St_disconnect (set_closed true w).

(** [Amqp.connect(...)] is resolved with a new connection. *)
Definition connect_resolved (w : world) : world :=
  let h := List.length (connections w) in
  let w := set_connections
             (connections w ++ [{| conn_open := true; conn_listeners := [] |}]) w in
  let w := set_memory {| mem_connection := Some h; mem_reconnects := Some 0 |} w in
  transition St_connected w.

(** The callback of the timer of [reconnect]. *)
Definition run_timer (t : timer) (w : world) : world :=
  match callback t with
  | Cb_reconnect reconnects =>
      let w := log (A_emit_reconnecting reconnects (Backoff.waitTimeMs reconnects)) w in
      let w := set_memory {| mem_connection := mem_connection (w_memory w);
                             mem_reconnects := Some reconnects |} w in
      transition St_connect w
  | Cb_channel_timeout _ => w
  end.

Definition advance (ms : Z) (w : world) : world :=
  let t := (now w + Z.max 0 ms)%Z in
  let ready := sort_by_due (filter (is_due t) (timers w)) in
  let rest := filter (fun tm => negb (is_due t tm)) (timers w) in
  fold_left (fun w tm => run_timer tm w) ready (set_timers rest (set_now t w)).

(** The listeners of [connected._onEnter]. *)
Definition connection_listener (ev : emitted) : input :=
  match ev with
  | On_error => In_connection_error
  | On_close => In_connection_close
  end.

Definition connection_emits (h : nat) (ev : emitted) (w : world) : world :=
  match nth_error (connections w) h with
  | Some c =>
      let w := set_connections
                 (update_nth h (after_emitting_connection ev) (connections w)) w in
      fold_left (fun w l => if emitted_eqb l ev
                            then handle (connection_listener ev) w else w)
                (conn_listeners c) w
  | None => w
  end.

(** [new AmqpConnectionFsm(config)] *)
Definition AmqpConnectionFsm (config : config_object) : world :=
  {| w_config := config;
     w_state := St_uninitialized;
     w_memory := {| mem_connection := None; mem_reconnects := None |};
     closed := false;
     connections := [];
     pending_connects := 0;
     timers := [];
     now := 0;
     w_log := [] |}.

Inductive event :=
| Call_open
| Call_close
| Connect_resolved
| Connect_rejected
| Connection_emits (h : nat) (ev : emitted)
| Advance (ms : Z).

Definition step (w : world) (e : event) : world :=
  match e with
  | Call_open => fsm_open w
  | Call_close => fsm_close w
  | Connect_resolved =>
      match pending_connects w with
      | O => w
      | S n => connect_resolved (set_pending_connects n w)
      end
  | Connect_rejected =>
      match pending_connects w with
      | O => w
      | S n => handle In_error (set_pending_connects n w)
      end
  | Connection_emits h ev => connection_emits h ev w
  | Advance ms => advance ms w
  end.

Definition run (evs : list event) (w : world) : world :=
  fold_left step evs w.

(** ** Predicates used in the statements *)

Definition open_connections (w : world) : nat :=
  List.length (filter conn_open (connections w)).

Definition is_connect (a : action) : bool :=
  match a with
  | A_connect _ => true
  | _ => false
  end.

Definition is_setTimeout (a : action) : bool :=
  match a with
  | A_setTimeout _ => true
  | _ => false
  end.

Definition connects (w : world) : nat :=
  List.length (filter is_connect (w_log w)).

Definition timeouts (w : world) : nat :=
  List.length (filter is_setTimeout (w_log w)).

(** A connection that is shut and has no listener. *)
Definition at_rest (c : connection_handle) : Prop :=
  conn_open c = false /\ conn_listeners c = [].

(** The connection in use: the one in memory, while the machine is in
    [connected]. *)
Definition current (w : world) : option nat :=
  match w_state w with
  | St_connected => mem_connection (w_memory w)
  | _ => None
  end.

Definition others_at_rest (keep : option nat) (l : list connection_handle) : Prop :=
  forall h c, nth_error l h = Some c -> keep = Some h \/ at_rest c.

(** At most one connect or backoff is under way, none while the machine is
    connected or was not opened; the connections other than the one in use
    are at rest; the machine stays in [disconnect] only when closed. *)
Definition settled (w : world) : Prop :=
  pending_connects w + List.length (timers w) <= 1 /\
  (w_state w = St_uninitialized \/ w_state w = St_idle \/ w_state w = St_connected ->
   pending_connects w = 0 /\ timers w = []) /\
  others_at_rest (current w) (connections w) /\
  (w_state w = St_disconnect -> closed w = true).

(** A closed machine has left the states it was created in. *)
Definition consistent (w : world) : Prop :=
  settled w /\
  (closed w = true -> w_state w <> St_uninitialized /\ w_state w <> St_idle).

(** What a step of a closed machine keeps: the flag, the number of timers
    set, and the number of connects made or still to be made by a timer. *)
Record winding_down (w w' : world) : Prop := {
  wd_closed : closed w' = true;
  wd_timeouts : timeouts w' = timeouts w;
  wd_connects : connects w' + List.length (timers w') <= connects w + List.length (timers w)
}.

(** [close()] during the backoff that follows a failed connect. *)
Definition closed_in_backoff : list event :=
  [Call_open; Connect_rejected; Call_close].

End ConnectionFsm.
(** * Properties *)

(** ** Lists *)

Lemma fold_left_invariant {A B} (P : A -> Prop) (f : A -> B -> A) (l : list B) :
  forall a, P a -> (forall a x, P a -> P (f a x)) -> P (fold_left f l a).
Proof.
  induction l as [|x l IH]; intros a Ha Hf; simpl.
  - exact Ha.
  - apply IH; auto.
Qed.

Lemma map_update_nth {A B} (g : A -> B) (f : A -> A) :
  (forall x, g (f x) = g x) ->
  forall l n, map g (update_nth n f l) = map g l.
Proof.
  intros Hgf l; induction l as [|x l IH]; intros [|n]; simpl; try reflexivity.
  - now rewrite Hgf.
  - now rewrite IH.
Qed.

Lemma length_update_nth {A} (f : A -> A) :
  forall l n, List.length (update_nth n f l) = List.length l.
Proof.
  induction l as [|x l IH]; intros [|n]; simpl; auto.
Qed.

Lemma nth_error_update_nth {A} (f : A -> A) :
  forall l n m,
    nth_error (update_nth n f l) m =
    if Nat.eqb n m then option_map f (nth_error l m) else nth_error l m.
Proof.
  induction l as [|x l IH]; intros [|n] [|m]; simpl; auto.
  now destruct (Nat.eqb n m).
Qed.

Lemma grows_trans {A} (P : A -> Prop) (l1 l2 l3 : list A) :
  grows P l1 l2 -> grows P l2 l3 -> grows P l1 l3.
Proof.
  intros H12 H23; induction H23; auto using grows_cons.
Qed.

Lemma grows_weaken {A} (P Q : A -> Prop) (l l' : list A) :
  (forall a, P a -> Q a) -> grows P l l' -> grows Q l l'.
Proof.
  intros HPQ H; induction H; constructor; auto.
Qed.

Lemma grows_app {A} (P : A -> Prop) (l d : list A) :
  Forall P d -> grows P l (d ++ l).
Proof.
  induction 1; simpl; constructor; auto.
Qed.

Lemma grows_split {A} (P : A -> Prop) (l l' : list A) :
  grows P l l' -> exists d, l' = d ++ l /\ Forall P d.
Proof.
  induction 1 as [|a l' Ha _ [d [-> Hd]]].
  - exists []; auto.
  - exists (a :: d); auto.
Qed.

Lemma grows_incl {A} (P : A -> Prop) (l l' : list A) :
  grows P l l' -> incl l l'.
Proof.
  induction 1; [apply incl_refl | now apply incl_tl].
Qed.

Lemma appended_refl {A} (P : A -> Prop) (l : list A) : appended P l l.
Proof. exists []; split; [now rewrite app_nil_r | constructor]. Qed.

Lemma appended_one {A} (P : A -> Prop) (l : list A) (x : A) :
  P x -> appended P l (l ++ [x]).
Proof. intros Hx; exists [x]; auto. Qed.

Lemma appended_trans {A} (P : A -> Prop) (l1 l2 l3 : list A) :
  appended P l1 l2 -> appended P l2 l3 -> appended P l1 l3.
Proof.
  intros [d1 [-> H1]] [d2 [-> H2]]; exists (d1 ++ d2); split.
  - now rewrite app_assoc.
  - apply Forall_app; auto.
Qed.


Lemma quiet_refl w : quiet w w.
Proof.
  constructor; auto using grows_refl, appended_refl.
Qed.

Lemma quiet_trans w1 w2 w3 : quiet w1 w2 -> quiet w2 w3 -> quiet w1 w3.
Proof.
  intros [] []; constructor; try congruence; eauto using grows_trans, appended_trans.
Qed.

Ltac quiet_step :=
  constructor; simpl;
  auto using grows_refl, appended_refl;
  try (apply grows_cons; [reflexivity | apply grows_refl]).

Lemma quiet_log a w : other a -> quiet w (log a w).
Proof.
  intros Ha; constructor; simpl; auto using grows_refl, appended_refl, grows_cons.
Qed.

Lemma quiet_set_m_channel x w : quiet w (set_m_channel x w).
Proof. quiet_step. Qed.

Lemma quiet_set_m_closed x w : quiet w (set_m_closed x w).
Proof. quiet_step. Qed.

Lemma quiet_set_close_calls x w : quiet w (set_close_calls x w).
Proof. quiet_step. Qed.

Lemma quiet_set_close_listeners x w : quiet w (set_close_listeners x w).
Proof. quiet_step. Qed.

Lemma quiet_set_pending_connects x w : quiet w (set_pending_connects x w).
Proof. quiet_step. Qed.

Lemma quiet_set_pending_channels x w : quiet w (set_pending_channels x w).
Proof. quiet_step. Qed.

Lemma quiet_set_connections x w : quiet w (set_connections x w).
Proof. quiet_step. Qed.

Lemma quiet_set_state s w : s <> St_error -> quiet w (set_state s w).
Proof. intros Hs; quiet_step. intros; contradiction. Qed.

(** Writing a channel handle without touching its [assertTopology]. *)
Lemma quiet_update_channel f c w :
  (forall ch, chan_topology (f ch) = chan_topology ch) ->
  quiet w (set_channels (update_nth c f (channels w)) w).
Proof.
  intros Hf; quiet_step.
  - unfold topologies; simpl. now apply map_update_nth.
  - apply length_update_nth.
Qed.

Lemma quiet_disconnect w : quiet w (disconnect w).
Proof.
  unfold disconnect; destruct (m_channel w).
  - eapply quiet_trans; [apply quiet_set_m_channel | now apply quiet_log].
  - apply quiet_refl.
Qed.

Lemma quiet_setTimeout n ms w : quiet w (setTimeout (Cb_reconnect n) ms w).
Proof.
  unfold setTimeout; quiet_step.
  apply appended_one; now exists n.
Qed.

Lemma quiet_emit_close w : quiet w (emit_close w).
Proof.
  unfold emit_close.
  apply fold_left_invariant.
  - eapply quiet_trans; [now apply (quiet_log A_emit_close)|].
    eapply quiet_trans; [apply quiet_set_m_closed|].
    eapply quiet_trans; [apply quiet_disconnect|].
    apply quiet_set_close_listeners.
  - intros a k Ha; eapply quiet_trans; [exact Ha | apply quiet_set_close_calls].
Qed.

Lemma quiet_emit_reconnect n ms w : quiet w (emit_reconnect n ms w).
Proof.
  unfold emit_reconnect.
  eapply quiet_trans; [now apply (quiet_log (A_emit_reconnect n ms)) | apply quiet_disconnect].
Qed.

Lemma quiet_emit_error m w : quiet w (emit_error m w).
Proof.
  unfold emit_error.
  eapply quiet_trans; [now apply (quiet_log (A_emit_error m)) | apply quiet_disconnect].
Qed.

Lemma quiet_cleanHandlers w : quiet w (cleanHandlers w).
Proof.
  unfold cleanHandlers.
  set (w1 := match mem_connection (w_memory w) with Some _ => _ | None => _ end).
  assert (H1 : quiet w w1).
  { subst w1; destruct (mem_connection (w_memory w)).
    - eapply quiet_trans; [apply quiet_set_connections | now apply quiet_log].
    - apply quiet_refl. }
  destruct (mem_channel (w_memory w1)); [|exact H1].
  eapply quiet_trans; [exact H1|].
  eapply quiet_trans;
    [now apply (quiet_update_channel clear_channel) | now apply quiet_log].
Qed.

Lemma quiet_onEnter s w : s <> St_connected -> quiet w (onEnter s w).
Proof.
  intros Hs; destruct s; simpl; try contradiction; try apply quiet_refl.
  - eapply quiet_trans; [apply quiet_set_pending_connects | now apply quiet_log].
  - destruct (mem_connection (w_memory w)); [|apply quiet_refl].
    eapply quiet_trans; [apply quiet_set_pending_channels | now apply quiet_log].
  - eapply quiet_trans; [apply quiet_emit_reconnect | apply quiet_setTimeout].
  - eapply quiet_trans; [apply quiet_cleanHandlers | apply quiet_emit_error].
  - eapply quiet_trans; [apply quiet_cleanHandlers|].
    eapply quiet_trans; [|apply quiet_emit_close].
    destruct (mem_connection (w_memory (cleanHandlers w))); [|apply quiet_refl].
    eapply quiet_trans; [apply quiet_set_connections | now apply quiet_log].
Qed.

Lemma quiet_transition s w :
  s <> St_connected -> s <> St_error -> quiet w (transition s w).
Proof.
  intros Hc He; unfold transition.
  destruct (state_eqb s (w_state w)); [apply quiet_refl|].
  eapply quiet_trans; [now apply (quiet_set_state s)|].
  eapply quiet_trans; [now apply (quiet_log (A_transition (w_state w) s))|].
  now apply quiet_onEnter.
Qed.

Lemma quiet_dispatch i w : quiet w (dispatch i w).
Proof.
  unfold dispatch.
  destruct (w_state w), i; try apply quiet_refl;
    try (apply quiet_transition; discriminate).
  destruct (Precondition.test message);
    [apply quiet_emit_error | apply quiet_transition; discriminate].
Qed.

Lemma quiet_handle i w : quiet w (handle i w).
Proof.
  unfold handle.
  destruct (w_state w); try apply quiet_dispatch.
  eapply quiet_trans;
    [apply (quiet_transition St_idle); discriminate | apply quiet_dispatch].
Qed.

Lemma quiet_fsm_close w : quiet w (fsm_close w).
Proof.
  unfold fsm_close.
  eapply quiet_trans;
    [now apply (quiet_log A_fsm_close) | apply (quiet_transition St_close); discriminate].
Qed.

(** ** Calm steps *)

Lemma calm_refl w : calm w w.
Proof.
  constructor; auto using grows_refl, appended_refl.
Qed.

Lemma calm_trans w1 w2 w3 : calm w1 w2 -> calm w2 w3 -> calm w1 w3.
Proof.
  intros [] []; constructor; try congruence; eauto using grows_trans, appended_trans.
Qed.

Lemma quiet_calm w w' : quiet w w' -> calm w w'.
Proof.
  intros []; constructor; auto; try congruence.
  eapply grows_weaken; [|eassumption]. intros a Ha; now left.
Qed.

Lemma calm_log a w : declaring a -> calm w (log a w).
Proof.
  intros Ha; constructor; simpl; auto using grows_refl, appended_refl, grows_cons.
Qed.

Lemma issue_declaring cfg c ph : Forall declaring (issue cfg c ph).
Proof.
  destruct ph; simpl; apply Forall_forall; intros a Ha;
    apply in_map_iff in Ha; destruct Ha as [x [<- _]]; now right.
Qed.

Lemma calm_log_all l w : Forall declaring l -> calm w (log_all l w).
Proof.
  intros Hl; constructor; simpl; auto using appended_refl.
  apply grows_app, Forall_rev, Hl.
Qed.

Lemma calm_set_channels x w : calm w (set_channels x w).
Proof.
  constructor; simpl; auto using grows_refl, appended_refl.
Qed.

Lemma calm_set_topology c t w : calm w (set_topology c t w).
Proof. apply calm_set_channels. Qed.

Lemma calm_assign_channel c w : calm w (set_memory (assign_channel c (w_memory w)) w).
Proof.
  constructor; simpl; auto using grows_refl, appended_refl.
Qed.

Ltac case_match :=
  match goal with
  | |- context [match ?x with _ => _ end] => destruct x eqn:?
  end.

Lemma outcome_after w w1 w2 : calm w w1 -> outcome calm w1 w2 -> outcome calm w w2.
Proof.
  intros H1 [H2 | w' H2 ->].
  - apply out_calm; eauto using calm_trans.
  - eapply out_ready; [eapply calm_trans; eassumption | reflexivity].
Qed.

Lemma outcome_transition_connected w : outcome calm w (transition St_connected w).
Proof.
  unfold transition.
  destruct (state_eqb St_connected (w_state w)).
  - apply out_calm, calm_refl.
  - simpl. eapply out_ready; [|reflexivity].
    apply quiet_calm.
    eapply quiet_trans; [now apply (quiet_set_state St_connected)|].
    now apply quiet_log.
Qed.

Lemma outcome_topology_resolved c w : outcome calm w (topology_resolved c w).
Proof.
  unfold topology_resolved.
  eapply outcome_after; [apply calm_set_topology | apply outcome_transition_connected].
Qed.

Lemma outcome_bindQueues c w : outcome calm w (bindQueues c w).
Proof.
  unfold bindQueues.
  eapply outcome_after; [apply calm_log_all, issue_declaring|].
  case_match.
  - apply outcome_topology_resolved.
  - apply out_calm, calm_set_topology.
Qed.

Lemma outcome_assertQueues c w : outcome calm w (assertQueues c w).
Proof.
  unfold assertQueues.
  eapply outcome_after; [apply calm_log_all, issue_declaring|].
  case_match.
  - apply outcome_bindQueues.
  - apply out_calm, calm_set_topology.
Qed.

Lemma outcome_assertExchanges c w : outcome calm w (assertExchanges c w).
Proof.
  unfold assertExchanges.
  eapply outcome_after; [apply calm_log_all, issue_declaring|].
  case_match.
  - apply outcome_assertQueues.
  - apply out_calm, calm_set_topology.
Qed.

Lemma outcome_declare_resolved c i w : outcome calm w (declare_resolved c i w).
Proof.
  unfold declare_resolved.
  destruct (nth_error (channels w) c) as [ch|]; [|apply out_calm, calm_refl].
  destruct (chan_topology ch) as [ph pending| |]; try apply out_calm, calm_refl.
  destruct (mem i pending); [|apply out_calm, calm_refl].
  eapply outcome_after; [apply (calm_log (A_settled c ph i)); (red; auto)|].
  destruct (remove_first i pending).
  - destruct ph; simpl;
      [apply outcome_assertQueues | apply outcome_bindQueues | apply outcome_topology_resolved].
  - apply out_calm, calm_set_topology.
Qed.

Lemma calm_declare_rejected c i w : calm w (declare_rejected c i w).
Proof.
  unfold declare_rejected.
  destruct (nth_error (channels w) c) as [ch|]; [|apply calm_refl].
  destruct (chan_topology ch) as [ph pending| |]; try apply calm_refl.
  destruct (mem i pending); [apply calm_set_topology | apply calm_refl].
Qed.

Lemma outcome_createChannel_resolved h w : outcome calm w (createChannel_resolved h w).
Proof.
  unfold createChannel_resolved, assertTopology.
  eapply outcome_after; [|apply outcome_assertExchanges].
  eapply calm_trans; [|apply calm_log; red; auto].
  eapply calm_trans; [|apply calm_log; red; auto].
  eapply calm_trans; [|apply calm_assign_channel].
  eapply calm_trans; [|apply calm_log; red; auto].
  apply calm_set_channels.
Qed.

Lemma quiet_connection_emits h ev w : quiet w (connection_emits h ev w).
Proof.
  unfold connection_emits.
  destruct (nth_error (connections w) h) as [c|]; [|apply quiet_refl].
  apply fold_left_invariant.
  - apply quiet_set_connections.
  - intros a l Ha. destruct (emitted_eqb l ev); [|exact Ha].
    eapply quiet_trans; [exact Ha | apply quiet_handle].
Qed.

Lemma quiet_channel_emits c ev m w : quiet w (channel_emits c ev m w).
Proof.
  unfold channel_emits.
  destruct (nth_error (channels w) c) as [ch|]; [|apply quiet_refl].
  apply fold_left_invariant.
  - apply (quiet_update_channel (after_emitting_channel ev)).
    now destruct ev.
  - intros a l Ha. destruct (emitted_eqb l ev); [|exact Ha].
    eapply quiet_trans; [exact Ha | apply quiet_handle].
Qed.

Lemma quiet_AmqpManager_close w : quiet w (AmqpManager_close w).
Proof.
  unfold AmqpManager_close.
  eapply quiet_trans; [apply quiet_set_close_calls|].
  eapply quiet_trans; [apply quiet_fsm_close | apply quiet_set_close_listeners].
Qed.

(** A transport connect that succeeds: the counter is written, a handle is
    added, and [assert] is entered. *)
Lemma connect_resolved_shape w :
  exists w1, connect_resolved w = transition St_assert w1 /\
             mem_reconnects (w_memory w1) = Some 0 /\
             w_config w1 = w_config w /\ w_state w1 = w_state w /\
             m_started w1 = m_started w /\ calls w1 = calls w /\
             ready_listeners w1 = ready_listeners w /\ now w1 = now w /\
             timers w1 = timers w /\ topologies w1 = topologies w /\
             grows other (w_log w) (w_log w1).
Proof.
  eexists; split; [reflexivity|]; simpl; repeat split.
  apply grows_cons; [reflexivity | apply grows_refl].
Qed.

Lemma loose_refl w : loose w w.
Proof.
  constructor; auto using grows_refl, appended_refl.
Qed.

Lemma loose_trans w1 w2 w3 : loose w1 w2 -> loose w2 w3 -> loose w1 w3.
Proof.
  intros [] []; constructor; try congruence; eauto using grows_trans, appended_trans.
Qed.

Lemma calm_loose w w' : calm w w' -> loose w w'.
Proof.
  intros []; constructor; auto.
Qed.

Lemma outcome_weaken (R R' : world -> world -> Prop) w w' :
  (forall a b, R a b -> R' a b) -> outcome R w w' -> outcome R' w w'.
Proof.
  intros HR [H | w1 H ->]; [apply out_calm | eapply out_ready]; eauto.
Qed.

Lemma loose_connect_resolved w : loose w (connect_resolved w).
Proof.
  unfold connect_resolved.
  eapply loose_trans; [|apply calm_loose, quiet_calm, quiet_transition; discriminate].
  constructor; simpl; auto using appended_refl; try discriminate.
  apply grows_cons; [now left | apply grows_refl].
Qed.

(** Every event but a call of [channel()], the passing of time and a
    transport connect that succeeds is a calm step that may end with
    [ready]. *)
Lemma step_outcome w e :
  match e with
  | Call_channel | Advance _ | Connect_resolved => True
  | _ => outcome calm w (step w e)
  end.
Proof.
  destruct e; simpl; auto.
  - apply out_calm, quiet_calm, quiet_AmqpManager_close.
  - destruct (pending_connects w); [apply out_calm, calm_refl|].
    apply out_calm, quiet_calm.
    eapply quiet_trans; [apply quiet_set_pending_connects | apply quiet_handle].
  - destruct (mem h (pending_channels w)); [|apply out_calm, calm_refl].
    eapply outcome_after; [|apply outcome_createChannel_resolved].
    apply quiet_calm, quiet_set_pending_channels.
  - destruct (mem h (pending_channels w)); [|apply out_calm, calm_refl].
    apply out_calm, quiet_calm.
    eapply quiet_trans; [apply quiet_set_pending_channels | apply quiet_handle].
  - apply outcome_declare_resolved.
  - apply out_calm, calm_declare_rejected.
  - apply out_calm, quiet_calm, quiet_connection_emits.
  - apply out_calm, quiet_calm, quiet_channel_emits.
Qed.

Lemma step_outcome_loose w e :
  match e with
  | Call_channel | Advance _ => True
  | _ => outcome loose w (step w e)
  end.
Proof.
  pose proof (step_outcome w e) as H.
  destruct e; auto; try (eapply outcome_weaken; [apply calm_loose | exact H]).
  simpl. destruct (pending_connects w); [apply out_calm, loose_refl|].
  apply out_calm.
  eapply loose_trans; [|apply loose_connect_resolved].
  apply calm_loose, quiet_calm, quiet_set_pending_connects.
Qed.

(** ** [ready] *)

Lemma set_calls_frame w : w = set_calls (calls w) w.
Proof. now destruct w. Qed.

Lemma settle_call_calls k st w j :
  nth_error (calls (settle_call k st w)) j =
  match nth_error (calls w) j with
  | Some Pending => if Nat.eqb k j then Some st else Some Pending
  | o => o
  end.
Proof.
  unfold settle_call.
  destruct (nth_error (calls w) k) as [[]|] eqn:Hk; simpl.
  - rewrite nth_error_update_nth.
    destruct (Nat.eqb k j) eqn:Hkj.
    + apply Nat.eqb_eq in Hkj; subst j. now rewrite Hk.
    + now destruct (nth_error (calls w) j) as [[]|].
  - destruct (nth_error (calls w) j) as [[]|] eqn:Hj; auto.
    destruct (Nat.eqb k j) eqn:Hkj; auto.
    apply Nat.eqb_eq in Hkj; subst j; congruence.
  - destruct (nth_error (calls w) j) as [[]|] eqn:Hj; auto.
    destruct (Nat.eqb k j) eqn:Hkj; auto.
    apply Nat.eqb_eq in Hkj; subst j; congruence.
  - destruct (nth_error (calls w) j) as [[]|] eqn:Hj; auto.
    destruct (Nat.eqb k j) eqn:Hkj; auto.
    apply Nat.eqb_eq in Hkj; subst j; congruence.
Qed.

Lemma settle_call_frame k st w :
  settle_call k st w = set_calls (calls (settle_call k st w)) w.
Proof.
  unfold settle_call.
  destruct (nth_error (calls w) k) as [[]|]; simpl; auto using set_calls_frame.
Qed.

Lemma settle_all_frame st l :
  forall w,
    let w' := fold_left (fun w k => settle_call k st w) l w in
    w' = set_calls (calls w') w.
Proof.
  induction l as [|k l IH]; intros w; simpl.
  - apply set_calls_frame.
  - rewrite IH at 1. rewrite (settle_call_frame k st w) at 2. reflexivity.
Qed.

Lemma settle_all_calls st l j :
  forall w,
    nth_error (calls (fold_left (fun w k => settle_call k st w) l w)) j =
    match nth_error (calls w) j with
    | Some Pending => if mem j l then Some st else Some Pending
    | o => o
    end.
Proof.
  induction l as [|k l IH]; intros w; simpl.
  - now destruct (nth_error (calls w) j) as [[]|].
  - rewrite IH, settle_call_calls.
    destruct (nth_error (calls w) j) as [[]|]; auto.
    rewrite (Nat.eqb_sym j k).
    destruct (Nat.eqb k j); simpl; auto.
    destruct st; auto. now destruct (mem j l).
Qed.

(** [ready] writes the cache of the facade, empties the list of [onReady]
    listeners and resolves the calls that were pending with one; the state
    machine is as before. *)
Lemma emit_ready_frame w :
  let ch := mem_channel (w_memory w) in
  let w' := emit_ready w in
  w_config w' = w_config w /\ w_state w' = w_state w /\
  w_memory w' = w_memory w /\ m_started w' = m_started w /\
  now w' = now w /\ timers w' = timers w /\ channels w' = channels w /\
  ready_listeners w' = [] /\ m_channel w' = ch /\
  w_log w' = A_manager_connected :: A_emit_ready ch :: w_log w.
Proof.
  unfold emit_ready; simpl.
  rewrite settle_all_frame; simpl. repeat split.
Qed.

Lemma emit_ready_calls w j :
  nth_error (calls (emit_ready w)) j =
  match nth_error (calls w) j with
  | Some Pending =>
      if mem j (ready_listeners w)
      then Some (Resolved (mem_channel (w_memory w))) else Some Pending
  | o => o
  end.
Proof.
  unfold emit_ready. now rewrite settle_all_calls.
Qed.

(** ** Timers *)

Lemma timed_refl w : timed w w.
Proof.
  constructor; auto using grows_refl, appended_refl.
Qed.

Lemma timed_trans w1 w2 w3 : timed w1 w2 -> timed w2 w3 -> timed w1 w3.
Proof.
  intros [] []; constructor; try congruence; eauto using grows_trans, appended_trans.
  intros j.
  destruct (t_calls0 j) as [H1 | [H1 H1']], (t_calls1 j) as [H2 | [H2 H2']].
  - left; congruence.
  - right; split; congruence.
  - right; split; congruence.
  - congruence.
Qed.

Lemma quiet_timed w w' : quiet w w' -> timed w w'.
Proof.
  intros []; constructor; auto.
  intros j; left; congruence.
Qed.

Lemma timed_set_memory m w : timed w (set_memory m w).
Proof.
  constructor; simpl; auto using grows_refl, appended_refl.
Qed.

Lemma timed_settle_call k w : timed w (settle_call k (Rejected Channel_Timeout) w).
Proof.
  constructor; try (rewrite settle_call_frame; simpl; auto using grows_refl, appended_refl).
  intros j. rewrite settle_call_calls.
  destruct (nth_error (calls w) j) as [[]|]; auto.
  destruct (Nat.eqb k j); auto.
Qed.

Lemma timed_run_timer tm w : timed w (run_timer tm w).
Proof.
  unfold run_timer. destruct (callback tm).
  - eapply timed_trans; [apply timed_set_memory|].
    apply quiet_timed, quiet_transition; discriminate.
  - apply timed_settle_call.
Qed.

Lemma timed_run_timers l w : timed w (fold_left (fun w tm => run_timer tm w) l w).
Proof.
  apply fold_left_invariant; [apply timed_refl|].
  intros a tm Ha; eapply timed_trans; [exact Ha | apply timed_run_timer].
Qed.

(** A call whose timeout is not among the timers that run is left alone. *)
Lemma run_timers_other_calls k l :
  (forall tm, In tm l -> callback tm <> Cb_channel_timeout k) ->
  forall w,
    nth_error (calls (fold_left (fun w tm => run_timer tm w) l w)) k =
    nth_error (calls w) k.
Proof.
  induction l as [|tm l IH]; intros Hl w; simpl; auto.
  rewrite IH by (intros; apply Hl; now right).
  unfold run_timer.
  destruct (callback tm) as [n|j] eqn:Hcb.
  - rewrite (q_calls _ _ (quiet_transition St_connect _
               ltac:(discriminate) ltac:(discriminate))).
    reflexivity.
  - rewrite settle_call_calls.
    destruct (nth_error (calls w) k) as [[]|]; auto.
    destruct (Nat.eqb j k) eqn:Hjk; auto.
    apply Nat.eqb_eq in Hjk; subst j.
    exfalso; apply (Hl tm); [now left | exact Hcb].
Qed.

(** A call whose timeout runs is not pending afterwards. *)
Lemma run_timers_settles k l :
  forall w tm,
    In tm l -> callback tm = Cb_channel_timeout k ->
    nth_error (calls (fold_left (fun w tm => run_timer tm w) l w)) k <> Some Pending.
Proof.
  induction l as [|x l IH]; intros w tm Hin Hcb; simpl; [contradiction|].
  destruct Hin as [-> | Hin]; [|eapply IH; eassumption].
  destruct (t_calls _ _ (timed_run_timers l (run_timer tm w)) k) as [-> | [_ ->]];
    [|discriminate].
  unfold run_timer; rewrite Hcb, settle_call_calls.
  destruct (nth_error (calls w) k) as [[]|]; try discriminate.
  now rewrite Nat.eqb_refl.
Qed.

Lemma In_insert_by_due x t l : In x (insert_by_due t l) <-> x = t \/ In x l.
Proof.
  induction l as [|y l IH]; simpl.
  - intuition.
  - destruct (due t <? due y)%Z; simpl; [intuition | rewrite IH; intuition].
Qed.

Lemma In_sort_by_due x l : In x (sort_by_due l) <-> In x l.
Proof.
  unfold sort_by_due.
  assert (H : forall acc, In x (fold_left (fun acc t => insert_by_due t acc) l acc)
                          <-> In x l \/ In x acc).
  { induction l as [|y l IH]; intros acc; simpl; [intuition|].
    rewrite IH, In_insert_by_due; intuition. }
  rewrite H; simpl; intuition.
Qed.

(** Time passing: the clock is set, the timers that are due are taken out
    and run. *)
Lemma advance_shape ms w :
  let t := (now w + Z.max 0 ms)%Z in
  let w0 := set_timers (filter (fun tm => negb (is_due t tm)) (timers w)) (set_now t w) in
  advance ms w =
  fold_left (fun w tm => run_timer tm w) (sort_by_due (filter (is_due t) (timers w))) w0
  /\ timed w0 (advance ms w).
Proof.
  split; [reflexivity | apply timed_run_timers].
Qed.

(** ** [channel()] *)

(** The first call that has to wait opens the state machine. *)
Lemma started_shape w :
  let w1 := if m_started w then w else fsm_open (set_m_started true w) in
  w_config w1 = w_config w /\ w_memory w1 = w_memory w /\
  (w_state w1 = St_error -> w_state w = St_error) /\
  m_started w1 = true /\ calls w1 = calls w /\
  ready_listeners w1 = ready_listeners w /\ now w1 = now w /\
  topologies w1 = topologies w /\
  appended reconnect_timer (timers w) (timers w1) /\
  grows (fun a => kind_of a <> K_ready /\ kind_of a <> K_topology) (w_log w) (w_log w1) /\
  (if m_started w then w_log w1 = w_log w
   else grows other (A_fsm_open :: w_log w) (w_log w1)).
Proof.
  destruct (m_started w) eqn:Hs; simpl.
  - repeat split; auto using grows_refl, appended_refl.
  - unfold fsm_open.
    destruct (quiet_handle In_open (log A_fsm_open (set_m_started true w))).
    simpl in *. repeat split; auto.
    eapply grows_trans with (l2 := A_fsm_open :: w_log w).
    + apply grows_cons; [split; discriminate | apply grows_refl].
    + eapply grows_weaken; [|eassumption].
      intros a Ha; red in Ha; rewrite Ha; split; discriminate.
Qed.

(** ** The configuration object and the states that are reached *)

Lemma step_config w e : w_config (step w e) = w_config w.
Proof.
  pose proof (step_outcome_loose w e) as H.
  destruct e;
    try (destruct H as [H | w1 H ->];
         [apply (l_config _ _ H)
         | destruct (emit_ready_frame w1) as (-> & _); apply (l_config _ _ H)]).
  - simpl; unfold AmqpManager_channel.
    destruct (m_closed w); [reflexivity|].
    destruct (m_channel w); [reflexivity|].
    simpl. apply (started_shape w).
  - simpl. destruct (advance_shape ms w) as [_ Ht].
    now rewrite (t_config _ _ Ht).
Qed.

Lemma emit_ready_machina w : w_machina (emit_ready w) = w_machina w.
Proof.
  unfold emit_ready. now rewrite settle_all_frame.
Qed.

Lemma step_machina w e : w_machina (step w e) = w_machina w.
Proof.
  pose proof (step_outcome_loose w e) as H.
  destruct e;
    try (destruct H as [H | w1 H ->];
         [apply (l_machina _ _ H)
         | rewrite emit_ready_machina; apply (l_machina _ _ H)]).
  - simpl; unfold AmqpManager_channel.
    destruct (m_closed w); [reflexivity|].
    destruct (m_channel w); [reflexivity|].
    simpl. destruct (m_started w); [reflexivity|].
    unfold fsm_open. now rewrite (q_machina _ _ (quiet_handle _ _)).
  - simpl. destruct (advance_shape ms w) as [_ Ht].
    now rewrite (t_machina _ _ Ht).
Qed.

Lemma step_state w e : w_state (step w e) = St_error -> w_state w = St_error.
Proof.
  pose proof (step_outcome_loose w e) as H.
  destruct e;
    try (destruct H as [H | w1 H ->];
         [apply (l_state _ _ H)
         | destruct (emit_ready_frame w1) as (_ & -> & _); apply (l_state _ _ H)]).
  - simpl; unfold AmqpManager_channel.
    destruct (m_closed w); [auto|].
    destruct (m_channel w); [auto|].
    simpl. apply (started_shape w).
  - simpl. destruct (advance_shape ms w) as [_ Ht].
    intros Hs. apply (t_state _ _ Ht) in Hs. exact Hs.
Qed.

Lemma run_cons e evs w : run (e :: evs) w = run evs (step w e).
Proof. reflexivity. Qed.

Lemma run_app evs1 evs2 w : run (evs1 ++ evs2) w = run evs2 (run evs1 w).
Proof. apply fold_left_app. Qed.

Lemma run_snoc evs e w : run (evs ++ [e]) w = step (run evs w) e.
Proof. now rewrite run_app. Qed.

(** An invariant of the steps holds after every sequence of events. *)
Lemma run_invariant (P : world -> Prop) :
  (forall w e, P w -> P (step w e)) ->
  forall evs w, P w -> P (run evs w).
Proof.
  intros Hstep evs; induction evs as [|e evs IH]; intros w Hw; simpl; auto.
Qed.

Lemma run_machina evs w : w_machina (run evs w) = w_machina w.
Proof.
  revert w; induction evs as [|e evs IH]; intros w; simpl; auto.
  now rewrite IH, step_machina.
Qed.

Lemma run_config evs w : w_config (run evs w) = w_config w.
Proof.
  apply (run_invariant (fun w' => w_config w' = w_config w)); auto.
  intros w' e <-; apply step_config.
Qed.

(** No sequence of events brings the machine into the [error] state. *)
Lemma error_state_unreachable config evs :
  w_state (run evs (AmqpManager config)) <> St_error.
Proof.
  apply (run_invariant (fun w => w_state w <> St_error)).
  - intros w e Hw Hs; apply Hw; eapply step_state; eassumption.
  - discriminate.
Qed.

(** * The claims *)

(** ** Backoff *)

Lemma transition_reconnect_timer w :
  w_state w <> St_reconnect ->
  let n := next_reconnects (w_memory w) in
  let w' := transition St_reconnect w in
  timers w' = timers w ++ [{| due := (now w + Backoff.waitTimeMs n)%Z;
                              callback := Cb_reconnect n |}] /\
  hd_error (w_log w') = Some (A_setTimeout (Backoff.waitTimeMs n)) /\
  In (A_emit_reconnect n (Backoff.waitTimeMs n)) (w_log w').
Proof.
  intros Hs; unfold transition.
  destruct (state_eqb St_reconnect (w_state w)) eqn:He.
  { destruct (w_state w); try discriminate; contradiction. }
  simpl. unfold emit_reconnect, disconnect; simpl.
  destruct (m_channel w); simpl; intuition.
Qed.

(** C5.  For every reconnect attempt number N >= 1 the delay before the next
    connect attempt is min(2^N * 100, 60000) ms: it doubles with every
    attempt below the cap, and the cap of one minute is what is waited from
    N = 10 on.  Entering [reconnect] with that attempt number announces this
    delay in the [reconnect] event and gives it to [setTimeout]. *)
Theorem backoff_delay (N : nat) :
  1 <= N ->
  Backoff.waitTimeMs N = Z.min (2 ^ Z.of_nat N * 100) 60000 /\
  (N < 10 -> Backoff.waitTimeMs N = (2 ^ Z.of_nat N * 100)%Z /\
             (Backoff.waitTimeMs N < 60000)%Z) /\
  (S N < 10 -> Backoff.waitTimeMs (S N) = (2 * Backoff.waitTimeMs N)%Z) /\
  (10 <= N -> Backoff.waitTimeMs N = 60000%Z /\ (60000 < 2 ^ Z.of_nat N * 100)%Z) /\
  (forall w,
      w_state w <> St_reconnect -> next_reconnects (w_memory w) = N ->
      let delay := Z.min (2 ^ Z.of_nat N * 100) 60000 in
      let w' := transition St_reconnect w in
      timers w' = timers w ++ [{| due := (now w + delay)%Z; callback := Cb_reconnect N |}] /\
      hd_error (w_log w') = Some (A_setTimeout delay) /\
      In (A_emit_reconnect N delay) (w_log w')).
Proof.
  intros HN.
  assert (Hsmall : forall n, n < 10 -> (2 ^ Z.of_nat n * 100 < 60000)%Z).
  { intros n Hn.
    assert (2 ^ Z.of_nat n <= 2 ^ 9)%Z by (apply Z.pow_le_mono_r; lia).
    change (2 ^ 9)%Z with 512%Z in *. lia. }
  assert (Hbig : forall n, 10 <= n -> (60000 < 2 ^ Z.of_nat n * 100)%Z).
  { intros n Hn.
    assert (2 ^ 10 <= 2 ^ Z.of_nat n)%Z by (apply Z.pow_le_mono_r; lia).
    change (2 ^ 10)%Z with 1024%Z in *. lia. }
  unfold Backoff.waitTimeMs.
  change (60 * 1000)%Z with 60000%Z.
  split; [reflexivity|].
  split.
  { intros Hn; specialize (Hsmall N Hn).
    set (p := (2 ^ Z.of_nat N)%Z) in *. split; lia. }
  split.
  { intros Hn. pose proof (Hsmall (S N) Hn) as H1. pose proof (Hsmall N ltac:(lia)) as H2.
    rewrite Nat2Z.inj_succ, Z.pow_succ_r in * by lia.
    set (p := (2 ^ Z.of_nat N)%Z) in *. lia. }
  split.
  { intros Hn; specialize (Hbig N Hn).
    set (p := (2 ^ Z.of_nat N)%Z) in *. split; lia. }
  intros w Hs <-.
  apply (transition_reconnect_timer w Hs).
Qed.

Lemma backoff_delay_witness :
  Backoff.waitTimeMs 3 = Z.min (2 ^ Z.of_nat 3 * 100) 60000.
Proof.
  exact (proj1 (backoff_delay 3 ltac:(lia))).
Defined.

(** ** The configuration object *)

Lemma has_key_app k p q :
  Defaults.has_key k (p ++ q) = Defaults.has_key k p || Defaults.has_key k q.
Proof.
  induction p as [|[k' v] p IH]; simpl; auto.
  destruct (String.eqb k k'); auto.
Qed.

Lemma default_params_idempotent p :
  Defaults.default_params (Defaults.default_params p) = Defaults.default_params p.
Proof.
  unfold Defaults.default_params.
  destruct (Defaults.has_key "heartbeat" p) eqn:Hp.
  - now rewrite Hp.
  - rewrite has_key_app; simpl. now rewrite orb_true_r.
Qed.

Lemma default_connection_idempotent c :
  Defaults.default_connection (Defaults.default_connection c) =
  Defaults.default_connection c.
Proof.
  destruct c as [[?|] [?|] [?|] [?|] [?|] [?|] pr [?|]];
    unfold Defaults.default_connection; simpl;
    rewrite default_params_idempotent; reflexivity.
Qed.

Lemma default_channel_idempotent c :
  Defaults.default_channel (Defaults.default_channel c) = Defaults.default_channel c.
Proof.
  destruct c as [[?|] [?|]]; reflexivity.
Qed.

Lemma defaultsDeep_idempotent config :
  Defaults.defaultsDeep (Defaults.defaultsDeep config) = Defaults.defaultsDeep config.
Proof.
  unfold Defaults.defaultsDeep; simpl.
  rewrite default_connection_idempotent, default_channel_idempotent.
  destruct (queues config), (exchanges config), (bindings config); reflexivity.
Qed.

Lemma defaultsDeep_kept config : config_kept config (Defaults.defaultsDeep config).
Proof.
  unfold config_kept, Defaults.defaultsDeep; simpl.
  repeat split; try (intros x ->; reflexivity).
  - intros c ->; eexists; split; [reflexivity|].
    unfold connection_kept, Defaults.default_connection; simpl.
    repeat split; try (intros x ->; reflexivity).
    intros p ->. unfold Defaults.default_params.
    destruct (Defaults.has_key "heartbeat" p).
    + exists []; now rewrite app_nil_r.
    + eexists; reflexivity.
  - intros c ->; eexists; split; [reflexivity|].
    unfold channel_kept; simpl. split; intros x ->; reflexivity.
Qed.

Lemma or_default_given {A} (d : A) (o : option A) :
  Defaults.or_default d o = Some (given_or d o).
Proof. now destruct o. Qed.

(** C10, as the code has it.  The construction writes into the caller's
    object: every property of the configuration that has a default and that
    the caller left undefined takes its default ([amqp], [guest], [guest],
    [localhost], 5672, [/], a [heartbeat] of 30 among the [params], [null]
    for [options]; a [prefetch] of 1 and [confirm] true; three empty
    collections), the properties the caller defined keep their values, and
    the constructor of the state machine adds the keys [initialState] and
    [states].  [this.config] is that same object, and after the construction
    no event changes it. *)
Theorem configuration_after_construction (config : config_object) (evs : list event) :
  let c := given_or Defaults.empty_connection (connection config) in
  let ch := given_or Defaults.empty_channel (channel config) in
  held (run evs (AmqpManager config)) =
  {| properties :=
       {| connection :=
            Some {| protocol := Some (given_or "amqp" (protocol c));
                    user := Some (given_or "guest" (user c));
                    password := Some (given_or "guest" (password c));
                    host := Some (given_or "localhost" (host c));
                    port := Some (given_or 5672%Z (port c));
                    vhost := Some (given_or "/" (vhost c));
                    params :=
                      Some (match params c with
                            | Some p => if Defaults.has_key "heartbeat" p then p
                                        else p ++ [("heartbeat", "30")]
                            | None => [("heartbeat", "30")]
                            end);
                    options := Some (given_or None (options c)) |};
          channel := Some {| prefetch := Some (given_or 1%Z (prefetch ch));
                             confirm := Some (given_or true (confirm ch)) |};
          queues := Some (given_or [] (queues config));
          exchanges := Some (given_or [] (exchanges config));
          bindings := Some (given_or [] (bindings config)) |};
     machina :=
       Some {| initialState := "uninitialized";
               states := [St_uninitialized; St_idle; St_connect; St_assert;
                          St_connected; St_reconnect; St_error; St_close] |} |} /\
  config_kept config (w_config (run evs (AmqpManager config))).
Proof.
  intros c ch. unfold held. rewrite run_config, run_machina.
  split; [|apply defaultsDeep_kept].
  subst c ch. unfold AmqpManager, AmqpConnectionFsm_keys.
  cbn [w_config w_machina]. f_equal.
  unfold Defaults.defaultsDeep, Defaults.default_connection,
    Defaults.default_channel, Defaults.default_params.
  rewrite !or_default_given.
  destruct config as [conn chan q e b]; cbn [connection channel queues exchanges bindings].
  f_equal.
  - destruct conn as [conn|]; cbn [given_or]; [|reflexivity].
    now destruct (params conn).
Qed.

(** C10, as stated, fails: the object given to the constructor with every
    property undefined is not the same after the construction; and an object
    in which every property is defined keeps them all but has two keys more. *)
Lemma configuration_is_mutated :
  held (run [] (AmqpManager empty_config)) <> given empty_config /\
  w_config (run [] (AmqpManager empty_config)) <> empty_config /\
  w_config (run [] (AmqpManager full_config)) = full_config /\
  held (run [] (AmqpManager full_config)) <> given full_config.
Proof.
  repeat split; try discriminate.
Qed.

(** ** Handles that stay open *)

(** C1 does not hold of the code.  After a channel failure and then a
    failure of the first connection, each followed by a reconnect, two
    connections and two channels are open at once: entering [reconnect]
    closed nothing and removed no listener, and every connection still has
    its [error] listener. *)
Theorem reconnect_leaves_handles_open :
  feasible two_failures (AmqpManager empty_config) = true /\
  open_connections (run channel_failure (AmqpManager empty_config)) = 2 /\
  open_connections (run two_failures (AmqpManager empty_config)) = 2 /\
  open_channels (run two_failures (AmqpManager empty_config)) = 2 /\
  existsb is_cleanup (w_log (run two_failures (AmqpManager empty_config))) = false /\
  map conn_listeners (connections (run two_failures (AmqpManager empty_config)))
  = [[On_error]; [On_error]; [On_error]].
Proof.
  vm_compute. repeat split.
Qed.

(** ** After [close()] *)

(** C2 does not hold of the code.  When [close()] is called while the
    backoff of a reconnect is pending, the timer still runs and takes the
    machine from [close] into [connect], where a new connect is made; when
    that connect fails another reconnect is scheduled.  When [close()] is
    called while a connect is in flight, the connect that succeeds takes the
    machine on to [connected], with a connection that stays open. *)
Theorem close_does_not_stop_reconnect :
  feasible (close_during_backoff ++ [Connect_rejected]) (AmqpManager empty_config) = true /\
  (let w := run close_during_backoff (AmqpManager empty_config) in
   m_closed w = true /\ w_state w = St_connect /\ pending_connects w = 1 /\
   option_map is_connect (hd_error (w_log w)) = Some true) /\
  (let w := run (close_during_backoff ++ [Connect_rejected]) (AmqpManager empty_config) in
   w_state w = St_reconnect /\ existsb is_reconnect_timer (timers w) = true) /\
  feasible close_during_connect (AmqpManager empty_config) = true /\
  (let w := run close_during_connect (AmqpManager empty_config) in
   m_closed w = true /\ w_state w = St_connected /\ open_connections w = 1).
Proof.
  vm_compute. repeat split.
Qed.

(** ** The fatal error of [assert] *)

(** C3 does not hold of the code.  No sequence of events ever brings the
    machine into the [error] state.  On a channel error whose message has the
    precondition marker the machine emits [error] with the cause and stays
    in [assert]: no listener is removed, and the [close] of the channel that
    follows takes it to [reconnect], where a reconnect is scheduled. *)
Theorem precondition_failure_stays_in_assert (config : config_object)
        (evs : list event) :
  w_state (run evs (AmqpManager config)) <> St_error /\
  Precondition.test precondition_message = true /\
  feasible (precondition_failure ++ [Channel_emits 0 On_close ""])
           (AmqpManager events_config) = true /\
  (let w := run precondition_failure (AmqpManager events_config) in
   w_state w = St_assert /\
   hd_error (w_log w) = Some (A_emit_error (Some precondition_message)) /\
   existsb is_cleanup (w_log w) = false /\
   existsb is_reconnect_timer (timers w) = false) /\
  (let w := run (precondition_failure ++ [Channel_emits 0 On_close ""])
                (AmqpManager events_config) in
   w_state w = St_reconnect /\ existsb is_reconnect_timer (timers w) = true).
Proof.
  split; [apply error_state_unreachable|].
  vm_compute. repeat split.
Qed.

(** ** The listeners on the connection *)

(** C8 does not hold of the code.  A connect that succeeds registers a
    listener for [error] only, and [connected] has no handler for a close of
    the connection: when the transport is closed the machine stays in
    [connected], the facade keeps the channel in its cache, and no reconnect
    is scheduled. *)
Theorem transport_close_is_not_seen :
  feasible transport_close (AmqpManager empty_config) = true /\
  map conn_listeners
      (connections (run [Call_channel; Connect_resolved] (AmqpManager empty_config)))
  = [[On_error]] /\
  (let w := run transport_close (AmqpManager empty_config) in
   connection_is_open w 0 = false /\ w_state w = St_connected /\
   m_channel w = Some 0 /\ existsb is_reconnect_timer (timers w) = false).
Proof.
  vm_compute. repeat split.
Qed.

(** ** [close()] of the facade *)

Lemma closed_and_idle_step w e : closed_and_idle w -> closed_and_idle (step w e).
Proof.
  intros (Hs & Hc & Hpc & Hpch & Ht & Hco & Hch & Hcalls).
  unfold closed_and_idle.
  destruct e; simpl.
  - unfold AmqpManager_channel; rewrite Hc; simpl; repeat split; auto.
  - unfold AmqpManager_close, fsm_close, transition; simpl.
    rewrite Hs; simpl; repeat split; auto.
    apply Forall_app; split; auto.
  - rewrite Hpc; repeat split; auto.
  - rewrite Hpc; repeat split; auto.
  - rewrite Hpch; simpl; repeat split; auto.
  - rewrite Hpch; simpl; repeat split; auto.
  - unfold declare_resolved; rewrite Hch; destruct c; simpl; repeat split; auto.
  - unfold declare_rejected; rewrite Hch; destruct c; simpl; repeat split; auto.
  - unfold connection_emits; rewrite Hco; destruct h; simpl; repeat split; auto.
  - unfold channel_emits; rewrite Hch; destruct c; simpl; repeat split; auto.
  - unfold advance; rewrite Ht; simpl; repeat split; auto.
Qed.

(** C9 does not hold of the code.  [close()] calls [this.fsm.close()] before
    it registers its listener, so the [close] event is emitted before anyone
    listens: on a manager that was not opened, the promise of the first
    [close()] is pending when the call returns, and whatever happens next,
    further calls of [close()] included, no promise of [close()] is ever
    resolved. *)
Theorem close_never_resolves (config : config_object) (evs : list event) :
  In A_emit_close (w_log (run [Call_close] (AmqpManager config))) /\
  close_calls (run [Call_close] (AmqpManager config)) = [Close_pending] /\
  Forall (fun s => s = Close_pending)
         (close_calls (run (Call_close :: evs) (AmqpManager config))) /\
  close_calls (run [Call_close; Call_close; Advance 100000] (AmqpManager config))
  = [Close_pending; Close_pending].
Proof.
  split; [vm_compute; auto|].
  split; [vm_compute; reflexivity|].
  split; [|vm_compute; reflexivity].
  assert (H : closed_and_idle (run (Call_close :: evs) (AmqpManager config))).
  { rewrite run_cons.
    apply run_invariant; [apply closed_and_idle_step|].
    vm_compute; repeat split; auto. }
  apply H.
Qed.

(** ** The order of the declarations *)

Lemma requirement_mono cfg a l l' :
  incl l l' -> requirement cfg a l -> requirement cfg a l'.
Proof.
  intros Hl; destruct a; simpl; auto.
  - intros H i Hi; auto.
  - intros [H1 H2]; split; intros i Hi; auto.
  - intros [H1 H2]; split; auto. intros x Hx; auto.
  - intros [c0 Hc]; exists c0; intros q; destruct (Hc q) as [H1 H2]; split.
    + intros x Hx; auto.
    + intros i Hi; auto.
Qed.

Lemma requirement_plain cfg a l :
  kind_of a = K_other \/ kind_of a = K_open -> requirement cfg a l.
Proof.
  destruct a; simpl; auto; intros [H|H]; discriminate.
Qed.

Lemma in_order_app cfg d log :
  in_order cfg log -> (forall a, In a d -> requirement cfg a log) ->
  in_order cfg (d ++ log).
Proof.
  intros Hlog; induction d as [|a d IH]; intros Hd; simpl; auto.
  split.
  - apply requirement_mono with (l := log); [apply incl_appr, incl_refl|].
    apply Hd; now left.
  - apply IH; intros; apply Hd; now right.
Qed.

Lemma topology_fact_mono cfg l l' c t :
  incl l l' -> topology_fact cfg l c t -> topology_fact cfg l' c t.
Proof.
  intros Hl; destruct t; simpl; auto.
  intros (H1 & H2 & H3 & H4); split; [|split; [|split]]; auto.
  - intros x Hx; auto.
  - intros q Hq; destruct (H4 q Hq) as [H5 H6]; split.
    + intros x Hx; auto.
    + intros i Hi; auto.
Qed.

(** A step that keeps the configuration and every topology, and adds to the
    log only actions whose requirement is met. *)
Lemma ordered_benign skip w w' d :
  ordered_but skip w ->
  w_config w' = w_config w -> topologies w' = topologies w ->
  w_log w' = d ++ w_log w ->
  (forall a, In a d -> requirement (w_config w) a (w_log w)) ->
  ordered_but skip w'.
Proof.
  intros [Ho Ht] Hc Htop Hlog Hd; split; rewrite Hc, Hlog.
  - now apply in_order_app.
  - intros c t Hs Hn. rewrite Htop in Hn.
    eapply topology_fact_mono; [apply incl_appr, incl_refl | auto].
Qed.

Lemma ordered_grows skip w w' :
  ordered_but skip w ->
  w_config w' = w_config w -> topologies w' = topologies w ->
  grows (fun a => kind_of a = K_other \/ kind_of a = K_open) (w_log w) (w_log w') ->
  ordered_but skip w'.
Proof.
  intros Ho Hc Ht Hg.
  destruct (grows_split _ _ _ Hg) as [d [Hd Hall]].
  eapply ordered_benign; eauto.
  intros a Ha; apply requirement_plain.
  rewrite Forall_forall in Hall; auto.
Qed.

Lemma ordered_quiet skip w w' : ordered_but skip w -> quiet w w' -> ordered_but skip w'.
Proof.
  intros Ho []; eapply ordered_grows; eauto.
  eapply grows_weaken; [|eassumption]. intros a Ha; now left.
Qed.

Lemma ordered_timed skip w w' : ordered_but skip w -> timed w w' -> ordered_but skip w'.
Proof.
  intros Ho []; eapply ordered_grows; eauto.
  eapply grows_weaken; [|eassumption]. intros a Ha; now left.
Qed.

Lemma topologies_set_topology c t w :
  topologies (set_topology c t w) = update_nth c (fun _ => t) (topologies w).
Proof.
  unfold topologies, set_topology; simpl.
  generalize (channels w) c; intros l; induction l as [|x l IH]; intros [|n];
    simpl; auto.
  now rewrite IH.
Qed.

Lemma ordered_set_topology c t w :
  ordered_but (Some c) w -> topology_fact (w_config w) (w_log w) c t ->
  ordered (set_topology c t w).
Proof.
  intros [Ho Ht] Hfact; split; simpl; auto.
  intros c' t' _. rewrite topologies_set_topology, nth_error_update_nth.
  destruct (Nat.eqb c c') eqn:Hcc.
  - apply Nat.eqb_eq in Hcc; subst c'.
    destruct (nth_error (topologies w) c); simpl; [|discriminate].
    intros [= <-]; exact Hfact.
  - apply Nat.eqb_neq in Hcc. apply Ht; congruence.
Qed.

Lemma ordered_transition_connected w :
  ordered w -> (exists c, topology_done (w_config w) c (w_log w)) ->
  ordered (transition St_connected w).
Proof.
  intros Ho Hdone; unfold transition.
  destruct (state_eqb St_connected (w_state w)); auto.
  simpl.
  destruct (emit_ready_frame (log (A_transition (w_state w) St_connected)
                                  (set_state St_connected w)))
    as (Hc & _ & _ & _ & _ & _ & Hch & _ & _ & Hl).
  eapply ordered_benign with (w := w);
    [exact Ho | exact Hc | unfold topologies; now rewrite Hch | rewrite Hl; simpl |].
  - instantiate (1 := [_; _; _]); reflexivity.
  - intros a [<- | [<- | [<- | []]]]; simpl; auto.
Qed.

Lemma ordered_topology_resolved c w :
  ordered_but (Some c) w -> topology_done (w_config w) c (w_log w) ->
  ordered (topology_resolved c w).
Proof.
  intros Ho Hdone; unfold topology_resolved.
  apply ordered_transition_connected.
  - apply ordered_set_topology; simpl; auto.
  - exists c; exact Hdone.
Qed.

Lemma issue_requirement cfg c ph log :
  done_before cfg c ph log ->
  forall a, In a (issue cfg c ph) -> requirement cfg a log.
Proof.
  intros Hd a Ha.
  destruct ph; simpl in Ha; apply in_map_iff in Ha; destruct Ha as [x [<- _]];
    simpl; auto.
  - apply (Hd Exchanges); simpl; lia.
  - split; [apply (Hd Exchanges) | apply (Hd Queues)]; simpl; lia.
Qed.

(** Making the calls of one collection. *)
Lemma phase_start ph c w :
  ordered_but (Some c) w -> done_before (w_config w) c ph (w_log w) ->
  let w1 := log_all (issue (w_config w) c ph) w in
  ordered_but (Some c) w1 /\
  done_before (w_config w) c ph (w_log w1) /\
  all_issued (w_config w) c ph (w_log w1).
Proof.
  intros Ho Hd; simpl.
  assert (Hincl : incl (w_log w) (rev (issue (w_config w) c ph) ++ w_log w))
    by (apply incl_appr, incl_refl).
  split; [|split].
  - eapply ordered_benign with (w := w); eauto; try reflexivity.
    intros a Ha; apply in_rev in Ha.
    eapply issue_requirement; eassumption.
  - intros ph' Hph; destruct (Hd ph' Hph) as [H1 H2]; split.
    + intros x Hx; auto.
    + intros i Hi; auto.
  - intros x Hx; apply in_or_app; left; now apply in_rev in Hx.
Qed.

Lemma running_fact cfg c ph n log :
  declarations cfg ph = S n ->
  all_issued cfg c ph log -> done_before cfg c ph log ->
  topology_fact cfg log c (T_running ph (seq 0 (S n))).
Proof.
  intros Hn Hi Hd; split; [|split; [|split]]; auto.
  - intros i Hin; apply in_seq in Hin; lia.
  - intros i Hlt Hnot; exfalso; apply Hnot, in_seq; lia.
Qed.

Lemma done_with cfg c ph log :
  done_before cfg c ph log -> all_issued cfg c ph log -> all_settled cfg c ph log ->
  forall ph', phase_index ph' < S (phase_index ph) ->
              all_issued cfg c ph' log /\ all_settled cfg c ph' log.
Proof.
  intros Hd Hi Hs ph' Hph.
  destruct (Nat.eq_dec (phase_index ph') (phase_index ph)) as [He|Hne].
  - assert (ph' = ph) by (destruct ph', ph; simpl in He; congruence || lia).
    subst; auto.
  - apply Hd; lia.
Qed.

Lemma ordered_bindQueues c w :
  ordered_but (Some c) w -> done_before (w_config w) c Bindings (w_log w) ->
  ordered (bindQueues c w).
Proof.
  intros Ho Hd. destruct (phase_start Bindings c w Ho Hd) as (Ho1 & Hd1 & Hi1).
  unfold bindQueues.
  change (w_config (log_all (issue (w_config w) c Bindings) w)) with (w_config w).
  destruct (declarations (w_config w) Bindings) as [|n] eqn:Hn.
  - apply ordered_topology_resolved; auto.
    intros ph. apply (done_with _ _ Bindings); auto; [|destruct ph; simpl; lia].
    intros i Hi; simpl in Hn, Hi; rewrite Hn in Hi; lia.
  - apply ordered_set_topology; auto. now apply running_fact.
Qed.

Lemma ordered_assertQueues c w :
  ordered_but (Some c) w -> done_before (w_config w) c Queues (w_log w) ->
  ordered (assertQueues c w).
Proof.
  intros Ho Hd. destruct (phase_start Queues c w Ho Hd) as (Ho1 & Hd1 & Hi1).
  unfold assertQueues.
  change (w_config (log_all (issue (w_config w) c Queues) w)) with (w_config w).
  destruct (declarations (w_config w) Queues) as [|n] eqn:Hn.
  - apply ordered_bindQueues; auto.
    intros ph Hph. apply (done_with _ _ Queues); auto.
    intros i Hi; simpl in Hn, Hi; rewrite Hn in Hi; lia.
  - apply ordered_set_topology; auto. now apply running_fact.
Qed.

Lemma ordered_assertExchanges c w :
  ordered_but (Some c) w -> ordered (assertExchanges c w).
Proof.
  intros Ho.
  assert (Hd : done_before (w_config w) c Exchanges (w_log w))
    by (intros ph Hph; simpl in Hph; lia).
  destruct (phase_start Exchanges c w Ho Hd) as (Ho1 & Hd1 & Hi1).
  unfold assertExchanges.
  change (w_config (log_all (issue (w_config w) c Exchanges) w)) with (w_config w).
  destruct (declarations (w_config w) Exchanges) as [|n] eqn:Hn.
  - apply ordered_assertQueues; auto.
    intros ph Hph. apply (done_with _ _ Exchanges); auto.
    intros i Hi; simpl in Hn, Hi; rewrite Hn in Hi; lia.
  - apply ordered_set_topology; auto. now apply running_fact.
Qed.

Lemma ordered_weaken skip w : ordered w -> ordered_but skip w.
Proof.
  intros [Ho Ht]; split; auto. intros c t _; apply Ht; discriminate.
Qed.

Lemma mem_In i l : mem i l = true <-> In i l.
Proof.
  unfold mem; rewrite existsb_exists; split.
  - intros [x [Hx He]]; apply Nat.eqb_eq in He; now subst.
  - intros Hi; exists i; split; auto using Nat.eqb_refl.
Qed.

Lemma In_remove_first j i l : In j (remove_first i l) -> In j l.
Proof.
  induction l as [|y l IH]; simpl; auto.
  destruct (Nat.eqb i y); simpl; intuition.
Qed.

Lemma remove_first_In j i l : In j l -> j <> i -> In j (remove_first i l).
Proof.
  induction l as [|y l IH]; simpl; auto.
  intros [-> | Hj] Hne.
  - destruct (Nat.eqb i j) eqn:He; [apply Nat.eqb_eq in He; congruence | now left].
  - destruct (Nat.eqb i y); [auto | right; auto].
Qed.

Lemma topology_of_channel w c ch :
  nth_error (channels w) c = Some ch ->
  nth_error (topologies w) c = Some (chan_topology ch).
Proof.
  intros H; unfold topologies; now apply map_nth_error.
Qed.

Lemma ordered_declare_resolved c i w : ordered w -> ordered (declare_resolved c i w).
Proof.
  intros Ho; unfold declare_resolved.
  destruct (nth_error (channels w) c) as [ch|] eqn:Hch; auto.
  destruct (chan_topology ch) as [ph pending| |] eqn:Htop; auto.
  destruct (mem i pending) eqn:Hmem; auto.
  apply mem_In in Hmem.
  destruct Ho as [Hord Hfacts].
  assert (Hfact := Hfacts c _ ltac:(discriminate) (topology_of_channel _ _ _ Hch)).
  rewrite Htop in Hfact; destruct Hfact as (H1 & H2 & H3 & H4).
  set (w1 := log (A_settled c ph i) w).
  assert (Hincl : incl (w_log w) (w_log w1)) by (apply incl_tl, incl_refl).
  assert (Ho1 : ordered w1).
  { apply ordered_benign with (skip := None) (w := w) (d := [A_settled c ph i]);
      try reflexivity; [split; assumption|].
    intros a [<- | []]; simpl; auto. }
  assert (Hi1 : all_issued (w_config w) c ph (w_log w1))
    by (intros x Hx; auto).
  assert (Hd1 : done_before (w_config w) c ph (w_log w1)).
  { intros q Hq; destruct (H4 q Hq) as [H5 H6]; split.
    - intros x Hx; auto.
    - intros j Hj; auto. }
  destruct (remove_first i pending) as [|r rest] eqn:Hrem.
  - assert (Hs1 : all_settled (w_config w) c ph (w_log w1)).
    { intros j Hj. destruct (Nat.eq_dec j i) as [-> | Hne]; [now left|].
      apply Hincl, H3; auto.
      intros Hin. apply (remove_first_In j i) in Hin; auto.
      rewrite Hrem in Hin; contradiction. }
    pose proof (done_with _ _ _ _ Hd1 Hi1 Hs1) as Hdone.
    destruct ph; simpl.
    + apply ordered_assertQueues; [now apply ordered_weaken|].
      intros q Hq; apply Hdone; simpl in *; lia.
    + apply ordered_bindQueues; [now apply ordered_weaken|].
      intros q Hq; apply Hdone; simpl in *; lia.
    + apply ordered_topology_resolved; [now apply ordered_weaken|].
      intros q; apply Hdone; destruct q; simpl; lia.
  - apply ordered_set_topology; [now apply ordered_weaken|].
    rewrite <- Hrem.
    split; [|split; [|split]]; auto.
    + intros j Hj; apply H2; eapply In_remove_first; eassumption.
    + intros j Hj Hnot. destruct (Nat.eq_dec j i) as [-> | Hne]; [now left|].
      apply Hincl, H3; auto.
      intros Hin; apply Hnot, remove_first_In; auto.
Qed.

Lemma ordered_declare_rejected c i w : ordered w -> ordered (declare_rejected c i w).
Proof.
  intros Ho; unfold declare_rejected.
  destruct (nth_error (channels w) c) as [ch|]; auto.
  destruct (chan_topology ch) as [ph pending| |]; auto.
  destruct (mem i pending); auto.
  apply ordered_set_topology; [now apply ordered_weaken | exact I].
Qed.

Lemma ordered_createChannel_resolved h w :
  ordered w -> ordered (createChannel_resolved h w).
Proof.
  intros [Hord Hfacts]; unfold createChannel_resolved, assertTopology.
  apply ordered_assertExchanges.
  set (c := List.length (channels w)).
  split; simpl; [repeat split; auto|].
  intros c' t Hne. unfold topologies; simpl. rewrite map_app; simpl.
  assert (Hlen : List.length (map chan_topology (channels w)) = c)
    by apply length_map.
  destruct (Nat.lt_ge_cases c' c) as [Hlt | Hge].
  - rewrite nth_error_app1 by lia. intros Hn.
    eapply topology_fact_mono; [|apply (Hfacts c' t); [discriminate | exact Hn]].
    do 3 apply incl_tl; apply incl_refl.
  - destruct (Nat.eq_dec c' c) as [-> | Hn]; [congruence|].
    rewrite nth_error_app2 by lia.
    destruct (c' - List.length (map chan_topology (channels w))) as [|[|k]] eqn:Hk;
      simpl; try discriminate.
    lia.
Qed.

Lemma started_ordered w :
  ordered w -> ordered (if m_started w then w else fsm_open (set_m_started true w)).
Proof.
  intros Ho.
  destruct (started_shape w) as (Hc & _ & _ & _ & _ & _ & _ & Ht & _ & Hg & _).
  eapply ordered_grows; eauto.
  eapply grows_weaken; [|exact Hg].
  intros a [H1 H2]; destruct (kind_of a); auto; congruence.
Qed.

Lemma step_ordered w e : ordered w -> ordered (step w e).
Proof.
  intros Ho; destruct e; simpl.
  - unfold AmqpManager_channel.
    destruct (m_closed w); [eapply ordered_grows; eauto; apply grows_refl|].
    destruct (m_channel w); [eapply ordered_grows; eauto; apply grows_refl|].
    eapply ordered_grows; [apply (started_ordered w Ho) | reflexivity | reflexivity |].
    simpl. apply grows_cons; [now left | apply grows_refl].
  - eapply ordered_quiet; [exact Ho | apply quiet_AmqpManager_close].
  - destruct (pending_connects w); auto.
    destruct (connect_resolved_shape (set_pending_connects n w))
      as (w1 & -> & _ & Hc & _ & _ & _ & _ & _ & _ & Ht & Hl).
    eapply ordered_quiet; [|apply quiet_transition; discriminate].
    eapply ordered_grows; [exact Ho | exact Hc | exact Ht |].
    eapply grows_weaken; [|exact Hl]. intros a Ha; now left.
  - destruct (pending_connects w); auto.
    eapply ordered_quiet; [exact Ho|].
    eapply quiet_trans; [apply quiet_set_pending_connects | apply quiet_handle].
  - destruct (mem h (pending_channels w)); auto.
    apply ordered_createChannel_resolved.
    eapply ordered_quiet; [exact Ho | apply quiet_set_pending_channels].
  - destruct (mem h (pending_channels w)); auto.
    eapply ordered_quiet; [exact Ho|].
    eapply quiet_trans; [apply quiet_set_pending_channels | apply quiet_handle].
  - now apply ordered_declare_resolved.
  - now apply ordered_declare_rejected.
  - eapply ordered_quiet; [exact Ho | apply quiet_connection_emits].
  - eapply ordered_quiet; [exact Ho | apply quiet_channel_emits].
  - destruct (advance_shape ms w) as [_ Ht].
    eapply ordered_timed; [|exact Ht].
    eapply ordered_grows; [exact Ho | reflexivity | reflexivity | apply grows_refl].
Qed.

Lemma in_order_split cfg later a earlier :
  in_order cfg (later ++ a :: earlier) -> requirement cfg a earlier.
Proof.
  induction later as [|x later IH]; simpl; intros [H1 H2]; auto.
Qed.

(** Whatever the configuration and whatever happens, wherever the log is
    cut before one of its actions, what came earlier meets the requirement of
    that action. *)
Lemma topology_before_ready (config : config_object) (evs : list event)
        (later earlier : list action) (a : action) :
  w_log (run evs (AmqpManager config)) = later ++ a :: earlier ->
  requirement (Defaults.defaultsDeep config) a earlier.
Proof.
  intros Hlog.
  assert (Ho : ordered (run evs (AmqpManager config))).
  { apply run_invariant; [intros; now apply step_ordered|].
    split; simpl; auto. intros [|c] t _; discriminate. }
  destruct Ho as [Ho _].
  rewrite run_config, Hlog in Ho.
  eapply in_order_split; exact Ho.
Qed.

Lemma in_order_suffix cfg later earlier :
  in_order cfg (later ++ earlier) -> in_order cfg earlier.
Proof.
  induction later as [|x later IH]; simpl; auto. intros [_ H]; auto.
Qed.

Lemma issued_declared cfg c ph log :
  all_issued cfg c ph log ->
  match ph with
  | Exchanges => forall x, In x (config_exchanges cfg) -> In (A_assertExchange c x) log
  | Queues => forall x, In x (config_queues cfg) -> In (A_assertQueue c x) log
  | Bindings => forall x, In x (config_bindings cfg) -> In (A_bindQueue c x) log
  end.
Proof.
  unfold all_issued. intros H.
  destruct ph; intros x Hx; apply H; simpl; now apply in_map.
Qed.

(** A collection whose declarations have all settled was declared whole. *)
Lemma settled_issued cfg c ph log :
  in_order cfg log -> all_settled cfg c ph log -> all_issued cfg c ph log.
Proof.
  intros Ho Hs. unfold all_issued.
  destruct (declarations cfg ph) as [|n] eqn:Hn.
  - assert (Hnil : issue cfg c ph = []).
    { destruct ph; simpl in *; apply length_zero_iff_nil;
        now rewrite length_map. }
    rewrite Hnil. intros x [].
  - assert (Hin : In (A_settled c ph 0) log) by (apply Hs; lia).
    apply in_split in Hin. destruct Hin as (l1 & l2 & ->).
    destruct (in_order_split cfg l1 _ l2 Ho) as [_ Hi].
    intros x Hx. apply in_or_app. right. right. now apply Hi.
Qed.

Lemma done_in_words cfg c log :
  in_order cfg log ->
  (all_settled cfg c Exchanges log -> exchanges_done cfg c log) /\
  (all_settled cfg c Queues log -> queues_done cfg c log) /\
  (all_settled cfg c Bindings log -> bindings_done cfg c log).
Proof.
  intros Ho.
  unfold exchanges_done, queues_done, bindings_done, declared_and_settled.
  split; [|split]; intros Hs; (split; [|exact Hs]).
  - exact (issued_declared cfg c Exchanges log (settled_issued cfg c _ log Ho Hs)).
  - exact (issued_declared cfg c Queues log (settled_issued cfg c _ log Ho Hs)).
  - exact (issued_declared cfg c Bindings log (settled_issued cfg c _ log Ho Hs)).
Qed.

(** The order of the declarations, in the words of the configuration.  Whatever
    the configuration and whatever happens: when a queue is declared on a
    channel, every exchange of the configuration was declared on that
    channel and has settled; when a binding is made, every exchange and
    every queue was declared on the channel and has settled; and when
    [ready] is emitted, there is a channel on which every exchange, queue
    and binding of the configuration was declared and has settled. *)
Theorem declarations_in_order (config : config_object) (evs : list event)
      (later earlier : list action) (a : action) :
  w_log (run evs (AmqpManager config)) = later ++ a :: earlier ->
  let cfg := Defaults.defaultsDeep config in
  match a with
  | A_assertQueue c _ => exchanges_done cfg c earlier
  | A_bindQueue c _ => exchanges_done cfg c earlier /\ queues_done cfg c earlier
  | A_emit_ready _ =>
      exists c, exchanges_done cfg c earlier /\ queues_done cfg c earlier /\
                bindings_done cfg c earlier
  | _ => True
  end.
Proof.
  intros Hlog cfg.
  pose proof (topology_before_ready config evs later earlier a Hlog) as Hr.
  assert (Ho : in_order cfg earlier).
  { assert (H : ordered (run evs (AmqpManager config))).
    { apply run_invariant; [intros; now apply step_ordered|].
      split; simpl; auto. intros [|c] t _; discriminate. }
    destruct H as [H _]. rewrite run_config, Hlog in H.
    apply (in_order_suffix cfg (later ++ [a])). now rewrite <- app_assoc. }
  fold cfg in Hr.
  destruct a; simpl in Hr; auto.
  - now apply (done_in_words cfg c earlier Ho).
  - destruct Hr as [H1 H2].
    split; now apply (done_in_words cfg c earlier Ho).
  - destruct Hr as [c Hc]. exists c.
    destruct (done_in_words cfg c earlier Ho) as (D1 & D2 & D3).
    split; [apply D1, Hc | split; [apply D2, Hc | apply D3, Hc]].
Qed.

(** C6 does not hold of the code.  The chain of an attempt that was given up
    is not stopped, and [ready] carries the channel that was created last:
    when the broker answers the declarations of the second attempt while the
    third is declaring its exchange, the machine enters [connected], [ready]
    carries the channel of the third attempt, the call of [channel()] that
    waits is resolved with it, and on that channel the exchange has not
    settled and no queue and no binding was declared. *)
Theorem ready_before_topology :
  feasible stale_chain (AmqpManager events_config) = true /\
  firstn 4 (w_log (run stale_chain (AmqpManager events_config)))
  = [A_manager_connected; A_emit_ready (Some 2);
     A_transition St_assert St_connected; A_settled 1 Bindings 0] /\
  calls (run (two_failures ++ [Declare_resolved 1 0; Declare_resolved 1 0])
             (AmqpManager events_config)) = [Pending] /\
  calls (run stale_chain (AmqpManager events_config)) = [Resolved (Some 2)] /\
  m_channel (run stale_chain (AmqpManager events_config)) = Some 2 /\
  topologies (run stale_chain (AmqpManager events_config))
  = [T_running Exchanges [0]; T_resolved; T_running Exchanges [0]] /\
  filter (on_channel 2) (w_log (run stale_chain (AmqpManager events_config)))
  = [A_assertExchange 2 {| exchange := "E"; type := "topic"; e_options := None |}].
Proof.
  vm_compute. repeat split.
Qed.

(** ** A call of [channel()] that waits *)

Lemma reconnect_timer_not_timeout tm k :
  reconnect_timer tm -> callback tm <> Cb_channel_timeout k.
Proof. intros [n ->]; discriminate. Qed.

Lemma declaring_not_ready a : declaring a -> not_ready a.
Proof. intros [H|H]; red; rewrite H; discriminate. Qed.

Lemma other_not_ready a : other a -> not_ready a.
Proof. intros H; red; rewrite H; discriminate. Qed.

Lemma first_ready_grows ch base log log' P :
  first_ready ch base log -> grows P log log' -> first_ready ch base log'.
Proof.
  intros (d1 & d2 & -> & Hd2) Hg.
  destruct (grows_split _ _ _ Hg) as [d [-> _]].
  exists (d ++ d1), d2; split; auto. now rewrite <- app_assoc.
Qed.

Lemma unique_timeout_appended k D l l' :
  (forall tm, In tm l -> callback tm = Cb_channel_timeout k -> due tm = D) ->
  appended reconnect_timer l l' ->
  forall tm, In tm l' -> callback tm = Cb_channel_timeout k -> due tm = D.
Proof.
  intros Hu [d [-> Hd]] tm Hin Hcb.
  apply in_app_or in Hin; destruct Hin as [Hin | Hin]; auto.
  rewrite Forall_forall in Hd.
  exfalso; eapply reconnect_timer_not_timeout; eauto.
Qed.

Lemma In_appended {A} (P : A -> Prop) x l l' :
  In x l -> appended P l l' -> In x l'.
Proof.
  intros Hin [d [-> _]]; apply in_or_app; now left.
Qed.

Lemma waiting_loose k D base w w' : waiting k D base w -> loose w w' -> waiting k D base w'.
Proof.
  intros [Hu Hc] []; split.
  - eapply unique_timeout_appended; eassumption.
  - unfold call_state in *. rewrite l_calls0.
    destruct (nth_error (calls w) k) as [[|ch|e]|]; auto.
    + destruct Hc as (H1 & H2 & H3 & H4).
      rewrite l_ready_listeners0, l_now0.
      repeat split; auto.
      * eapply In_appended; eassumption.
      * eapply grows_trans; [exact H4|].
        eapply grows_weaken; [apply declaring_not_ready | eassumption].
    + eapply first_ready_grows; eassumption.
    + now rewrite l_now0.
Qed.

Lemma waiting_emit_ready k D base w : waiting k D base w -> waiting k D base (emit_ready w).
Proof.
  intros [Hu Hc].
  destruct (emit_ready_frame w) as (_ & _ & _ & _ & Hn & Ht & _ & _ & _ & Hl).
  split; [now rewrite Ht|].
  unfold call_state in *. rewrite emit_ready_calls.
  destruct (nth_error (calls w) k) as [[|ch|e]|]; auto.
  - destruct Hc as (H1 & H2 & H3 & H4).
    apply mem_In in H1; rewrite H1.
    destruct (grows_split _ _ _ H4) as [d2 [Hd2 Hall]].
    exists [A_manager_connected], d2; split; auto.
    rewrite Hl, Hd2; reflexivity.
  - destruct Hc as (d1 & d2 & Hd & Hall).
    exists (A_manager_connected :: A_emit_ready (mem_channel (w_memory w)) :: d1), d2.
    split; auto. rewrite Hl, Hd; reflexivity.
  - now rewrite Hn.
Qed.

Lemma waiting_outcome k D base w w' :
  waiting k D base w -> outcome loose w w' -> waiting k D base w'.
Proof.
  intros Hw [H | w1 H ->].
  - eapply waiting_loose; eassumption.
  - apply waiting_emit_ready; eapply waiting_loose; eassumption.
Qed.

Lemma nth_error_snoc {A} (l : list A) x k o :
  nth_error l k = Some o -> nth_error (l ++ [x]) k = Some o.
Proof.
  intros H. rewrite nth_error_app1; auto.
  apply nth_error_Some; congruence.
Qed.

Lemma call_state_frame k D base w w' :
  calls w' = calls w -> ready_listeners w' = ready_listeners w ->
  timers w' = timers w -> now w' = now w -> w_log w' = w_log w ->
  call_state k D base w -> call_state k D base w'.
Proof.
  unfold call_state; intros -> -> -> -> ->; auto.
Qed.

Lemma waiting_channel k D base w :
  waiting k D base w -> waiting k D base (AmqpManager_channel w).
Proof.
  intros [Hu Hc].
  assert (Hk : nth_error (calls w) k <> None).
  { unfold call_state in Hc. destruct (nth_error (calls w) k); [discriminate | contradiction]. }
  assert (Hlt : k < List.length (calls w)) by now apply nth_error_Some.
  assert (Hsnoc : forall x, nth_error (calls w ++ [x]) k = nth_error (calls w) k)
    by (intros; apply nth_error_app1; exact Hlt).
  unfold AmqpManager_channel.
  destruct (m_closed w).
  { split; auto. unfold call_state in *; simpl. now rewrite Hsnoc. }
  destruct (m_channel w).
  { split; auto. unfold call_state in *; simpl. now rewrite Hsnoc. }
  destruct (started_shape w) as (_ & _ & _ & _ & Hcalls & Hrl & Hnow & _ & Htm & Hlog & _).
  set (w1 := if m_started w then w else fsm_open (set_m_started true w)) in *.
  split; simpl.
  - intros tm Hin Hcb. apply in_app_or in Hin; destruct Hin as [Hin | [<- | []]].
    + eapply unique_timeout_appended; eassumption.
    + simpl in Hcb. injection Hcb as Hcb. lia.
  - unfold call_state in *; simpl.
    rewrite Hcalls, Hsnoc, Hrl, Hnow.
    destruct (nth_error (calls w) k) as [[|ch|e]|]; auto.
    + destruct Hc as (H1 & H2 & H3 & H4). repeat split; auto.
      * apply in_or_app; now left.
      * apply in_or_app; left. eapply In_appended; eassumption.
      * apply grows_cons; [red; simpl; discriminate|].
        eapply grows_trans; [exact H4|].
        eapply grows_weaken; [|exact Hlog]. intros a [Ha _]; exact Ha.
    + eapply first_ready_grows with (log := w_log w1).
      * eapply first_ready_grows; eassumption.
      * apply grows_cons with (P := fun _ => True); [exact I | apply grows_refl].
Qed.

Lemma waiting_advance k D base ms w :
  waiting k D base w -> waiting k D base (advance ms w).
Proof.
  intros [Hu Hc].
  destruct (advance_shape ms w) as [Heq Ht].
  set (t := (now w + Z.max 0 ms)%Z) in *.
  set (w0 := set_timers (filter (fun tm => negb (is_due t tm)) (timers w)) (set_now t w)) in *.
  assert (Hu0 : forall tm, In tm (timers w0) -> callback tm = Cb_channel_timeout k -> due tm = D).
  { intros tm Hin; apply filter_In in Hin; destruct Hin; auto. }
  destruct Ht. simpl in *.
  split; [eapply unique_timeout_appended; eassumption|].
  unfold call_state in *.
  destruct (nth_error (calls w) k) as [[|ch|e]|] eqn:Hk; try contradiction.
  - destruct Hc as (H1 & H2 & H3 & H4).
    destruct (Z_le_gt_dec D t) as [Hdue | Hnot].
    + assert (Hsettled : nth_error (calls (advance ms w)) k <> Some Pending).
      { rewrite Heq. apply run_timers_settles with (tm := timeout_of k D); auto.
        apply In_sort_by_due, filter_In; split; auto.
        unfold is_due; simpl. now apply Z.leb_le. }
      destruct (t_calls0 k) as [Hsame | [_ Hrej]].
      * rewrite Hsame in Hsettled. contradiction.
      * rewrite Hrej. split; auto. lia.
    + assert (Hsame : nth_error (calls (advance ms w)) k = Some Pending).
      { rewrite Heq, run_timers_other_calls; auto.
        intros tm Hin Hcb. apply In_sort_by_due, filter_In in Hin.
        destruct Hin as [Hin Hd]. unfold is_due in Hd. apply Z.leb_le in Hd.
        rewrite (Hu tm Hin Hcb) in Hd. lia. }
      rewrite Hsame, t_ready_listeners0, t_now0.
      repeat split; auto; try lia.
      * eapply In_appended; [|eassumption].
        apply filter_In; split; auto.
        unfold is_due; simpl. apply negb_true_iff, Z.leb_gt. lia.
      * eapply grows_trans; [exact H4|].
        eapply grows_weaken; [apply other_not_ready | eassumption].
  - destruct (t_calls0 k) as [-> | [Hp _]]; [rewrite Hk|congruence].
    eapply first_ready_grows; eassumption.
  - destruct (t_calls0 k) as [-> | [Hp _]]; [rewrite Hk|congruence].
    rewrite t_now0. destruct Hc; split; auto. lia.
Qed.

Lemma waiting_step k D base w e : waiting k D base w -> waiting k D base (step w e).
Proof.
  intros Hw. pose proof (step_outcome_loose w e) as Ho.
  destruct e; try (eapply waiting_outcome; eassumption).
  - now apply waiting_channel.
  - now apply waiting_advance.
Qed.

Lemma opens_grows P l l' :
  (forall a, P a -> is_fsm_open a = false) -> grows P l l' -> opens l' = opens l.
Proof.
  intros HP Hg; induction Hg as [|a l' Ha _ IH]; auto.
  unfold opens in *; simpl. now rewrite (HP a Ha).
Qed.

Lemma other_not_open a : other a -> is_fsm_open a = false.
Proof. destruct a; auto; discriminate. Qed.

Lemma declaring_not_open a : declaring a -> is_fsm_open a = false.
Proof. destruct a; auto; intros [H|H]; discriminate. Qed.

Lemma step_started w e : m_started w = true -> m_started (step w e) = true.
Proof.
  intros Hs. pose proof (step_outcome_loose w e) as Ho.
  destruct e;
    try (destruct Ho as [H | w1 H ->];
         [now rewrite (l_started _ _ H)
         | destruct (emit_ready_frame w1) as (_ & _ & _ & -> & _);
           now rewrite (l_started _ _ H)]).
  - simpl; unfold AmqpManager_channel.
    destruct (m_closed w); auto. destruct (m_channel w); auto.
    rewrite Hs; auto.
  - simpl. destruct (advance_shape ms w) as [_ Ht].
    now rewrite (t_started _ _ Ht).
Qed.

Lemma step_opened_once w e : opened_once w -> opened_once (step w e).
Proof.
  unfold opened_once; intros Hw. pose proof (step_outcome_loose w e) as Ho.
  destruct e;
    try (destruct Ho as [H | w1 H ->];
         [rewrite (l_started _ _ H), <- Hw;
          apply (opens_grows _ _ _ declaring_not_open (l_log _ _ H))
         | destruct (emit_ready_frame w1) as (_ & _ & _ & -> & _ & _ & _ & _ & _ & ->);
           rewrite (l_started _ _ H), <- Hw;
           apply (opens_grows _ _ _ declaring_not_open (l_log _ _ H))]).
  - simpl; unfold AmqpManager_channel.
    destruct (m_closed w); auto. destruct (m_channel w); auto.
    destruct (started_shape w) as (_ & _ & _ & Hst & _ & _ & _ & _ & _ & _ & Hl).
    simpl. rewrite Hst.
    destruct (m_started w).
    + unfold opens in *; simpl in *. exact Hw.
    + change (opens (w_log (fsm_open (set_m_started true w))) = 1).
      rewrite (opens_grows _ _ _ other_not_open Hl).
      unfold opens in *; simpl. now rewrite Hw.
  - change (step w (Advance ms)) with (advance ms w).
    destruct (advance_shape ms w) as [_ Ht].
    rewrite (t_started _ _ Ht). simpl. rewrite <- Hw.
    apply (opens_grows _ _ _ other_not_open (t_log _ _ Ht)).
Qed.

Lemma step_timeouts_of_calls w e : timeouts_of_calls w -> timeouts_of_calls (step w e).
Proof.
  unfold timeouts_of_calls; intros Hw.
  assert (Hloose : forall w', loose w w' ->
            forall tm j, In tm (timers w') -> callback tm = Cb_channel_timeout j ->
                         nth_error (calls w') j <> None).
  { intros w' [] tm j Hin Hcb. rewrite l_calls0.
    destruct l_timers0 as [d [Hd Hall]]. rewrite Hd in Hin.
    apply in_app_or in Hin; destruct Hin as [Hin | Hin]; eauto.
    rewrite Forall_forall in Hall.
    exfalso; eapply reconnect_timer_not_timeout; eauto. }
  pose proof (step_outcome_loose w e) as Ho.
  destruct e;
    try (destruct Ho as [H | w1 H ->];
         [now apply Hloose
         | intros tm j Hin Hcb;
           destruct (emit_ready_frame w1) as (_ & _ & _ & _ & _ & Ht & _);
           rewrite Ht in Hin; rewrite emit_ready_calls;
           pose proof (Hloose w1 H tm j Hin Hcb);
           destruct (nth_error (calls w1) j) as [[]|]; auto;
           destruct (mem j (ready_listeners w1)); discriminate]).
  - simpl; unfold AmqpManager_channel.
    assert (Hsnoc : forall x tm j, In tm (timers w) -> callback tm = Cb_channel_timeout j ->
                                   nth_error (calls w ++ [x]) j <> None).
    { intros x tm j Hin Hcb. apply nth_error_Some.
      rewrite length_app; simpl.
      pose proof (proj1 (nth_error_Some _ _) (Hw tm j Hin Hcb)). lia. }
    destruct (m_closed w); [simpl; eauto|].
    destruct (m_channel w); [simpl; eauto|].
    destruct (started_shape w) as (_ & _ & _ & _ & Hcalls & _ & _ & _ & Htm & _).
    simpl. rewrite Hcalls.
    intros tm j Hin Hcb. apply nth_error_Some. rewrite length_app; simpl.
    apply in_app_or in Hin; destruct Hin as [Hin | [<- | []]].
    + destruct Htm as [d [Hd Hall]]. rewrite Hd in Hin.
      apply in_app_or in Hin; destruct Hin as [Hin | Hin].
      * pose proof (proj1 (nth_error_Some _ _) (Hw tm j Hin Hcb)). lia.
      * rewrite Forall_forall in Hall.
        exfalso; eapply reconnect_timer_not_timeout; eauto.
    + simpl in Hcb. injection Hcb as <-. lia.
  - simpl. destruct (advance_shape ms w) as [_ Ht].
    destruct Ht. simpl in *.
    intros tm j Hin Hcb.
    assert (Hj : nth_error (calls w) j <> None).
    { destruct t_timers0 as [d [Hd Hall]]. rewrite Hd in Hin.
      apply in_app_or in Hin; destruct Hin as [Hin | Hin].
      - apply filter_In in Hin; destruct Hin; eauto.
      - rewrite Forall_forall in Hall.
        exfalso; eapply reconnect_timer_not_timeout; eauto. }
    destruct (t_calls0 j) as [-> | [_ ->]]; auto; discriminate.
Qed.

Lemma first_ready_not_quiet ch base log :
  first_ready ch base log -> grows not_ready base log -> False.
Proof.
  intros (d1 & d2 & Hlog & _) Hg.
  destruct (grows_split _ _ _ Hg) as [d [Hd Hall]].
  rewrite Hd in Hlog.
  change (d1 ++ A_emit_ready ch :: d2 ++ base)
    with (d1 ++ (A_emit_ready ch :: d2) ++ base) in Hlog.
  rewrite app_assoc in Hlog. apply app_inv_tail in Hlog. subst d.
  apply Forall_app in Hall; destruct Hall as [_ Hall].
  inversion Hall as [|a l Ha _]; subst. now apply Ha.
Qed.

(** C7, as the code has it.  In every world the manager can be in, a call of
    [channel()]
    - is rejected at once with the closed error when the manager is closed,
      whether a channel is cached or not, and does nothing else;
    - otherwise is resolved with the cached channel when there is one, and
      does nothing else;
    - otherwise waits: it calls [open] on the state machine if no earlier
      call did, and only then; from then on, whatever happens, [open] has
      been called exactly once, and the call is pending only while less than
      2000 ms have passed since it was made and [ready] was not emitted, is
      resolved with the channel of the first [ready] emitted since, or is
      rejected with the timeout error, 2000 ms or more after it was made; so
      when 2000 ms have passed without a [ready], it is rejected with the
      timeout error.
    [open] is never called twice. *)
Theorem channel_call (config : config_object) (evs evs' : list event) :
  let w := run evs (AmqpManager config) in
  let k := List.length (calls w) in
  let w1 := step w Call_channel in
  (m_closed w = true ->
   nth_error (calls w1) k = Some (Rejected Connection_closed) /\
   w_log w1 = w_log w) /\
  (m_closed w = false -> forall c, m_channel w = Some c ->
   nth_error (calls w1) k = Some (Resolved (Some c)) /\
   w_log w1 = w_log w) /\
  (m_closed w = false -> m_channel w = None ->
   nth_error (calls w1) k = Some Pending /\
   (if m_started w then w_log w1 = A_setTimeout 2000 :: w_log w
    else grows other (A_fsm_open :: w_log w) (w_log w1)) /\
   opens (w_log (run evs' w1)) = 1 /\
   call_state k (now w + 2000) (w_log w1) (run evs' w1) /\
   ((now w + 2000 <= now (run evs' w1))%Z ->
    grows not_ready (w_log w1) (w_log (run evs' w1)) ->
    nth_error (calls (run evs' w1)) k = Some (Rejected Channel_Timeout))) /\
  opens (w_log (run evs' w1)) <= 1.
Proof.
  intros w k w1.
  assert (Hsnoc : forall x, nth_error (calls w ++ [x]) k = Some x).
  { intros x. rewrite nth_error_app2 by (unfold k; lia).
    unfold k; now rewrite Nat.sub_diag. }
  assert (Hopen : opened_once w).
  { apply run_invariant; [intros; now apply step_opened_once | reflexivity]. }
  assert (Htimeouts : timeouts_of_calls w).
  { apply run_invariant; [intros; now apply step_timeouts_of_calls|].
    intros tm j []. }
  split; [|split; [|split]].
  - intros Hc. subst w1; simpl. unfold AmqpManager_channel; rewrite Hc; simpl.
    split; auto.
  - intros Hc c Hch. subst w1; simpl. unfold AmqpManager_channel; rewrite Hc, Hch; simpl.
    split; auto.
  - intros Hc Hch.
    assert (Hw1 : w1 = AmqpManager_channel w) by reflexivity.
    unfold AmqpManager_channel in Hw1; rewrite Hc, Hch in Hw1.
    destruct (started_shape w)
      as (_ & _ & _ & Hst & Hcalls & Hrl & Hnow & _ & Htm & Hlog & Hl).
    set (ws := if m_started w then w else fsm_open (set_m_started true w)) in *.
    assert (Hpending : nth_error (calls w1) k = Some Pending).
    { rewrite Hw1; simpl. rewrite Hcalls. apply Hsnoc. }
    assert (Hlog1 : if m_started w then w_log w1 = A_setTimeout 2000 :: w_log w
                    else grows other (A_fsm_open :: w_log w) (w_log w1)).
    { rewrite Hw1; simpl. destruct (m_started w).
      - now rewrite Hl.
      - apply grows_cons; [reflexivity | exact Hl]. }
    assert (Hstarted : m_started w1 = true) by (rewrite Hw1; simpl; exact Hst).
    assert (Hopen1 : opened_once w1) by (apply step_opened_once; exact Hopen).
    assert (Hwait : waiting k (now w + 2000) (w_log w1) w1).
    { split.
      - rewrite Hw1; simpl. intros tm Hin Hcb.
        apply in_app_or in Hin; destruct Hin as [Hin | [<- | []]].
        + destruct Htm as [d [Hd Hall]]. rewrite Hd in Hin.
          apply in_app_or in Hin; destruct Hin as [Hin | Hin].
          * exfalso. apply (Htimeouts tm k Hin Hcb).
            apply nth_error_None; unfold k; lia.
          * rewrite Forall_forall in Hall.
            exfalso; eapply reconnect_timer_not_timeout; eauto.
        + simpl. now rewrite Hnow.
      - unfold call_state. rewrite Hpending.
        rewrite Hw1; simpl. rewrite Hnow.
        repeat split; try apply grows_refl.
        + apply in_or_app; right; now left.
        + apply in_or_app; right; left. reflexivity.
        + lia. }
    repeat split; auto.
    + assert (H : m_started (run evs' w1) = true /\ opened_once (run evs' w1)).
      { apply (run_invariant (fun x => m_started x = true /\ opened_once x)); auto.
        intros w' e [H1 H2]; split; [now apply step_started | now apply step_opened_once]. }
      destruct H as [H1 H2]. unfold opened_once in H2. now rewrite H1 in H2.
    + assert (H : waiting k (now w + 2000) (w_log w1) (run evs' w1)).
      { apply (run_invariant (waiting k (now w + 2000) (w_log w1))); auto.
        intros; now apply waiting_step. }
      apply H.
    + assert (H : waiting k (now w + 2000) (w_log w1) (run evs' w1)).
      { apply (run_invariant (waiting k (now w + 2000) (w_log w1))); auto.
        intros; now apply waiting_step. }
      destruct H as [_ H]. unfold call_state in H.
      intros Hlate Hquiet.
      destruct (nth_error (calls (run evs' w1)) k) as [[|ch|e]|]; try contradiction.
      * destruct H as (_ & _ & H & _). lia.
      * exfalso; eapply first_ready_not_quiet; eassumption.
      * destruct H as [-> _]. reflexivity.
  - assert (H : opened_once (run evs' w1)).
    { apply run_invariant; [intros; now apply step_opened_once|].
      apply step_opened_once; exact Hopen. }
    unfold opened_once in H. destruct (m_started (run evs' w1)); lia.
Qed.

Lemma channel_call_witness :
  (nth_error (calls (step (run [Call_close] (AmqpManager empty_config)) Call_channel)) 0
   = Some (Rejected Connection_closed)) /\
  (nth_error (calls (step (run [Call_channel; Connect_resolved; CreateChannel_resolved 0]
                               (AmqpManager empty_config)) Call_channel)) 1
   = Some (Resolved (Some 0))) /\
  call_state 0 2000
             (w_log (step (run [] (AmqpManager empty_config)) Call_channel))
             (run [Advance 2000] (step (run [] (AmqpManager empty_config)) Call_channel)).
Proof.
  split; [|split].
  - exact (proj1 (proj1 (channel_call empty_config [Call_close] []) eq_refl)).
  - exact (proj1 (proj1 (proj2 (channel_call empty_config
             [Call_channel; Connect_resolved; CreateChannel_resolved 0] []))
             eq_refl 0 eq_refl)).
  - exact (proj1 (proj2 (proj2 (proj2 (proj1 (proj2 (proj2
             (channel_call empty_config [] [Advance 2000]))) eq_refl eq_refl))))).
Defined.

(** C7, as stated, fails: when [close()] was called while the connect was in
    flight, the machine still reaches [connected] and the facade caches the
    channel; a call of [channel()] is then rejected with the closed error and
    not resolved with the channel that is cached and ready. *)
Lemma closed_manager_rejects_cached_channel :
  feasible close_during_connect (AmqpManager empty_config) = true /\
  m_channel (run close_during_connect (AmqpManager empty_config)) = Some 0 /\
  channel_is_open (run close_during_connect (AmqpManager empty_config)) 0 = true /\
  nth_error (calls (run (close_during_connect ++ [Call_channel])
                        (AmqpManager empty_config))) 1
  = Some (Rejected Connection_closed).
Proof.
  vm_compute. repeat split.
Qed.

Lemma declarations_in_order_witness :
  exists c,
    exchanges_done (Defaults.defaultsDeep events_config) c
                   (skipn 2 (w_log (run declared (AmqpManager events_config)))) /\
    queues_done (Defaults.defaultsDeep events_config) c
                (skipn 2 (w_log (run declared (AmqpManager events_config)))) /\
    bindings_done (Defaults.defaultsDeep events_config) c
                  (skipn 2 (w_log (run declared (AmqpManager events_config)))).
Proof.
  apply (declarations_in_order events_config declared [A_manager_connected]
           (skipn 2 (w_log (run declared (AmqpManager events_config))))
           (A_emit_ready (Some 0))).
  vm_compute. reflexivity.
Defined.

(** ** The counter of reconnects *)

Lemma transition_memory s w : w_memory (transition s w) = w_memory w.
Proof.
  unfold transition. destruct (state_eqb s (w_state w)); auto.
  destruct (state_eqb s St_connected) eqn:Hs.
  - destruct s; try discriminate. simpl.
    now destruct (emit_ready_frame (log (A_transition (w_state w) St_connected)
                                        (set_state St_connected w)))
      as (_ & _ & -> & _).
  - rewrite (q_memory _ _ (quiet_onEnter s _ ltac:(intros ->; discriminate))).
    reflexivity.
Qed.

Lemma run_timer_counter tm w :
  counter (run_timer tm w) =
  match callback tm with
  | Cb_reconnect n => Some n
  | Cb_channel_timeout _ => counter w
  end.
Proof.
  unfold run_timer, counter. destruct (callback tm).
  - now rewrite transition_memory.
  - now rewrite settle_call_frame.
Qed.

Lemma run_timers_counter l :
  forall w,
    counter (fold_left (fun w tm => run_timer tm w) l w)
    = fold_left counter_after l (counter w).
Proof.
  induction l as [|x l IH]; intros w; simpl; auto.
  now rewrite IH, run_timer_counter.
Qed.

Lemma counter_after_timeouts l c :
  (forall tm n, In tm l -> callback tm <> Cb_reconnect n) ->
  fold_left counter_after l c = c.
Proof.
  revert c; induction l as [|x l IH]; intros c Hl; simpl; auto.
  rewrite IH by (intros tm n Hin; apply Hl; now right).
  unfold counter_after. destruct (callback x) as [n|k] eqn:Hx; auto.
  now destruct (Hl x n (or_introl eq_refl)).
Qed.

(** C4, as the code has it.  The attempt number of a reconnect is the counter
    in memory, or 0 when there is none, plus one: it is the number that
    entering [reconnect] announces and gives to its timer.  The counter takes
    that number when the timer runs: after the callback of a backoff timer
    the counter is the number the timer was given, and when time passes the
    counter is what the timers that come due store one after the other, so
    that it keeps its value when no backoff is due.  The counter is set to 0
    when a transport connect succeeds, on the way into [assert] and before
    any [ready]; no other event and no transition, the one into [connected]
    included, changes it. *)
Theorem counter_of_reconnects (w : world) (e : event) :
  next_reconnects (w_memory w) =
    match counter w with Some n => n + 1 | None => 1 end /\
  (w_state w <> St_reconnect ->
   let n := next_reconnects (w_memory w) in
   timers (transition St_reconnect w)
   = timers w ++ [{| due := (now w + Backoff.waitTimeMs n)%Z; callback := Cb_reconnect n |}] /\
   In (A_emit_reconnect n (Backoff.waitTimeMs n)) (w_log (transition St_reconnect w))) /\
  (forall tm n, callback tm = Cb_reconnect n -> counter (run_timer tm w) = Some n) /\
  (forall s, counter (transition s w) = counter w) /\
  match e with
  | Connect_resolved =>
      pending_connects w <> 0 ->
      counter (step w e) = Some 0 /\ w_state (step w e) = St_assert /\
      grows other (w_log w) (w_log (step w e))
  | Advance ms =>
      counter (step w e) = fold_left counter_after (due_timers ms w) (counter w) /\
      ((forall tm n, In tm (timers w) -> (due tm <= now w + Z.max 0 ms)%Z ->
                     callback tm <> Cb_reconnect n) ->
       counter (step w e) = counter w) /\
      (forall tm n, due_timers ms w = [tm] -> callback tm = Cb_reconnect n ->
                    counter (step w e) = Some n)
  | _ => counter (step w e) = counter w
  end.
Proof.
  split; [unfold next_reconnects, counter; now destruct (mem_reconnects (w_memory w))|].
  split; [intros Hs; destruct (transition_reconnect_timer w Hs) as (H1 & _ & H2); auto|].
  split; [intros tm n Hcb; now rewrite run_timer_counter, Hcb|].
  split; [intros s; unfold counter; now rewrite transition_memory|].
  pose proof (step_outcome w e) as Ho.
  assert (Hcalm : forall w', outcome calm w w' -> counter w' = counter w).
  { intros w' [H | w1 H ->]; unfold counter.
    - apply (c_reconnects _ _ H).
    - destruct (emit_ready_frame w1) as (_ & _ & -> & _). apply (c_reconnects _ _ H). }
  destruct e; auto.
  - simpl; unfold AmqpManager_channel, counter.
    destruct (m_closed w); auto. destruct (m_channel w); auto.
    simpl. now destruct (started_shape w) as (_ & -> & _).
  - intros Hp. simpl. destruct (pending_connects w) as [|n]; [contradiction|].
    unfold connect_resolved, counter. rewrite transition_memory. simpl.
    split; [reflexivity|]. split.
    + unfold transition; simpl.
      destruct (w_state w) eqn:Hst; simpl; auto.
    + eapply grows_trans;
        [|apply (q_log _ _ (quiet_transition St_assert _
                   ltac:(discriminate) ltac:(discriminate)))].
      simpl. apply grows_cons; [reflexivity | apply grows_refl].
  - change (step w (Advance ms)) with (advance ms w).
    assert (Heq : counter (advance ms w)
                  = fold_left counter_after (due_timers ms w) (counter w)).
    { destruct (advance_shape ms w) as [H _]. rewrite H.
      now rewrite run_timers_counter. }
    split; [exact Heq|]. split.
    + intros Hno. rewrite Heq. apply counter_after_timeouts.
      intros tm n Hin. unfold due_timers in Hin.
      apply In_sort_by_due, filter_In in Hin. destruct Hin as [Hin Hd].
      unfold is_due in Hd; apply Z.leb_le in Hd. now apply Hno.
    + intros tm n Hone Hcb. rewrite Heq, Hone. simpl.
      unfold counter_after. now rewrite Hcb.
Qed.

Lemma counter_of_reconnects_witness :
  (counter (step (run [Call_channel] (AmqpManager empty_config)) Connect_resolved) = Some 0 /\
   w_state (step (run [Call_channel] (AmqpManager empty_config)) Connect_resolved) = St_assert) /\
  counter (run first_backoff (AmqpManager empty_config)) = None /\
  counter (step (run first_backoff (AmqpManager empty_config)) (Advance 200)) = Some 1.
Proof.
  split; [|split; [reflexivity|]].
  - destruct (proj2 (proj2 (proj2 (proj2
                (counter_of_reconnects (run [Call_channel] (AmqpManager empty_config))
                                       Connect_resolved))))) as (H1 & H2 & _).
    + vm_compute; discriminate.
    + exact (conj H1 H2).
  - refine (proj2 (proj2 (proj2 (proj2 (proj2 (proj2
              (counter_of_reconnects (run first_backoff (AmqpManager empty_config))
                                     (Advance 200)))))))
              {| due := 200%Z; callback := Cb_reconnect 1 |} 1 _ _);
      reflexivity.
Defined.

(** C4, as stated, fails: after two failed connects the counter is 2; the
    connect that succeeds sets it to 0 while the machine is in [assert] and
    has never been in [connected]; the channel cannot be opened, and the
    next reconnect is attempt 1 again, with the delay of a first attempt. *)
Lemma counter_resets_before_connected :
  feasible assert_failure (AmqpManager empty_config) = true /\
  counter (run (firstn 5 assert_failure) (AmqpManager empty_config)) = Some 2 /\
  counter (run (firstn 6 assert_failure) (AmqpManager empty_config)) = Some 0 /\
  w_state (run (firstn 6 assert_failure) (AmqpManager empty_config)) = St_assert /\
  existsb enters_connected (w_log (run assert_failure (AmqpManager empty_config))) = false /\
  filter is_emit_reconnect (w_log (run assert_failure (AmqpManager empty_config)))
  = [A_emit_reconnect 1 200; A_emit_reconnect 2 400; A_emit_reconnect 1 200].
Proof.
  vm_compute. repeat split.
Qed.

(** * More of the program *)

(** ** The configuration the machine reads *)

Lemma has_key_default_params p :
  Defaults.has_key "heartbeat" (Defaults.default_params p) = true.
Proof.
  unfold Defaults.default_params.
  destruct (Defaults.has_key "heartbeat" p) eqn:Hp; auto.
  rewrite has_key_app; simpl. apply orb_true_r.
Qed.

Lemma or_default_defined {A} (d : A) o : defined (Defaults.or_default d o).
Proof. destruct o; discriminate. Qed.

Lemma defaultsDeep_complete config : complete (Defaults.defaultsDeep config).
Proof.
  unfold complete, Defaults.defaultsDeep; simpl.
  split; [|split].
  - eexists; split; [reflexivity|]. simpl.
    repeat (split; [apply or_default_defined|]).
    eexists; split; [reflexivity | apply has_key_default_params].
  - eexists; split; [reflexivity|]. simpl.
    split; apply or_default_defined.
  - repeat split; apply or_default_defined.
Qed.

(** Whatever configuration the constructor is given, each of its properties
    undefined or a value of its type, and whatever happens after, every
    property the state machine reads from [this.config] is defined: the
    eight properties of [connection] (with a [heartbeat] among its
    [params]), [prefetch] and [confirm] of [channel], and the three
    collections; so the prefetch count given to the channel is a number.
    (A [connection] or [channel] that is [null] or not an object is no
    [config_object]: [_.defaultsDeep] keeps such a value as it is.) *)
Theorem configuration_is_complete (config : config_object) (evs : list event) :
  complete (w_config (run evs (AmqpManager config))) /\
  config_prefetch (w_config (run evs (AmqpManager config))) <> None.
Proof.
  rewrite run_config; simpl.
  split; [apply defaultsDeep_complete|].
  unfold config_prefetch; simpl. apply or_default_defined.
Qed.

(** ** The message of a precondition failure *)

Lemma prefix_ci_spec p :
  forall s, Precondition.prefix_ci p s = true <->
            exists mid post, s = (mid ++ post)%string /\ lowercase mid = lowercase p.
Proof.
  induction p as [|a p IH]; intros s; simpl.
  - split; auto. intros _; exists EmptyString, s; auto.
  - destruct s as [|b s].
    + split; [discriminate|].
      intros (mid & post & Hs & Hm). destruct mid; simpl in *; discriminate.
    + rewrite andb_true_iff, IH, Ascii.eqb_eq. split.
      * intros [Hab (mid & post & -> & Hm)].
        exists (String b mid), post; simpl. split; auto. now rewrite Hab, Hm.
      * intros (mid & post & Hs & Hm).
        destruct mid as [|c mid]; simpl in *; [discriminate|].
        injection Hs as -> ->. injection Hm as Hc Hm.
        split; auto. exists mid, post; auto.
Qed.

Lemma search_ci_spec p :
  forall s, Precondition.search_ci p s = true <-> contains_ci p s.
Proof.
  unfold contains_ci.
  induction s as [|b s IH]; simpl; rewrite orb_true_iff, prefix_ci_spec.
  - split.
    + intros [(mid & post & Hs & Hm) | H]; [|discriminate].
      exists EmptyString, mid, post; auto.
    + intros (pre & mid & post & Hs & Hm). left.
      destruct pre; simpl in Hs; [|discriminate]. eauto.
  - rewrite IH. split.
    + intros [(mid & post & Hs & Hm) | (pre & mid & post & Hs & Hm)].
      * exists EmptyString, mid, post; auto.
      * exists (String b pre), mid, post; simpl. now rewrite Hs.
    + intros (pre & mid & post & Hs & Hm).
      destruct pre as [|c pre]; simpl in Hs.
      * left; eauto.
      * injection Hs as -> ->. right; eauto.
Qed.

(** The test of [assert.channel_error] holds of a message exactly when the
    message has a part that reads [precondition-failed] once the letters
    A-Z are taken in lower case: the case of the marker does not matter, nor
    does what stands before or after it. *)
Theorem precondition_test_is_search (message : string) :
  Precondition.test message = true <->
  exists pre mid post,
    message = (pre ++ mid ++ post)%string /\ lowercase mid = "precondition-failed".
Proof.
  unfold Precondition.test. rewrite search_ci_spec. reflexivity.
Qed.

(** ** The backoff *)

Lemma waitTimeMs_backoff n :
  1 <= n -> (200 <= Backoff.waitTimeMs n <= 60000)%Z.
Proof.
  intros H1. unfold Backoff.waitTimeMs.
  change (60 * 1000)%Z with 60000%Z.
  assert (2 ^ 1 <= 2 ^ Z.of_nat n)%Z by (apply Z.pow_le_mono_r; lia).
  change (2 ^ 1)%Z with 2%Z in *. lia.
Qed.

(** The delay of a reconnect never decreases from one attempt to a later
    one, and it always lies between 100 ms and one minute (200 ms from the
    first attempt on). *)
Theorem backoff_is_monotone_and_bounded (n m : nat) :
  n <= m ->
  (Backoff.waitTimeMs n <= Backoff.waitTimeMs m)%Z /\
  (100 <= Backoff.waitTimeMs n <= 60000)%Z /\
  (1 <= n -> (200 <= Backoff.waitTimeMs n)%Z).
Proof.
  intros Hnm. unfold Backoff.waitTimeMs.
  change (60 * 1000)%Z with 60000%Z.
  assert (Hpow : (2 ^ Z.of_nat n <= 2 ^ Z.of_nat m)%Z)
    by (apply Z.pow_le_mono_r; lia).
  assert (H0 : (1 <= 2 ^ Z.of_nat n)%Z).
  { change 1%Z with (2 ^ 0)%Z. apply Z.pow_le_mono_r; lia. }
  set (a := (2 ^ Z.of_nat n)%Z) in *. set (b := (2 ^ Z.of_nat m)%Z) in *.
  split; [lia|]. split; [lia|].
  intros H1.
  assert (2 ^ 1 <= a)%Z by (apply Z.pow_le_mono_r; lia).
  change (2 ^ 1)%Z with 2%Z in *. lia.
Qed.

Lemma backoff_is_monotone_and_bounded_witness :
  (Backoff.waitTimeMs 3 <= Backoff.waitTimeMs 12)%Z.
Proof.
  exact (proj1 (backoff_is_monotone_and_bounded 3 12 ltac:(lia))).
Defined.

(** ** What no callback undoes *)

Lemma facade_frame_refl w : facade_frame w w.
Proof. constructor; auto using incl_refl. Qed.

Lemma facade_frame_trans w1 w2 w3 :
  facade_frame w1 w2 -> facade_frame w2 w3 -> facade_frame w1 w3.
Proof.
  intros [] []; constructor; auto; try congruence.
  - eapply incl_tran; eassumption.
  - intros c Hc. destruct (ff_cached1 c Hc) as [H | H]; auto.
    destruct (ff_cached0 c H) as [H' | H']; auto.
Qed.

Lemma inner_refl w : inner w w.
Proof. constructor; auto using facade_frame_refl. Qed.

Lemma inner_trans w1 w2 w3 : inner w1 w2 -> inner w2 w3 -> inner w1 w3.
Proof.
  intros [] []; constructor; eauto using facade_frame_trans; congruence.
Qed.

Lemma facade_refl w : facade w w.
Proof. constructor; auto using facade_frame_refl. Qed.

Lemma facade_trans w1 w2 w3 : facade w1 w2 -> facade w2 w3 -> facade w1 w3.
Proof.
  intros [F1 S1] [F2 S2]; constructor; eauto using facade_frame_trans.
  intros H3. destruct (S2 H3) as [H2 | H2]; auto.
  destruct (S1 H2) as [H1 | H1]; auto.
  right. apply (ff_closed _ _ F2 H1).
Qed.

Lemma inner_facade w w' : inner w w' -> facade w w'.
Proof.
  intros [F S]; constructor; auto. intros H; left; congruence.
Qed.

Ltac frame_setter :=
  constructor; unfold cache_ok, arguments_ok; simpl; auto using incl_refl.

Ltac inner_setter := constructor; [frame_setter | reflexivity].

Lemma frame_set_state s w : facade_frame w (set_state s w).
Proof. frame_setter. Qed.

Lemma inner_set_memory x w : inner w (set_memory x w).
Proof. inner_setter. Qed.

Lemma inner_set_m_started x w : inner w (set_m_started x w).
Proof. inner_setter. Qed.

Lemma inner_set_ready_listeners x w : inner w (set_ready_listeners x w).
Proof. inner_setter. Qed.

Lemma inner_set_close_listeners x w : inner w (set_close_listeners x w).
Proof. inner_setter. Qed.

Lemma inner_set_calls x w : inner w (set_calls x w).
Proof. inner_setter. Qed.

Lemma inner_set_close_calls x w : inner w (set_close_calls x w).
Proof. inner_setter. Qed.

Lemma inner_set_connections x w : inner w (set_connections x w).
Proof. inner_setter. Qed.

Lemma inner_set_channels x w : inner w (set_channels x w).
Proof. inner_setter. Qed.

Lemma inner_set_pending_connects x w : inner w (set_pending_connects x w).
Proof. inner_setter. Qed.

Lemma inner_set_pending_channels x w : inner w (set_pending_channels x w).
Proof. inner_setter. Qed.

Lemma inner_set_timers x w : inner w (set_timers x w).
Proof. inner_setter. Qed.

Lemma inner_set_now x w : inner w (set_now x w).
Proof. inner_setter. Qed.

Lemma inner_set_m_closed w : inner w (set_m_closed true w).
Proof. inner_setter. Qed.

(** Actions that are not events of the facade, on top of a log. *)
Lemma last_manager_event_app d log :
  Forall (fun a => is_manager_event a = false) d ->
  last_manager_event (d ++ log) = last_manager_event log.
Proof.
  induction 1 as [|a d Ha _ IH]; simpl; auto. now rewrite Ha.
Qed.

Lemma alternates_app d log :
  Forall (fun a => is_manager_event a = false) d ->
  alternates log -> alternates (d ++ log).
Proof.
  induction 1 as [|a d Ha _ IH]; simpl; auto.
  intros Hl; split; auto. intros ->; discriminate.
Qed.

Lemma inner_log_all d w :
  Forall (fun a => is_manager_event a = false) d ->
  Forall (argument_ok (w_config w)) d ->
  inner w (set_log (d ++ w_log w) w).
Proof.
  intros Hd Ha. constructor; [|reflexivity].
  constructor; unfold cache_ok, arguments_ok; simpl; auto.
  - intros [H1 H2]. rewrite last_manager_event_app by assumption.
    split; auto using alternates_app.
  - intros H. apply Forall_app; auto.
  - apply incl_appr, incl_refl.
Qed.

Lemma inner_log a w :
  is_manager_event a = false -> argument_ok (w_config w) a -> inner w (log a w).
Proof.
  intros H1 H2. apply (inner_log_all [a]); auto.
Qed.

Lemma inner_disconnect w : inner w (disconnect w).
Proof.
  unfold disconnect. destruct (m_channel w) as [c|] eqn:Hc; [|apply inner_refl].
  constructor; [|reflexivity].
  constructor; unfold cache_ok, arguments_ok; simpl; auto.
  - intros [H1 H2]. repeat split; auto.
    + intros _. apply H2. rewrite Hc; discriminate.
    + intros H; contradiction.
  - intros H; constructor; simpl; auto.
  - apply incl_tl, incl_refl.
  - intros c0 H; discriminate.
Qed.

Lemma inner_emit_ready w : inner w (emit_ready w).
Proof.
  unfold emit_ready. rewrite settle_all_frame. simpl.
  constructor; [|reflexivity].
  constructor; unfold cache_ok, arguments_ok; simpl; auto.
  - intros [H1 H2]. repeat split; auto; intros; discriminate.
  - intros H; repeat (constructor; simpl; auto).
  - do 2 apply incl_tl; apply incl_refl.
  - intros c ->; auto.
Qed.

Lemma inner_settle_call k st w : inner w (settle_call k st w).
Proof.
  rewrite settle_call_frame. apply inner_set_calls.
Qed.

Lemma inner_emit_close w : inner w (emit_close w).
Proof.
  unfold emit_close. apply fold_left_invariant.
  - eapply inner_trans; [now apply (inner_log A_emit_close)|].
    eapply inner_trans; [apply inner_set_m_closed|].
    eapply inner_trans; [apply inner_disconnect | apply inner_set_close_listeners].
  - intros a k Ha; eapply inner_trans; [exact Ha | apply inner_set_close_calls].
Qed.

Lemma emit_close_closed w : m_closed (emit_close w) = true.
Proof.
  unfold emit_close.
  apply (fold_left_invariant (fun x => m_closed x = true)).
  - simpl. unfold disconnect; simpl. now destruct (m_channel w).
  - intros a k Ha. exact Ha.
Qed.

Lemma next_reconnects_positive m : 1 <= next_reconnects m.
Proof. unfold next_reconnects; destruct (mem_reconnects m); lia. Qed.

Lemma inner_emit_reconnect n w :
  1 <= n -> inner w (emit_reconnect n (Backoff.waitTimeMs n) w).
Proof.
  intros Hn. unfold emit_reconnect.
  eapply inner_trans; [|apply inner_disconnect].
  apply inner_log; simpl; auto.
Qed.

Lemma inner_emit_error m w : inner w (emit_error m w).
Proof.
  unfold emit_error.
  eapply inner_trans; [|apply inner_disconnect].
  apply inner_log; simpl; auto.
Qed.

Lemma inner_setTimeout cb ms w :
  ms = 2000%Z \/ (200 <= ms <= 60000)%Z -> inner w (setTimeout cb ms w).
Proof.
  intros Hms. unfold setTimeout.
  eapply inner_trans; [apply inner_set_timers|].
  apply inner_log; simpl; auto.
Qed.

Lemma inner_cleanHandlers w : inner w (cleanHandlers w).
Proof.
  unfold cleanHandlers.
  set (w1 := match mem_connection (w_memory w) with Some _ => _ | None => _ end).
  assert (H1 : inner w w1).
  { subst w1; destruct (mem_connection (w_memory w)); [|apply inner_refl].
    eapply inner_trans; [apply inner_set_connections|].
    apply inner_log; simpl; auto. }
  destruct (mem_channel (w_memory w1)); [|exact H1].
  eapply inner_trans; [exact H1|].
  eapply inner_trans; [apply inner_set_channels|].
  apply inner_log; simpl; auto.
Qed.

Lemma inner_onEnter s w : inner w (onEnter s w).
Proof.
  destruct s; simpl; try apply inner_refl.
  - eapply inner_trans; [apply inner_set_pending_connects|].
    apply inner_log; simpl; auto.
  - destruct (mem_connection (w_memory w)); [|apply inner_refl].
    eapply inner_trans; [apply inner_set_pending_channels|].
    apply inner_log; simpl; auto.
  - apply inner_emit_ready.
  - pose proof (next_reconnects_positive (w_memory w)) as Hn.
    eapply inner_trans; [apply inner_emit_reconnect; exact Hn|].
    apply inner_setTimeout. right. now apply waitTimeMs_backoff.
  - eapply inner_trans; [apply inner_cleanHandlers | apply inner_emit_error].
  - eapply inner_trans; [apply inner_cleanHandlers|].
    eapply inner_trans; [|apply inner_emit_close].
    destruct (mem_connection (w_memory (cleanHandlers w))); [|apply inner_refl].
    eapply inner_trans; [apply inner_set_connections|].
    apply inner_log; simpl; auto.
Qed.

Lemma facade_transition s w : facade w (transition s w).
Proof.
  unfold transition.
  destruct (state_eqb s (w_state w)); [apply facade_refl|].
  set (w0 := log (A_transition (w_state w) s) (set_state s w)).
  assert (H0 : facade_frame w w0).
  { eapply facade_frame_trans; [apply frame_set_state|].
    apply (in_frame _ _ (inner_log (A_transition (w_state w) s) (set_state s w)
                                   eq_refl I)). }
  destruct (inner_onEnter s w0) as [F S].
  constructor; [eapply facade_frame_trans; eassumption|].
  rewrite S; simpl. intros ->. right.
  simpl. apply emit_close_closed.
Qed.

Lemma facade_dispatch i w : facade w (dispatch i w).
Proof.
  unfold dispatch.
  destruct (w_state w), i; try apply facade_refl; try apply facade_transition.
  destruct (Precondition.test message);
    [apply inner_facade, inner_emit_error | apply facade_transition].
Qed.

Lemma facade_handle i w : facade w (handle i w).
Proof.
  unfold handle.
  destruct (w_state w); try apply facade_dispatch.
  eapply facade_trans; [apply facade_transition | apply facade_dispatch].
Qed.

Lemma issue_arguments cfg c ph :
  Forall (fun a => is_manager_event a = false) (issue cfg c ph) /\
  Forall (argument_ok cfg) (issue cfg c ph).
Proof.
  split; apply Forall_forall; intros a Ha;
    destruct ph; simpl in Ha; apply in_map_iff in Ha;
    destruct Ha as [x [<- Hx]]; simpl; auto.
Qed.

Lemma inner_issue c ph w : inner w (log_all (issue (w_config w) c ph) w).
Proof.
  destruct (issue_arguments (w_config w) c ph) as [H1 H2].
  apply inner_log_all; now apply Forall_rev.
Qed.

Lemma facade_after_inner w w1 w2 : inner w w1 -> facade w1 w2 -> facade w w2.
Proof.
  intros H1 H2; eapply facade_trans; [apply inner_facade|]; eassumption.
Qed.

Lemma facade_topology_resolved c w : facade w (topology_resolved c w).
Proof.
  unfold topology_resolved.
  eapply facade_after_inner; [apply inner_set_channels | apply facade_transition].
Qed.

Lemma facade_bindQueues c w : facade w (bindQueues c w).
Proof.
  unfold bindQueues.
  eapply facade_after_inner; [apply inner_issue|].
  case_match; [apply facade_topology_resolved | apply inner_facade, inner_set_channels].
Qed.

Lemma facade_assertQueues c w : facade w (assertQueues c w).
Proof.
  unfold assertQueues.
  eapply facade_after_inner; [apply inner_issue|].
  case_match; [apply facade_bindQueues | apply inner_facade, inner_set_channels].
Qed.

Lemma facade_assertExchanges c w : facade w (assertExchanges c w).
Proof.
  unfold assertExchanges.
  eapply facade_after_inner; [apply inner_issue|].
  case_match; [apply facade_assertQueues | apply inner_facade, inner_set_channels].
Qed.

Lemma facade_declare_resolved c i w : facade w (declare_resolved c i w).
Proof.
  unfold declare_resolved.
  destruct (nth_error (channels w) c) as [ch|]; [|apply facade_refl].
  destruct (chan_topology ch) as [ph pending| |]; try apply facade_refl.
  destruct (mem i pending); [|apply facade_refl].
  eapply facade_after_inner; [apply (inner_log (A_settled c ph i)); simpl; auto|].
  destruct (remove_first i pending).
  - destruct ph; simpl;
      [apply facade_assertQueues | apply facade_bindQueues | apply facade_topology_resolved].
  - apply inner_facade, inner_set_channels.
Qed.

Lemma facade_declare_rejected c i w : facade w (declare_rejected c i w).
Proof.
  unfold declare_rejected.
  destruct (nth_error (channels w) c) as [ch|]; [|apply facade_refl].
  destruct (chan_topology ch) as [ph pending| |]; try apply facade_refl.
  destruct (mem i pending); [apply inner_facade, inner_set_channels | apply facade_refl].
Qed.

Lemma facade_connect_resolved w : facade w (connect_resolved w).
Proof.
  unfold connect_resolved.
  eapply facade_after_inner; [|apply facade_transition].
  eapply inner_trans; [|apply inner_set_memory].
  eapply inner_trans; [|apply inner_log; simpl; auto].
  apply inner_set_connections.
Qed.

Lemma facade_createChannel_resolved h w : facade w (createChannel_resolved h w).
Proof.
  unfold createChannel_resolved, assertTopology.
  eapply facade_after_inner; [|apply facade_assertExchanges].
  eapply inner_trans; [|apply inner_log; simpl; auto].
  eapply inner_trans; [|apply inner_log; simpl; auto].
  eapply inner_trans; [|apply inner_set_memory].
  eapply inner_trans; [|apply inner_log; simpl; auto].
  apply inner_set_channels.
Qed.

Lemma facade_run_timer tm w : facade w (run_timer tm w).
Proof.
  unfold run_timer. destruct (callback tm).
  - eapply facade_after_inner; [apply inner_set_memory | apply facade_transition].
  - apply inner_facade, inner_settle_call.
Qed.

Lemma facade_advance ms w : facade w (advance ms w).
Proof.
  unfold advance. apply fold_left_invariant.
  - apply inner_facade.
    eapply inner_trans; [|apply inner_set_timers]. apply inner_set_now.
  - intros a tm Ha; eapply facade_trans; [exact Ha | apply facade_run_timer].
Qed.

Lemma facade_fsm_open w : facade w (fsm_open w).
Proof.
  unfold fsm_open.
  eapply facade_after_inner; [|apply facade_handle].
  apply inner_log; simpl; auto.
Qed.

Lemma facade_fsm_close w : facade w (fsm_close w).
Proof.
  unfold fsm_close.
  eapply facade_after_inner; [|apply facade_transition].
  apply inner_log; simpl; auto.
Qed.

Lemma facade_AmqpManager_channel w : facade w (AmqpManager_channel w).
Proof.
  unfold AmqpManager_channel.
  destruct (m_closed w); [apply inner_facade, inner_set_calls|].
  destruct (m_channel w); [apply inner_facade, inner_set_calls|].
  set (w1 := if m_started w then w else fsm_open (set_m_started true w)).
  assert (H1 : facade w w1).
  { subst w1. destruct (m_started w); [apply facade_refl|].
    eapply facade_after_inner; [apply inner_set_m_started | apply facade_fsm_open]. }
  eapply facade_trans; [exact H1|]. apply inner_facade.
  eapply inner_trans; [|apply inner_set_ready_listeners].
  eapply inner_trans; [|apply inner_setTimeout; auto].
  apply inner_set_calls.
Qed.

Lemma facade_AmqpManager_close w : facade w (AmqpManager_close w).
Proof.
  unfold AmqpManager_close.
  eapply facade_after_inner; [apply inner_set_close_calls|].
  eapply facade_trans; [apply facade_fsm_close|].
  apply inner_facade, inner_set_close_listeners.
Qed.

Lemma facade_connection_emits h ev w : facade w (connection_emits h ev w).
Proof.
  unfold connection_emits.
  destruct (nth_error (connections w) h) as [c|]; [|apply facade_refl].
  apply fold_left_invariant.
  - apply inner_facade, inner_set_connections.
  - intros a l Ha. destruct (emitted_eqb l ev); [|exact Ha].
    eapply facade_trans; [exact Ha | apply facade_handle].
Qed.

Lemma facade_channel_emits c ev m w : facade w (channel_emits c ev m w).
Proof.
  unfold channel_emits.
  destruct (nth_error (channels w) c) as [ch|]; [|apply facade_refl].
  apply fold_left_invariant.
  - apply inner_facade, inner_set_channels.
  - intros a l Ha. destruct (emitted_eqb l ev); [|exact Ha].
    eapply facade_trans; [exact Ha | apply facade_handle].
Qed.

Lemma facade_step w e : facade w (step w e).
Proof.
  destruct e; simpl.
  - apply facade_AmqpManager_channel.
  - apply facade_AmqpManager_close.
  - destruct (pending_connects w); [apply facade_refl|].
    eapply facade_after_inner;
      [apply inner_set_pending_connects | apply facade_connect_resolved].
  - destruct (pending_connects w); [apply facade_refl|].
    eapply facade_after_inner; [apply inner_set_pending_connects | apply facade_handle].
  - destruct (mem h (pending_channels w)); [|apply facade_refl].
    eapply facade_after_inner;
      [apply inner_set_pending_channels | apply facade_createChannel_resolved].
  - destruct (mem h (pending_channels w)); [|apply facade_refl].
    eapply facade_after_inner; [apply inner_set_pending_channels | apply facade_handle].
  - apply facade_declare_resolved.
  - apply facade_declare_rejected.
  - apply facade_connection_emits.
  - apply facade_channel_emits.
  - apply facade_advance.
Qed.

Lemma facade_run evs : forall w, facade w (run evs w).
Proof.
  induction evs as [|e evs IH]; intros w; simpl; [apply facade_refl|].
  eapply facade_trans; [apply facade_step | apply IH].
Qed.

(** ** [connected] and [disconnected] *)

Lemma alternates_split later a earlier :
  alternates (later ++ a :: earlier) ->
  a = A_manager_disconnected -> last_manager_event earlier = Some A_manager_connected.
Proof.
  induction later as [|x later IH]; simpl; intros [H1 H2]; auto.
Qed.

Lemma reachable_cache_ok config evs : cache_ok (run evs (AmqpManager config)).
Proof.
  apply (ff_cache _ _ (f_frame _ _ (facade_run evs (AmqpManager config)))).
  split; simpl; auto. intros H; contradiction.
Qed.

(** The facade emits [disconnected] once for each loss: whatever happens,
    the latest of its two events before a [disconnected] is a [connected],
    never another [disconnected]; and, whether or not a channel was ever
    lost, the facade holds a channel in its cache only while the latest of
    the two events is [connected]. *)
Theorem disconnected_once_per_loss (config : config_object) (evs : list event) :
  (forall later earlier,
      w_log (run evs (AmqpManager config)) = later ++ A_manager_disconnected :: earlier ->
      last_manager_event earlier = Some A_manager_connected) /\
  (m_channel (run evs (AmqpManager config)) <> None ->
   last_manager_event (w_log (run evs (AmqpManager config))) = Some A_manager_connected).
Proof.
  destruct (reachable_cache_ok config evs) as [H1 H2].
  split; auto.
  intros later earlier Hlog. rewrite Hlog in H1. eapply alternates_split; eauto.
Qed.

Lemma disconnected_once_per_loss_witness :
  last_manager_event (skipn 2 (w_log (run channel_loss (AmqpManager empty_config))))
  = Some A_manager_connected /\
  last_manager_event (w_log (run (firstn 3 channel_loss) (AmqpManager empty_config)))
  = Some A_manager_connected.
Proof.
  split.
  - apply (proj1 (disconnected_once_per_loss empty_config channel_loss)
                 [A_setTimeout 200]).
    vm_compute. reflexivity.
  - apply (proj2 (disconnected_once_per_loss empty_config (firstn 3 channel_loss))).
    vm_compute. discriminate.
Defined.

(** ** Once closed *)

Lemma closed_in_close_facade w w' : closed_in_close w -> facade w w' -> closed_in_close w'.
Proof.
  intros Hw [F S] Hs. destruct (S Hs) as [H | H]; auto.
  apply (ff_closed _ _ F), Hw, H.
Qed.

Lemma AmqpManager_close_closed w :
  closed_in_close w -> m_closed (AmqpManager_close w) = true.
Proof.
  intros Hw. unfold AmqpManager_close, fsm_close, transition; simpl.
  destruct (w_state w) eqn:Hs; simpl; try apply emit_close_closed.
  now apply Hw.
Qed.

(** From the first call of [close()] on, whatever happens next, the manager
    is closed: a call of [channel()] is rejected at once with the closed
    error, and it does nothing else (it does not open the machine and sets
    no timer). *)
Theorem closed_is_final (config : config_object) (evs1 evs2 : list event) :
  let w := run (evs1 ++ Call_close :: evs2) (AmqpManager config) in
  m_closed w = true /\
  nth_error (calls (step w Call_channel)) (List.length (calls w))
  = Some (Rejected Connection_closed) /\
  w_log (step w Call_channel) = w_log w /\
  timers (step w Call_channel) = timers w.
Proof.
  intros w.
  assert (Hc : m_closed w = true).
  { subst w. rewrite run_app, run_cons.
    apply (ff_closed _ _ (f_frame _ _ (facade_run evs2 _))).
    apply AmqpManager_close_closed.
    eapply closed_in_close_facade; [|apply facade_run].
    intros H; discriminate. }
  split; auto.
  simpl. unfold AmqpManager_channel. rewrite Hc; simpl.
  split; auto.
  rewrite nth_error_app2 by lia. now rewrite Nat.sub_diag.
Qed.

(** ** What is asked of the transport client *)

(** Whatever happens, the machine connects with the [connection] of the
    configuration, opens every channel in the mode [confirm] says and gives
    it the [prefetch] of the configuration, declares only exchanges, queues
    and bindings that the configuration lists, announces with every reconnect
    an attempt number of 1 or more and the delay of that number, and sets no
    timer other than the 2000 ms of [channel()] and backoffs between 200 ms
    and one minute. *)
Theorem calls_follow_the_configuration (config : config_object) (evs : list event)
        (a : action) :
  In a (w_log (run evs (AmqpManager config))) ->
  argument_ok (Defaults.defaultsDeep config) a.
Proof.
  assert (H : arguments_ok (run evs (AmqpManager config))).
  { apply (ff_arguments _ _ (f_frame _ _ (facade_run evs (AmqpManager config)))).
    constructor. }
  unfold arguments_ok in H. rewrite run_config in H. simpl in H.
  rewrite Forall_forall in H. apply H.
Qed.

Lemma calls_follow_the_configuration_witness :
  argument_ok (Defaults.defaultsDeep events_config) (A_createChannel 0 true).
Proof.
  apply (calls_follow_the_configuration events_config declared).
  vm_compute. tauto.
Defined.

(** ** Calls that wait *)

Lemma step_settled w e k s :
  nth_error (calls w) k = Some s -> s <> Pending ->
  nth_error (calls (step w e)) k = Some s.
Proof.
  intros Hk Hs. pose proof (step_outcome_loose w e) as Ho.
  assert (Hready : forall w1, calls w1 = calls w ->
                              nth_error (calls (emit_ready w1)) k = Some s).
  { intros w1 Hc. rewrite emit_ready_calls, Hc, Hk. destruct s; auto; contradiction. }
  destruct e;
    try (destruct Ho as [H | w1 H ->];
         [now rewrite (l_calls _ _ H) | apply Hready, (l_calls _ _ H)]).
  - simpl; unfold AmqpManager_channel.
    destruct (m_closed w); [simpl; now apply nth_error_snoc|].
    destruct (m_channel w); [simpl; now apply nth_error_snoc|].
    destruct (started_shape w) as (_ & _ & _ & _ & Hc & _).
    simpl. rewrite Hc. now apply nth_error_snoc.
  - change (step w (Advance ms)) with (advance ms w).
    destruct (advance_shape ms w) as [_ Ht].
    destruct (t_calls _ _ Ht k) as [H | [H _]]; simpl in H.
    + now rewrite H.
    + congruence.
Qed.

(** A call of [channel()] that is settled stays as it is, whatever happens
    next: a call that timed out is not resolved by a later [ready], and the
    timer of a call that was resolved, which is never cleared, does not
    reject it. *)
Theorem settled_calls_stay (w : world) (evs : list event) (k : nat) (s : call_status) :
  nth_error (calls w) k = Some s -> s <> Pending ->
  nth_error (calls (run evs w)) k = Some s.
Proof.
  intros Hk Hs.
  apply (run_invariant (fun x => nth_error (calls x) k = Some s)); auto.
  intros w' e H; now apply step_settled.
Qed.

Lemma settled_calls_stay_witness :
  nth_error (calls (run [Connect_resolved; CreateChannel_resolved 0]
                        (run [Call_channel; Advance 2000] (AmqpManager empty_config)))) 0
  = Some (Rejected Channel_Timeout).
Proof.
  apply settled_calls_stay; [vm_compute; reflexivity | discriminate].
Defined.

Lemma step_pending_listen w e : pending_listen w -> pending_listen (step w e).
Proof.
  unfold pending_listen; intros Hw. pose proof (step_outcome_loose w e) as Ho.
  destruct e;
    try (destruct Ho as [H | w1 H ->];
         [intros k; rewrite (l_calls _ _ H), (l_ready_listeners _ _ H); apply Hw
         | intros k; rewrite emit_ready_calls, (l_calls _ _ H);
           destruct (nth_error (calls w) k) as [[]|] eqn:Hk; try discriminate;
           rewrite (l_ready_listeners _ _ H);
           rewrite (proj2 (mem_In k (ready_listeners w)) (Hw k Hk)); discriminate]).
  - simpl; unfold AmqpManager_channel.
    assert (Hsnoc : forall x k, x <> Pending ->
                      nth_error (calls w ++ [x]) k = Some Pending ->
                      nth_error (calls w) k = Some Pending).
    { intros x k Hx Hk.
      destruct (Nat.lt_ge_cases k (List.length (calls w))) as [Hlt | Hge].
      - now rewrite nth_error_app1 in Hk.
      - rewrite nth_error_app2 in Hk by lia.
        destruct (k - List.length (calls w)) as [|[|n]]; simpl in Hk; congruence. }
    destruct (m_closed w); [simpl; intros k Hk; eapply Hw, Hsnoc; eauto; discriminate|].
    destruct (m_channel w); [simpl; intros k Hk; eapply Hw, Hsnoc; eauto; discriminate|].
    destruct (started_shape w) as (_ & _ & _ & _ & Hc & Hr & _).
    simpl. rewrite Hc, Hr. intros k Hk. apply in_or_app.
    destruct (Nat.lt_ge_cases k (List.length (calls w))) as [Hlt | Hge].
    + rewrite nth_error_app1 in Hk by assumption. left; auto.
    + rewrite nth_error_app2 in Hk by lia.
      destruct (k - List.length (calls w)) as [|[|n]] eqn:Hd; simpl in Hk; try discriminate.
      right; left. lia.
  - change (step w (Advance ms)) with (advance ms w).
    destruct (advance_shape ms w) as [_ Ht].
    intros k Hk. rewrite (t_ready_listeners _ _ Ht). simpl.
    destruct (t_calls _ _ Ht k) as [H | [_ H]]; simpl in H; [|congruence].
    apply Hw. congruence.
Qed.

Lemma not_ready_in d ch : Forall not_ready d -> ~ In (A_emit_ready ch) d.
Proof.
  intros Hd Hin. rewrite Forall_forall in Hd. now apply (Hd _ Hin).
Qed.

(** The step that emits [ready] ends with it, and [ready] carries the
    channel of the memory. *)
Lemma ready_in_step w e d ch :
  w_log (step w e) = d ++ w_log w -> In (A_emit_ready ch) d ->
  exists w1, loose w w1 /\ step w e = emit_ready w1 /\ ch = mem_channel (w_memory w1).
Proof.
  intros Hlog Hin.
  assert (Hquiet : forall P, (forall a, P a -> not_ready a) ->
                             grows P (w_log w) (w_log (step w e)) -> False).
  { intros P HP Hg. destruct (grows_split _ _ _ Hg) as [d' [Hd' Hall]].
    rewrite Hlog in Hd'. apply app_inv_tail in Hd'. subst d'.
    apply (not_ready_in d ch); auto.
    eapply Forall_impl; [|exact Hall]. auto. }
  pose proof (step_outcome_loose w e) as Ho.
  destruct e;
    try (destruct Ho as [H | w1 H Heq];
         [exfalso; apply (Hquiet _ declaring_not_ready (l_log _ _ H))|]).
  1: { exfalso. revert Hquiet. simpl. unfold AmqpManager_channel.
       destruct (m_closed w); [intros Hq; apply (Hq (fun _ => False)); simpl;
                               [contradiction | apply grows_refl]|].
       destruct (m_channel w); [intros Hq; apply (Hq (fun _ => False)); simpl;
                                [contradiction | apply grows_refl]|].
       destruct (started_shape w) as (_ & _ & _ & _ & _ & _ & _ & _ & _ & Hl & _).
       simpl. intros Hq. apply (Hq not_ready); auto.
       apply grows_cons; [discriminate|].
       eapply grows_weaken; [|exact Hl]. intros a [Ha _]; exact Ha. }
  10: { exfalso. destruct (advance_shape ms w) as [_ Ht].
        apply (Hquiet _ other_not_ready). apply (t_log _ _ Ht). }
  all: exists w1; split; [exact H|]; split; [exact Heq|];
    rewrite Heq in Hlog;
    destruct (emit_ready_frame w1) as (_ & _ & _ & _ & _ & _ & _ & _ & _ & Hl);
    destruct (grows_split _ _ _ (l_log _ _ H)) as [d1 [Hd1 Hall]];
    rewrite Hl, Hd1 in Hlog;
    change (A_manager_connected :: A_emit_ready (mem_channel (w_memory w1)) :: d1 ++ w_log w)
      with ((A_manager_connected :: A_emit_ready (mem_channel (w_memory w1)) :: d1)
              ++ w_log w) in Hlog;
    apply app_inv_tail in Hlog; subst d;
    destruct Hin as [Hin | [Hin | Hin]];
    [discriminate | congruence
    | exfalso; apply (not_ready_in d1 ch); auto;
      eapply Forall_impl; [|exact Hall]; apply declaring_not_ready].
Qed.

(** The callers that wait are served together: whatever happened before, in
    the step in which [ready] is emitted every call of [channel()] that was
    pending is resolved, all with the channel that [ready] carries, which is
    also the channel the facade now has in its cache. *)
Theorem ready_resolves_every_waiter (config : config_object) (evs : list event)
        (e : event) (d : list action) (ch : option nat) :
  let w := run evs (AmqpManager config) in
  w_log (step w e) = d ++ w_log w -> In (A_emit_ready ch) d ->
  m_channel (step w e) = ch /\
  forall k, nth_error (calls w) k = Some Pending ->
            nth_error (calls (step w e)) k = Some (Resolved ch).
Proof.
  intros w Hlog Hin.
  assert (Hp : pending_listen w).
  { apply run_invariant; [intros; now apply step_pending_listen|].
    intros [|k]; discriminate. }
  destruct (ready_in_step w e d ch Hlog Hin) as (w1 & H & Heq & ->).
  rewrite Heq.
  destruct (emit_ready_frame w1) as (_ & _ & _ & _ & _ & _ & _ & _ & Hm & _).
  split; [exact Hm|].
  intros k Hk. rewrite emit_ready_calls, (l_calls _ _ H), Hk, (l_ready_listeners _ _ H).
  now rewrite (proj2 (mem_In k (ready_listeners w)) (Hp k Hk)).
Qed.

Lemma ready_resolves_every_waiter_witness :
  m_channel (step (run three_callers (AmqpManager empty_config))
                  (CreateChannel_resolved 0)) = Some 0 /\
  forall k, nth_error (calls (run three_callers (AmqpManager empty_config))) k
            = Some Pending ->
            nth_error (calls (step (run three_callers (AmqpManager empty_config))
                                   (CreateChannel_resolved 0))) k
            = Some (Resolved (Some 0)).
Proof.
  apply (ready_resolves_every_waiter empty_config three_callers
           (CreateChannel_resolved 0)
           (firstn 6 (w_log (step (run three_callers (AmqpManager empty_config))
                                  (CreateChannel_resolved 0))))).
  - vm_compute. reflexivity.
  - vm_compute. tauto.
Defined.

(** ** [close()] on the handles *)

Lemma settle_closes_frame l :
  forall w,
    let w' := fold_left (fun w k => settle_close k w) l w in
    w' = set_close_calls (close_calls w') w.
Proof.
  induction l as [|k l IH]; intros w; simpl.
  - now destruct w.
  - rewrite IH at 1. reflexivity.
Qed.

Lemma emit_close_fields w :
  let w' := emit_close w in
  w_state w' = w_state w /\ m_closed w' = true /\ m_channel w' = None /\
  connections w' = connections w /\ channels w' = channels w /\
  w_memory w' = w_memory w /\ In A_emit_close (w_log w') /\ incl (w_log w) (w_log w').
Proof.
  unfold emit_close. rewrite settle_closes_frame. simpl.
  unfold disconnect; simpl.
  destruct (m_channel w) eqn:Hc; simpl; repeat split; auto using incl_tl, incl_refl.
Qed.

Lemma cleanHandlers_fields w :
  let w' := cleanHandlers w in
  w_state w' = w_state w /\ w_memory w' = w_memory w /\
  connections w' = match mem_connection (w_memory w) with
                   | Some h => update_nth h clear_connection (connections w)
                   | None => connections w
                   end /\
  channels w' = match mem_channel (w_memory w) with
                | Some c => update_nth c clear_channel (channels w)
                | None => channels w
                end.
Proof.
  unfold cleanHandlers.
  destruct (mem_connection (w_memory w)), (mem_channel (w_memory w)) eqn:Hc;
    simpl; rewrite ?Hc; simpl; repeat split.
Qed.

Lemma closed_and_cleared l h c :
  nth_error (update_nth h close_connection (update_nth h clear_connection l)) h = Some c ->
  conn_open c = false /\ conn_listeners c = [].
Proof.
  rewrite !nth_error_update_nth, Nat.eqb_refl.
  destruct (nth_error l h); simpl; [|discriminate].
  intros [= <-]; auto.
Qed.

Lemma cleared_channel l c ch :
  nth_error (update_nth c clear_channel l) c = Some ch -> chan_listeners ch = [].
Proof.
  rewrite nth_error_update_nth, Nat.eqb_refl.
  destruct (nth_error l c); simpl; [|discriminate].
  intros [= <-]; auto.
Qed.

Lemma onEnter_close_fields w h :
  mem_connection (w_memory w) = Some h ->
  let w' := onEnter St_close w in
  w_state w' = w_state w /\ m_closed w' = true /\ m_channel w' = None /\
  (forall c, nth_error (connections w') h = Some c ->
             conn_open c = false /\ conn_listeners c = []) /\
  (forall c ch, mem_channel (w_memory w) = Some c ->
                nth_error (channels w') c = Some ch -> chan_listeners ch = []) /\
  In (A_connection_close h) (w_log w') /\ In A_emit_close (w_log w').
Proof.
  intros Hm. cbn [onEnter].
  destruct (cleanHandlers_fields w) as (S1 & M1 & C1 & Ch1).
  rewrite M1, Hm. rewrite Hm in C1.
  set (wc := cleanHandlers w) in *.
  set (w3 := log (A_connection_close h)
                 (set_connections (update_nth h close_connection (connections wc)) wc)).
  destruct (emit_close_fields w3) as (E1 & E2 & E3 & E4 & E5 & _ & E7 & E8).
  rewrite E1, E2, E3, E4, E5.
  split; [exact S1|]. split; [reflexivity|]. split; [reflexivity|].
  split; [|split; [|split]].
  - intros c. unfold w3; cbn [connections log set_log set_connections].
    rewrite C1. apply closed_and_cleared.
  - intros c ch Hc. unfold w3; cbn [channels log set_log set_connections].
    rewrite Ch1, Hc. apply cleared_channel.
  - apply E8. left; reflexivity.
  - exact E7.
Qed.

(** A call of [close()] on a machine that is not in [close] yet brings it
    there: the connection in memory is closed and has no listener left, the
    channel in memory has no listener left, the cache of the facade is
    empty, the manager is closed and [close] was emitted. *)
Theorem close_detaches_and_closes (w : world) (h : nat) :
  w_state w <> St_close -> mem_connection (w_memory w) = Some h ->
  let w' := step w Call_close in
  w_state w' = St_close /\ m_closed w' = true /\ m_channel w' = None /\
  connection_is_open w' h = false /\
  (forall c, nth_error (connections w') h = Some c -> conn_listeners c = []) /\
  (forall c ch, mem_channel (w_memory w) = Some c ->
                nth_error (channels w') c = Some ch -> chan_listeners ch = []) /\
  In (A_connection_close h) (w_log w') /\ In A_emit_close (w_log w').
Proof.
  intros Hs Hm.
  change (step w Call_close) with (AmqpManager_close w).
  unfold AmqpManager_close, fsm_close.
  set (w1 := log A_fsm_close (set_close_calls (close_calls w ++ [Close_pending]) w)).
  assert (Ht : transition St_close w1
               = onEnter St_close (log (A_transition (w_state w) St_close)
                                       (set_state St_close w1))).
  { unfold transition. subst w1; simpl. destruct (w_state w); auto; contradiction. }
  rewrite Ht. clear Ht.
  set (w2 := log (A_transition (w_state w) St_close) (set_state St_close w1)).
  assert (M2 : w_memory w2 = w_memory w) by reflexivity.
  assert (S2 : w_state w2 = St_close) by reflexivity.
  rewrite <- M2 in Hm.
  destruct (onEnter_close_fields w2 h Hm) as (F1 & F2 & F3 & F4 & F5 & F6 & F7).
  rewrite M2 in F5. clearbody w2. clear w1.
  unfold connection_is_open.
  cbn [w_state m_closed m_channel connections channels w_log set_close_listeners].
  repeat split; try congruence; auto.
  - destruct (nth_error _ h) as [c|] eqn:Hn; auto. now destruct (F4 c eq_refl).
  - intros c Hn. now apply F4 in Hn.
Qed.

Lemma close_detaches_and_closes_witness :
  connection_is_open
    (step (run [Call_channel; Connect_resolved; CreateChannel_resolved 0]
               (AmqpManager empty_config)) Call_close) 0 = false.
Proof.
  refine (proj1 (proj2 (proj2 (proj2 (close_detaches_and_closes _ 0 _ _))))).
  - vm_compute; discriminate.
  - vm_compute; reflexivity.
Defined.

(** ** Before the first call of [channel()] *)

Lemma cleanHandlers_initial w :
  w_memory w = initial_memory -> cleanHandlers w = w.
Proof.
  intros Hm. unfold cleanHandlers. rewrite Hm. simpl. rewrite Hm. reflexivity.
Qed.

Lemma emit_close_uncached w :
  m_channel w = None ->
  exists x, emit_close w
            = set_close_calls x (set_close_listeners []
                                   (set_m_closed true (log A_emit_close w))).
Proof.
  intros Hc. unfold emit_close. rewrite settle_closes_frame.
  eexists. unfold disconnect. simpl. rewrite Hc. reflexivity.
Qed.

Lemma asleep_close w : asleep w -> asleep (AmqpManager_close w).
Proof.
  intros (Hs & Hm & Hmc & Hst & Hpc & Hpch & Ht & Hco & Hch & Hlog).
  unfold AmqpManager_close, fsm_close.
  set (w1 := log A_fsm_close (set_close_calls (close_calls w ++ [Close_pending]) w)).
  assert (Hlog1 : Forall close_action (w_log w1))
    by (constructor; [unfold close_action; auto | exact Hlog]).
  destruct Hs as [Hs | Hs].
  - assert (Htr : transition St_close w1
                  = onEnter St_close (log (A_transition St_uninitialized St_close)
                                          (set_state St_close w1))).
    { unfold transition. change (w_state w1) with (w_state w). now rewrite Hs. }
    rewrite Htr. clear Htr.
    set (w2 := log (A_transition St_uninitialized St_close) (set_state St_close w1)).
    assert (Hm2 : w_memory w2 = initial_memory) by exact Hm.
    cbn [onEnter]. rewrite (cleanHandlers_initial w2 Hm2), Hm2.
    cbn [mem_connection initial_memory].
    destruct (emit_close_uncached w2 Hmc) as [x ->].
    unfold asleep; cbn.
    repeat split; auto.
    repeat (constructor; [unfold close_action; eauto|]). exact Hlog.
  - assert (Htr : transition St_close w1 = w1).
    { unfold transition. change (w_state w1) with (w_state w). now rewrite Hs. }
    rewrite Htr. unfold asleep; cbn. repeat split; auto.
Qed.

Lemma asleep_step w e : e <> Call_channel -> asleep w -> asleep (step w e).
Proof.
  intros He Hw.
  destruct e; try contradiction; [now apply asleep_close|..];
    destruct Hw as (Hs & Hm & Hmc & Hst & Hpc & Hpch & Ht & Hco & Hch & Hlog);
    unfold asleep; simpl.
  - rewrite Hpc; repeat split; auto.
  - rewrite Hpc; repeat split; auto.
  - rewrite Hpch; simpl; repeat split; auto.
  - rewrite Hpch; simpl; repeat split; auto.
  - unfold declare_resolved; rewrite Hch; destruct c; simpl; repeat split; auto.
  - unfold declare_rejected; rewrite Hch; destruct c; simpl; repeat split; auto.
  - unfold connection_emits; rewrite Hco; destruct h; simpl; repeat split; auto.
  - unfold channel_emits; rewrite Hch; destruct c; simpl; repeat split; auto.
  - unfold advance; rewrite Ht; simpl; repeat split; auto.
Qed.

(** The manager is lazy: as long as [channel()] was not called, whatever
    else happens (calls of [close()] included), the machine has not left its
    first state but to go to [close], no connect was asked of the transport
    client, no timer is set and no handle exists. *)
Theorem nothing_before_the_first_channel (config : config_object) (evs : list event) :
  ~ In Call_channel evs ->
  asleep (run evs (AmqpManager config)) /\
  existsb is_connect (w_log (run evs (AmqpManager config))) = false.
Proof.
  intros Hno.
  assert (H : asleep (run evs (AmqpManager config))).
  { assert (H0 : asleep (AmqpManager config))
      by (unfold asleep; simpl; repeat split; auto).
    revert H0. generalize (AmqpManager config).
    induction evs as [|e evs IH]; intros w Hw; simpl; auto.
    apply IH.
    - intros Hin; apply Hno; now right.
    - apply asleep_step; auto. intros ->; apply Hno; now left. }
  split; auto.
  destruct H as (_ & _ & _ & _ & _ & _ & _ & _ & _ & Hlog).
  apply not_true_is_false. intros Hex.
  apply existsb_exists in Hex. destruct Hex as [a [Hin Ha]].
  rewrite Forall_forall in Hlog.
  destruct (Hlog a Hin) as [-> | [-> | [s ->]]]; discriminate.
Qed.

Lemma nothing_before_the_first_channel_witness :
  asleep (run [Advance 5; Call_close; Connect_resolved; Call_close]
              (AmqpManager events_config)).
Proof.
  refine (proj1 (nothing_before_the_first_channel events_config _ _)).
  simpl. intros [H | [H | [H | [H | []]]]]; discriminate.
Defined.

(** ** The channel that [ready] carries *)

Lemma steady_refl w : steady w w.
Proof. constructor; auto. Qed.

Lemma steady_trans w1 w2 w3 : steady w1 w2 -> steady w2 w3 -> steady w1 w3.
Proof. intros [] []; constructor; auto; congruence. Qed.

(** Assignments to anything but the channels, the memory, the log, the cache
    and the calls. *)
Lemma steady_same w w' :
  channels w' = channels w -> w_memory w' = w_memory w -> w_log w' = w_log w ->
  m_channel w' = m_channel w -> calls w' = calls w -> steady w w'.
Proof.
  intros H1 H2 H3 H4 H5.
  constructor; unfold known, existing, newest; rewrite ?H1, ?H2, ?H3, ?H4, ?H5; auto.
Qed.

(** The outermost assignment is one of those. *)
Ltac peel :=
  match goal with
  | |- steady _ (_ _ ?w) =>
      apply (steady_trans _ w); [|apply steady_same; reflexivity]
  end.

Lemma newest_existing w : channels w <> [] -> existing w (newest w).
Proof.
  unfold existing, newest. destruct (channels w); [contradiction|].
  intros _. simpl. eexists; split; [reflexivity | lia].
Qed.

Lemma steady_log_all d w :
  (forall ch, ~ In (A_emit_ready ch) d) -> steady w (set_log (d ++ w_log w) w).
Proof.
  intros Hd. constructor; [reflexivity | reflexivity |].
  unfold known, existing, newest; simpl. intros (H1 & H2 & H3 & H4).
  repeat split; auto.
  intros ch Hin. apply in_app_or in Hin. destruct Hin as [Hin | Hin]; auto.
  now apply Hd in Hin.
Qed.

Lemma steady_log a w : (forall ch, a <> A_emit_ready ch) -> steady w (log a w).
Proof.
  intros Ha. apply (steady_log_all [a]).
  intros ch [H | []]. now apply (Ha ch).
Qed.

Lemma steady_update_channels c f w :
  steady w (set_channels (update_nth c f (channels w)) w).
Proof.
  constructor; simpl; [apply length_update_nth | reflexivity |].
  unfold known, existing, newest; simpl. now rewrite length_update_nth.
Qed.

Lemma steady_assign_connection h w :
  steady w (set_memory (assign_connection h (w_memory w)) w).
Proof. constructor; unfold known; auto. Qed.

Lemma steady_assign_reconnects n w :
  steady w (set_memory (assign_reconnects n (w_memory w)) w).
Proof. constructor; unfold known; auto. Qed.

Lemma steady_append_call st w :
  (forall ch, st = Resolved ch -> known w -> existing w ch) ->
  steady w (set_calls (calls w ++ [st]) w).
Proof.
  intros Hst. constructor; [reflexivity | reflexivity |].
  intros Hk. pose proof Hk as (H1 & H2 & H3 & H4).
  unfold known, existing, newest in *; simpl. repeat split; auto.
  intros ch Hin. apply in_app_or in Hin. destruct Hin as [Hin | [Hin | []]]; auto.
Qed.

Lemma steady_settle_call k st w :
  (forall ch, st = Resolved ch -> known w -> existing w ch) ->
  steady w (settle_call k st w).
Proof.
  intros Hst. rewrite settle_call_frame.
  constructor; [reflexivity | reflexivity |].
  intros Hk. pose proof Hk as (H1 & H2 & H3 & H4).
  unfold known, existing, newest in *; simpl. repeat split; auto.
  intros ch Hin. apply In_nth_error in Hin. destruct Hin as [j Hj].
  rewrite settle_call_calls in Hj.
  destruct (nth_error (calls w) j) as [[]|] eqn:Hc; try discriminate.
  - destruct (Nat.eqb k j); [|discriminate].
    apply (Hst ch); [congruence | exact Hk].
  - apply H4. apply (nth_error_In _ j). congruence.
Qed.

Lemma steady_disconnect w : steady w (disconnect w).
Proof.
  unfold disconnect. destruct (m_channel w) eqn:Hc; [|apply steady_refl].
  constructor; [reflexivity | reflexivity |].
  unfold known, existing, newest; simpl. intros (H1 & H2 & H3 & H4).
  repeat split; auto.
  - intros ch [H | H]; [discriminate | auto].
  - intros c H; discriminate.
Qed.

(** [ready] carries the channel created last. *)
Lemma steady_emit_ready w : channels w <> [] -> steady w (emit_ready w).
Proof.
  intros Hne. unfold emit_ready.
  set (ch := mem_channel (w_memory w)).
  set (w1 := log A_manager_connected (set_m_channel ch (log (A_emit_ready ch) w))).
  assert (Hex : forall a, steady w a -> known a -> existing a ch).
  { intros a [Hl Hm _] (H1 & _). subst ch. rewrite <- Hm, H1.
    apply newest_existing. intros Ha. rewrite Ha in Hl.
    destruct (channels w); [contradiction | discriminate]. }
  apply (fold_left_invariant (steady w)).
  - constructor; [reflexivity | reflexivity |].
    intros Hk. pose proof (Hex w (steady_refl w) Hk) as (c & Hc & Hlt).
    destruct Hk as (H1 & H2 & H3 & H4).
    unfold known, existing, newest in *; simpl. repeat split; auto.
    + intros ch' [H | [H | H]]; [discriminate | | auto].
      exists c; split; [congruence | exact Hlt].
    + intros c' Hc'. fold ch in Hc'. congruence.
  - intros a k Ha. eapply steady_trans; [exact Ha|].
    apply steady_settle_call. intros ch' Heq Hk.
    injection Heq as <-. now apply Hex.
Qed.

Lemma steady_emit_close w : steady w (emit_close w).
Proof.
  unfold emit_close. apply (fold_left_invariant (steady w)).
  - cbv zeta. peel.
    eapply steady_trans; [|apply steady_disconnect].
    peel. apply (steady_log A_emit_close); discriminate.
  - intros a k Ha. eapply steady_trans; [exact Ha|].
    unfold settle_close. apply steady_same; reflexivity.
Qed.

Lemma steady_emit_reconnect n ms w : steady w (emit_reconnect n ms w).
Proof.
  unfold emit_reconnect.
  eapply steady_trans; [|apply steady_disconnect].
  apply steady_log; discriminate.
Qed.

Lemma steady_emit_error m w : steady w (emit_error m w).
Proof.
  unfold emit_error.
  eapply steady_trans; [|apply steady_disconnect].
  apply steady_log; discriminate.
Qed.

Lemma steady_setTimeout cb ms w : steady w (setTimeout cb ms w).
Proof.
  unfold setTimeout.
  eapply steady_trans; [|apply steady_log; discriminate].
  apply steady_same; reflexivity.
Qed.

Lemma steady_cleanHandlers w : steady w (cleanHandlers w).
Proof.
  unfold cleanHandlers.
  set (w1 := match mem_connection (w_memory w) with Some _ => _ | None => _ end).
  assert (H1 : steady w w1).
  { subst w1; destruct (mem_connection (w_memory w)); [|apply steady_refl].
    eapply steady_trans; [|apply steady_log; discriminate].
    apply steady_same; reflexivity. }
  destruct (mem_channel (w_memory w1)); [|exact H1].
  eapply steady_trans; [exact H1|].
  eapply steady_trans; [apply steady_update_channels|].
  apply steady_log; discriminate.
Qed.

Lemma steady_nonempty w w' : steady w w' -> channels w <> [] -> channels w' <> [].
Proof.
  intros [Hl _ _] Hne He. rewrite He in Hl.
  destruct (channels w); [contradiction | discriminate].
Qed.

Lemma steady_onEnter s w :
  (s = St_connected -> channels w <> []) -> steady w (onEnter s w).
Proof.
  intros Hs. destruct s; simpl; try apply steady_refl.
  - eapply steady_trans; [|apply steady_log; discriminate].
    apply steady_same; reflexivity.
  - destruct (mem_connection (w_memory w)); [|apply steady_refl].
    eapply steady_trans; [|apply steady_log; discriminate].
    apply steady_same; reflexivity.
  - apply steady_emit_ready; auto.
  - eapply steady_trans; [apply steady_emit_reconnect | apply steady_setTimeout].
  - eapply steady_trans; [apply steady_cleanHandlers | apply steady_emit_error].
  - eapply steady_trans; [apply steady_cleanHandlers|].
    eapply steady_trans; [|apply steady_emit_close].
    destruct (mem_connection (w_memory (cleanHandlers w))); [|apply steady_refl].
    eapply steady_trans; [|apply steady_log; discriminate].
    apply steady_same; reflexivity.
Qed.

Lemma steady_transition s w :
  (s = St_connected -> channels w <> []) -> steady w (transition s w).
Proof.
  intros Hs. unfold transition.
  destruct (state_eqb s (w_state w)); [apply steady_refl|].
  eapply steady_trans; [|apply steady_onEnter; exact Hs].
  eapply steady_trans; [|apply steady_log; discriminate].
  apply steady_same; reflexivity.
Qed.

Lemma steady_dispatch i w : steady w (dispatch i w).
Proof.
  unfold dispatch.
  destruct (w_state w), i; try apply steady_refl;
    try (apply steady_transition; discriminate).
  destruct (Precondition.test message);
    [apply steady_emit_error | apply steady_transition; discriminate].
Qed.

Lemma steady_handle i w : steady w (handle i w).
Proof.
  unfold handle.
  destruct (w_state w); try apply steady_dispatch.
  eapply steady_trans; [apply (steady_transition St_idle); discriminate | apply steady_dispatch].
Qed.

Lemma steady_fsm_open w : steady w (fsm_open w).
Proof.
  unfold fsm_open.
  eapply steady_trans; [apply (steady_log A_fsm_open); discriminate | apply steady_handle].
Qed.

Lemma steady_fsm_close w : steady w (fsm_close w).
Proof.
  unfold fsm_close.
  eapply steady_trans; [apply (steady_log A_fsm_close); discriminate|].
  apply steady_transition; discriminate.
Qed.

Lemma steady_issue c ph w : steady w (log_all (issue (w_config w) c ph) w).
Proof.
  apply steady_log_all. intros ch Hin. apply in_rev in Hin.
  destruct ph; simpl in Hin; apply in_map_iff in Hin;
    destruct Hin as [x [Hx _]]; discriminate.
Qed.

Lemma steady_topology_resolved c w :
  channels w <> [] -> steady w (topology_resolved c w).
Proof.
  intros Hne. unfold topology_resolved, set_topology.
  eapply steady_trans; [apply steady_update_channels|].
  apply steady_transition. intros _.
  apply (steady_nonempty w); [apply steady_update_channels | exact Hne].
Qed.

Lemma steady_bindQueues c w : channels w <> [] -> steady w (bindQueues c w).
Proof.
  intros Hne. unfold bindQueues.
  eapply steady_trans; [apply steady_issue|].
  case_match; [now apply steady_topology_resolved | apply steady_update_channels].
Qed.

Lemma steady_assertQueues c w : channels w <> [] -> steady w (assertQueues c w).
Proof.
  intros Hne. unfold assertQueues.
  eapply steady_trans; [apply steady_issue|].
  case_match; [now apply steady_bindQueues | apply steady_update_channels].
Qed.

Lemma steady_assertExchanges c w : channels w <> [] -> steady w (assertExchanges c w).
Proof.
  intros Hne. unfold assertExchanges.
  eapply steady_trans; [apply steady_issue|].
  case_match; [now apply steady_assertQueues | apply steady_update_channels].
Qed.

Lemma steady_declare_resolved c i w : steady w (declare_resolved c i w).
Proof.
  unfold declare_resolved.
  destruct (nth_error (channels w) c) eqn:Hc; [|apply steady_refl].
  assert (Hne : channels w <> []) by (intros He; rewrite He in Hc; now destruct c).
  destruct (chan_topology c0); try apply steady_refl.
  destruct (mem i pending); [|apply steady_refl].
  eapply steady_trans; [apply (steady_log (A_settled c ph i)); discriminate|].
  destruct (remove_first i pending); [|apply steady_update_channels].
  destruct ph; simpl;
    [now apply steady_assertQueues | now apply steady_bindQueues
    | now apply steady_topology_resolved].
Qed.

Lemma steady_declare_rejected c i w : steady w (declare_rejected c i w).
Proof.
  unfold declare_rejected.
  destruct (nth_error (channels w) c); [|apply steady_refl].
  destruct (chan_topology c0); try apply steady_refl.
  destruct (mem i pending); [apply steady_update_channels | apply steady_refl].
Qed.

Lemma steady_connect_resolved w : steady w (connect_resolved w).
Proof.
  unfold connect_resolved.
  eapply steady_trans; [|apply steady_transition; discriminate].
  eapply steady_trans; [|apply steady_assign_connection].
  eapply steady_trans; [|apply steady_log; discriminate].
  apply steady_same; reflexivity.
Qed.

(** The one callback that creates a channel puts it in the memory. *)
Lemma known_createChannel_resolved h w :
  known w -> known (createChannel_resolved h w).
Proof.
  intros (H1 & H2 & H3 & H4). unfold createChannel_resolved, assertTopology.
  match goal with |- known (assertExchanges _ ?x) => set (w1 := x) end.
  assert (Hl : List.length (channels w1) = S (List.length (channels w)))
    by (simpl; rewrite length_app; simpl; lia).
  apply (s_known w1); [apply steady_assertExchanges|].
  - intros He. rewrite He in Hl. discriminate.
  - unfold known, existing, newest. rewrite Hl.
    repeat split; auto.
    + intros ch [H | [H | [H | H]]]; try discriminate.
      destruct (H2 ch H) as (c & Hc & Hlt). exists c; split; auto.
    + intros c Hc. specialize (H3 c Hc). lia.
    + intros ch Hin. destruct (H4 ch Hin) as (c & Hc & Hlt). exists c; split; auto.
Qed.

Lemma steady_run_timer t w : steady w (run_timer t w).
Proof.
  unfold run_timer. destruct (callback t).
  - eapply steady_trans; [apply steady_assign_reconnects|].
    apply steady_transition; discriminate.
  - apply steady_settle_call; discriminate.
Qed.

Lemma steady_advance ms w : steady w (advance ms w).
Proof.
  unfold advance. apply (fold_left_invariant (steady w)).
  - eapply steady_trans; apply steady_same; reflexivity.
  - intros a t Ha. eapply steady_trans; [exact Ha | apply steady_run_timer].
Qed.

Lemma steady_AmqpManager_channel w : steady w (AmqpManager_channel w).
Proof.
  unfold AmqpManager_channel.
  destruct (m_closed w); [apply steady_append_call; discriminate|].
  destruct (m_channel w) as [c|] eqn:Hc.
  - apply steady_append_call. intros ch Heq (_ & _ & H3 & _).
    injection Heq as <-. exists c; auto.
  - set (w1 := if m_started w then w else fsm_open (set_m_started true w)).
    assert (H1 : steady w w1).
    { subst w1; destruct (m_started w); [apply steady_refl|].
      eapply steady_trans; [|apply steady_fsm_open].
      apply steady_same; reflexivity. }
    eapply steady_trans; [exact H1|].
    eapply steady_trans; [apply (steady_append_call Pending); discriminate|].
    eapply steady_trans; [apply steady_setTimeout|].
    apply steady_same; reflexivity.
Qed.

Lemma steady_AmqpManager_close w : steady w (AmqpManager_close w).
Proof.
  unfold AmqpManager_close. cbv zeta. peel.
  eapply steady_trans; [|apply steady_fsm_close].
  apply steady_same; reflexivity.
Qed.

Lemma steady_connection_emits h ev w : steady w (connection_emits h ev w).
Proof.
  unfold connection_emits.
  destruct (nth_error (connections w) h); [|apply steady_refl].
  apply (fold_left_invariant (steady w)).
  - apply steady_same; reflexivity.
  - intros a l Ha. destruct (emitted_eqb l ev); [|exact Ha].
    eapply steady_trans; [exact Ha | apply steady_handle].
Qed.

Lemma steady_channel_emits c ev message w : steady w (channel_emits c ev message w).
Proof.
  unfold channel_emits.
  destruct (nth_error (channels w) c); [|apply steady_refl].
  apply (fold_left_invariant (steady w)).
  - apply steady_update_channels.
  - intros a l Ha. destruct (emitted_eqb l ev); [|exact Ha].
    eapply steady_trans; [exact Ha | apply steady_handle].
Qed.

Lemma known_step w e : known w -> known (step w e).
Proof.
  intros Hk. destruct e; simpl.
  - apply (s_known w); [apply steady_AmqpManager_channel | exact Hk].
  - apply (s_known w); [apply steady_AmqpManager_close | exact Hk].
  - destruct (pending_connects w); [exact Hk|].
    apply (s_known w); [|exact Hk].
    eapply steady_trans; [|apply steady_connect_resolved].
    apply steady_same; reflexivity.
  - destruct (pending_connects w); [exact Hk|].
    apply (s_known w); [|exact Hk].
    eapply steady_trans; [|apply steady_handle].
    apply steady_same; reflexivity.
  - destruct (mem h (pending_channels w)); [|exact Hk].
    apply known_createChannel_resolved.
    apply (s_known w); [apply steady_same; reflexivity | exact Hk].
  - destruct (mem h (pending_channels w)); [|exact Hk].
    apply (s_known w); [|exact Hk].
    eapply steady_trans; [|apply steady_handle].
    apply steady_same; reflexivity.
  - apply (s_known w); [apply steady_declare_resolved | exact Hk].
  - apply (s_known w); [apply steady_declare_rejected | exact Hk].
  - apply (s_known w); [apply steady_connection_emits | exact Hk].
  - apply (s_known w); [apply steady_channel_emits | exact Hk].
  - apply (s_known w); [apply steady_advance | exact Hk].
Qed.

Lemma reachable_known config evs : known (run evs (AmqpManager config)).
Proof.
  apply run_invariant; [intros; now apply known_step|].
  unfold known, existing, newest; simpl. repeat split; auto.
  - intros ch [].
  - intros c H; discriminate.
  - intros ch [].
Qed.

(** Whatever happened before, the [ready] a step emits carries a channel, and
    it is the channel that was created last: the one the memory of the
    machine holds, whichever channel it was whose topology was completed. *)
Theorem ready_carries_the_newest_channel (config : config_object) (evs : list event)
        (e : event) (d : list action) (ch : option nat) :
  let w := run evs (AmqpManager config) in
  w_log (step w e) = d ++ w_log w -> In (A_emit_ready ch) d ->
  exists c, ch = Some c /\ List.length (channels (step w e)) = S c.
Proof.
  intros w Hlog Hin.
  assert (Hk : known (step w e)) by apply known_step, reachable_known.
  destruct (ready_in_step w e d ch Hlog Hin) as (w1 & _ & Heq & Hch).
  destruct Hk as (H1 & H2 & _ & _).
  destruct (H2 ch) as (c & Hc & Hlt).
  { rewrite Hlog. apply in_or_app. now left. }
  exists c; split; [exact Hc|].
  destruct (emit_ready_frame w1) as (_ & _ & Hm & _).
  rewrite <- Heq in Hm. rewrite Hm, <- Hch, Hc in H1.
  unfold newest in H1. destruct (List.length (channels (step w e))); congruence.
Qed.

Lemma ready_carries_the_newest_channel_witness :
  exists c, Some 1 = Some c /\
            List.length (channels (step (run late_answer (AmqpManager events_config))
                                        (Declare_resolved 0 0))) = S c.
Proof.
  apply (ready_carries_the_newest_channel events_config late_answer
           (Declare_resolved 0 0)
           (firstn 4 (w_log (step (run late_answer (AmqpManager events_config))
                                  (Declare_resolved 0 0))))).
  - vm_compute. reflexivity.
  - vm_compute. tauto.
Defined.

(** A call of [channel()] is never resolved with nothing: whatever happens,
    the value of a resolved call is a channel that the transport client
    created. *)
Theorem channel_resolves_with_a_channel (config : config_object) (evs : list event)
        (k : nat) (ch : option nat) :
  nth_error (calls (run evs (AmqpManager config))) k = Some (Resolved ch) ->
  exists c, ch = Some c /\
            c < List.length (channels (run evs (AmqpManager config))).
Proof.
  intros Hk. destruct (reachable_known config evs) as (_ & _ & _ & H4).
  apply H4. now apply (nth_error_In _ k).
Qed.

Lemma channel_resolves_with_a_channel_witness :
  exists c, Some 1 = Some c /\
            c < List.length (channels (run (late_answer ++ [Declare_resolved 0 0])
                                           (AmqpManager events_config))).
Proof.
  apply (channel_resolves_with_a_channel events_config
           (late_answer ++ [Declare_resolved 0 0]) 0).
  vm_compute. reflexivity.
Defined.

(** ** A chain that has ended *)

Lemma apart_refl c w : apart c w w.
Proof. constructor; auto. Qed.

Lemma apart_trans c w1 w2 w3 : apart c w1 w2 -> apart c w2 w3 -> apart c w1 w3.
Proof. intros [] []; constructor; auto. Qed.

(** Assignments to anything but the channels and the log. *)
Lemma apart_same c w w' :
  channels w' = channels w -> w_log w' = w_log w -> apart c w w'.
Proof.
  intros H1 H2. constructor; unfold topologies; rewrite ?H1, ?H2; auto.
Qed.

(** The outermost assignment is one of those. *)
Ltac peel_apart :=
  match goal with
  | |- apart ?c _ (_ _ ?w) =>
      apply (apart_trans c _ w); [|apply apart_same; reflexivity]
  end.

Lemma apart_log_all c d w :
  (forall a, In a d -> ~ declares_on c a) -> apart c w (set_log (d ++ w_log w) w).
Proof.
  intros Hd. constructor; simpl; auto.
  intros a Ha Hin. apply in_app_or in Hin. destruct Hin as [Hin | Hin]; auto.
  now destruct (Hd a Hin).
Qed.

Lemma apart_log c a w : ~ declares_on c a -> apart c w (log a w).
Proof.
  intros Ha. apply (apart_log_all c [a]). intros b [<- | []]. exact Ha.
Qed.

Lemma apart_update_channels c h f w :
  (forall ch, chan_topology (f ch) = chan_topology ch) ->
  apart c w (set_channels (update_nth h f (channels w)) w).
Proof.
  intros Hf. constructor; simpl; auto.
  unfold topologies; simpl. now rewrite map_update_nth.
Qed.

Lemma apart_set_topology c c' t w : c' <> c -> apart c w (set_topology c' t w).
Proof.
  intros Hc. constructor; [|auto].
  intros t0. rewrite topologies_set_topology, nth_error_update_nth.
  apply Nat.eqb_neq in Hc. now rewrite Hc.
Qed.

Lemma apart_disconnect c w : apart c w (disconnect w).
Proof.
  unfold disconnect. destruct (m_channel w); [|apply apart_refl].
  eapply apart_trans; [|apply apart_log; simpl; auto].
  apply apart_same; reflexivity.
Qed.

Lemma apart_settle_call c k st w : apart c w (settle_call k st w).
Proof.
  rewrite settle_call_frame. apply apart_same; reflexivity.
Qed.

Lemma apart_emit_ready c w : apart c w (emit_ready w).
Proof.
  destruct (emit_ready_frame w) as (_ & _ & _ & _ & _ & _ & Hch & _ & _ & Hl).
  constructor; unfold topologies; rewrite ?Hch, ?Hl; auto.
  intros a Ha [<- | [<- | Hin]]; simpl in Ha; tauto.
Qed.

Lemma apart_emit_close c w : apart c w (emit_close w).
Proof.
  unfold emit_close. apply (fold_left_invariant (apart c w)).
  - cbv zeta. peel_apart.
    eapply apart_trans; [|apply apart_disconnect].
    peel_apart. apply (apart_log c A_emit_close); simpl; auto.
  - intros a k Ha. eapply apart_trans; [exact Ha|].
    unfold settle_close. apply apart_same; reflexivity.
Qed.

Lemma apart_emit_reconnect c n ms w : apart c w (emit_reconnect n ms w).
Proof.
  unfold emit_reconnect.
  eapply apart_trans; [|apply apart_disconnect].
  apply apart_log; simpl; auto.
Qed.

Lemma apart_emit_error c m w : apart c w (emit_error m w).
Proof.
  unfold emit_error.
  eapply apart_trans; [|apply apart_disconnect].
  apply apart_log; simpl; auto.
Qed.

Lemma apart_setTimeout c cb ms w : apart c w (setTimeout cb ms w).
Proof.
  unfold setTimeout.
  eapply apart_trans; [|apply apart_log; simpl; auto].
  apply apart_same; reflexivity.
Qed.

Lemma apart_cleanHandlers c w : apart c w (cleanHandlers w).
Proof.
  unfold cleanHandlers.
  set (w1 := match mem_connection (w_memory w) with Some _ => _ | None => _ end).
  assert (H1 : apart c w w1).
  { subst w1; destruct (mem_connection (w_memory w)); [|apply apart_refl].
    eapply apart_trans; [|apply apart_log; simpl; auto].
    apply apart_same; reflexivity. }
  destruct (mem_channel (w_memory w1)) as [k|]; [|exact H1].
  eapply apart_trans; [exact H1|].
  eapply apart_trans; [apply (apart_update_channels c k clear_channel); reflexivity|].
  apply apart_log; simpl; auto.
Qed.

Lemma apart_onEnter c s w : apart c w (onEnter s w).
Proof.
  destruct s; simpl; try apply apart_refl.
  - eapply apart_trans; [|apply apart_log; simpl; auto].
    apply apart_same; reflexivity.
  - destruct (mem_connection (w_memory w)); [|apply apart_refl].
    eapply apart_trans; [|apply apart_log; simpl; auto].
    apply apart_same; reflexivity.
  - apply apart_emit_ready.
  - eapply apart_trans; [apply apart_emit_reconnect | apply apart_setTimeout].
  - eapply apart_trans; [apply apart_cleanHandlers | apply apart_emit_error].
  - eapply apart_trans; [apply apart_cleanHandlers|].
    eapply apart_trans; [|apply apart_emit_close].
    destruct (mem_connection (w_memory (cleanHandlers w))); [|apply apart_refl].
    eapply apart_trans; [|apply apart_log; simpl; auto].
    apply apart_same; reflexivity.
Qed.

Lemma apart_transition c s w : apart c w (transition s w).
Proof.
  unfold transition.
  destruct (state_eqb s (w_state w)); [apply apart_refl|].
  eapply apart_trans; [|apply apart_onEnter].
  eapply apart_trans; [|apply apart_log; simpl; auto].
  apply apart_same; reflexivity.
Qed.

Lemma apart_dispatch c i w : apart c w (dispatch i w).
Proof.
  unfold dispatch.
  destruct (w_state w), i; try apply apart_refl; try apply apart_transition.
  destruct (Precondition.test message);
    [apply apart_emit_error | apply apart_transition].
Qed.

Lemma apart_handle c i w : apart c w (handle i w).
Proof.
  unfold handle.
  destruct (w_state w); try apply apart_dispatch.
  eapply apart_trans; [apply (apart_transition c St_idle) | apply apart_dispatch].
Qed.

Lemma apart_fsm_open c w : apart c w (fsm_open w).
Proof.
  unfold fsm_open.
  eapply apart_trans; [apply (apart_log c A_fsm_open); simpl; auto | apply apart_handle].
Qed.

Lemma apart_fsm_close c w : apart c w (fsm_close w).
Proof.
  unfold fsm_close.
  eapply apart_trans; [apply (apart_log c A_fsm_close); simpl; auto|].
  apply apart_transition.
Qed.

(** The chain of another channel *)
Lemma apart_issue c c' ph w :
  c' <> c -> apart c w (log_all (issue (w_config w) c' ph) w).
Proof.
  intros Hc. apply apart_log_all. intros a Hin. apply in_rev in Hin.
  destruct ph; simpl in Hin; apply in_map_iff in Hin;
    destruct Hin as [x [<- _]]; simpl; auto.
Qed.

Lemma apart_topology_resolved c c' w :
  c' <> c -> apart c w (topology_resolved c' w).
Proof.
  intros Hc. unfold topology_resolved.
  eapply apart_trans; [|apply apart_transition].
  now apply apart_set_topology.
Qed.

Lemma apart_bindQueues c c' w : c' <> c -> apart c w (bindQueues c' w).
Proof.
  intros Hc. unfold bindQueues.
  eapply apart_trans; [apply (apart_issue c c' Bindings w Hc)|].
  case_match; [now apply apart_topology_resolved | now apply apart_set_topology].
Qed.

Lemma apart_assertQueues c c' w : c' <> c -> apart c w (assertQueues c' w).
Proof.
  intros Hc. unfold assertQueues.
  eapply apart_trans; [apply (apart_issue c c' Queues w Hc)|].
  case_match; [now apply apart_bindQueues | now apply apart_set_topology].
Qed.

Lemma apart_assertExchanges c c' w : c' <> c -> apart c w (assertExchanges c' w).
Proof.
  intros Hc. unfold assertExchanges.
  eapply apart_trans; [apply (apart_issue c c' Exchanges w Hc)|].
  case_match; [now apply apart_assertQueues | now apply apart_set_topology].
Qed.

Lemma topology_of_finished w c t ch :
  nth_error (topologies w) c = Some t -> nth_error (channels w) c = Some ch ->
  chan_topology ch = t.
Proof.
  unfold topologies. intros Ht Hc. rewrite nth_error_map, Hc in Ht.
  simpl in Ht. congruence.
Qed.

(** An answer of the broker goes to the chain it belongs to, and a chain
    that has ended takes none. *)
Lemma apart_declare_resolved c t c' i w :
  nth_error (topologies w) c = Some t -> finished t ->
  apart c w (declare_resolved c' i w).
Proof.
  intros Ht Hf. unfold declare_resolved.
  destruct (nth_error (channels w) c') as [ch|] eqn:Hch; [|apply apart_refl].
  destruct (chan_topology ch) as [ph pending| |] eqn:Htop; try apply apart_refl.
  assert (Hc : c' <> c).
  { intros ->. rewrite (topology_of_finished w c t ch Ht Hch) in Htop.
    destruct Hf; congruence. }
  destruct (mem i pending); [|apply apart_refl].
  eapply apart_trans; [apply (apart_log c (A_settled c' ph i)); simpl; auto|].
  destruct (remove_first i pending); [|now apply apart_set_topology].
  destruct ph; simpl;
    [now apply apart_assertQueues | now apply apart_bindQueues
    | now apply apart_topology_resolved].
Qed.

Lemma apart_declare_rejected c t c' i w :
  nth_error (topologies w) c = Some t -> finished t ->
  apart c w (declare_rejected c' i w).
Proof.
  intros Ht Hf. unfold declare_rejected.
  destruct (nth_error (channels w) c') as [ch|] eqn:Hch; [|apply apart_refl].
  destruct (chan_topology ch) as [ph pending| |] eqn:Htop; try apply apart_refl.
  assert (Hc : c' <> c).
  { intros ->. rewrite (topology_of_finished w c t ch Ht Hch) in Htop.
    destruct Hf; congruence. }
  destruct (mem i pending); [now apply apart_set_topology | apply apart_refl].
Qed.

Lemma apart_connect_resolved c w : apart c w (connect_resolved w).
Proof.
  unfold connect_resolved.
  eapply apart_trans; [|apply apart_transition].
  peel_apart.
  eapply apart_trans; [|apply apart_log; simpl; auto].
  apply apart_same; reflexivity.
Qed.

(** A new channel is another channel. *)
Lemma apart_createChannel_resolved c t h w :
  nth_error (topologies w) c = Some t -> apart c w (createChannel_resolved h w).
Proof.
  intros Ht. unfold createChannel_resolved, assertTopology.
  assert (Hlt : c < List.length (channels w)).
  { rewrite <- (length_map chan_topology). apply nth_error_Some.
    fold (topologies w). congruence. }
  eapply apart_trans; [|apply apart_assertExchanges; lia].
  eapply apart_trans; [|apply apart_log; simpl; auto].
  eapply apart_trans; [|apply apart_log; simpl; auto].
  peel_apart.
  eapply apart_trans; [|apply apart_log; simpl; auto].
  constructor; [|auto].
  intros t0 H0. unfold topologies in *; simpl.
  rewrite map_app, nth_error_app1; [exact H0|].
  now rewrite length_map.
Qed.

Lemma apart_run_timer c t w : apart c w (run_timer t w).
Proof.
  unfold run_timer. destruct (callback t).
  - eapply apart_trans; [|apply apart_transition].
    apply apart_same; reflexivity.
  - apply apart_settle_call.
Qed.

Lemma apart_advance c ms w : apart c w (advance ms w).
Proof.
  unfold advance. apply (fold_left_invariant (apart c w)).
  - eapply apart_trans; apply apart_same; reflexivity.
  - intros a t Ha. eapply apart_trans; [exact Ha | apply apart_run_timer].
Qed.

Lemma apart_AmqpManager_channel c w : apart c w (AmqpManager_channel w).
Proof.
  unfold AmqpManager_channel.
  destruct (m_closed w); [apply apart_same; reflexivity|].
  destruct (m_channel w); [apply apart_same; reflexivity|].
  set (w1 := if m_started w then w else fsm_open (set_m_started true w)).
  assert (H1 : apart c w w1).
  { subst w1; destruct (m_started w); [apply apart_refl|].
    eapply apart_trans; [|apply apart_fsm_open].
    apply apart_same; reflexivity. }
  cbv zeta. peel_apart.
  eapply apart_trans; [|apply apart_setTimeout].
  eapply apart_trans; [exact H1|].
  apply apart_same; reflexivity.
Qed.

Lemma apart_AmqpManager_close c w : apart c w (AmqpManager_close w).
Proof.
  unfold AmqpManager_close. cbv zeta. peel_apart.
  eapply apart_trans; [|apply apart_fsm_close].
  apply apart_same; reflexivity.
Qed.

Lemma apart_connection_emits c h ev w : apart c w (connection_emits h ev w).
Proof.
  unfold connection_emits.
  destruct (nth_error (connections w) h); [|apply apart_refl].
  apply (fold_left_invariant (apart c w)).
  - apply apart_same; reflexivity.
  - intros a l Ha. destruct (emitted_eqb l ev); [|exact Ha].
    eapply apart_trans; [exact Ha | apply apart_handle].
Qed.

Lemma apart_channel_emits c c' ev message w : apart c w (channel_emits c' ev message w).
Proof.
  unfold channel_emits.
  destruct (nth_error (channels w) c'); [|apply apart_refl].
  apply (fold_left_invariant (apart c w)).
  - apply (apart_update_channels c c' (after_emitting_channel ev)).
    intros ch. now destruct ev.
  - intros a l Ha. destruct (emitted_eqb l ev); [|exact Ha].
    eapply apart_trans; [exact Ha | apply apart_handle].
Qed.

Lemma apart_step c t w e :
  nth_error (topologies w) c = Some t -> finished t -> apart c w (step w e).
Proof.
  intros Ht Hf. destruct e; simpl.
  - apply apart_AmqpManager_channel.
  - apply apart_AmqpManager_close.
  - destruct (pending_connects w); [apply apart_refl|].
    eapply apart_trans; [|apply apart_connect_resolved].
    apply apart_same; reflexivity.
  - destruct (pending_connects w); [apply apart_refl|].
    eapply apart_trans; [|apply apart_handle].
    apply apart_same; reflexivity.
  - destruct (mem h (pending_channels w)); [|apply apart_refl].
    eapply apart_trans; [|apply (apart_createChannel_resolved c t); exact Ht].
    apply apart_same; reflexivity.
  - destruct (mem h (pending_channels w)); [|apply apart_refl].
    eapply apart_trans; [|apply apart_handle].
    apply apart_same; reflexivity.
  - now apply (apart_declare_resolved c t).
  - now apply (apart_declare_rejected c t).
  - apply apart_connection_emits.
  - apply apart_channel_emits.
  - apply apart_advance.
Qed.

(** The promise of [assertTopology] settles once: when the chain of a
    channel has ended, resolved or rejected, it stays as it ended whatever
    happens next, and nothing more is declared on that channel; after a
    rejection the collections that were to follow are never declared. *)
Theorem finished_topology_stays (w : world) (evs : list event) (c : nat) (t : topology) :
  nth_error (topologies w) c = Some t -> finished t ->
  nth_error (topologies (run evs w)) c = Some t /\
  forall a, declares_on c a -> In a (w_log (run evs w)) -> In a (w_log w).
Proof.
  intros Ht Hf.
  assert (H : apart c w (run evs w)).
  { revert w Ht. induction evs as [|e evs IH]; intros w Ht; [apply apart_refl|].
    rewrite run_cons.
    pose proof (apart_step c t w e Ht Hf) as Hs.
    eapply apart_trans; [exact Hs|]. apply IH. now apply (ap_topology _ _ _ Hs). }
  destruct H as [H1 H2]. auto.
Qed.

Lemma finished_topology_stays_witness :
  nth_error (topologies (run second_attempt (run refused (AmqpManager events_config)))) 0
  = Some T_rejected /\
  forall a, declares_on 0 a ->
            In a (w_log (run second_attempt (run refused (AmqpManager events_config)))) ->
            In a (w_log (run refused (AmqpManager events_config))).
Proof.
  apply (finished_topology_stays (run refused (AmqpManager events_config))
           second_attempt 0 T_rejected).
  - vm_compute. reflexivity.
  - right. reflexivity.
Defined.

(** * The connection machine of [src/unnamed/part_000] *)

Section ConnectionFsm_facts.

Import ConnectionFsm.

Lemma at_rest_clear c : at_rest c -> at_rest (clear_connection c).
Proof. intros [H1 H2]; split; auto. Qed.

Lemma at_rest_close c : at_rest c -> at_rest (close_connection c).
Proof. intros [H1 H2]; split; auto. Qed.

Lemma at_rest_after_emitting ev c : at_rest c -> at_rest (after_emitting_connection ev c).
Proof. destruct ev; simpl; auto using at_rest_close. Qed.

Lemma others_update keep h f l :
  (forall c, at_rest c -> at_rest (f c)) ->
  others_at_rest keep l -> others_at_rest keep (update_nth h f l).
Proof.
  intros Hf Hl h' c. rewrite nth_error_update_nth.
  destruct (Nat.eqb h h'); [|apply Hl].
  destruct (nth_error l h') as [c0|] eqn:Hc; [|discriminate].
  simpl. intros [= <-]. destruct (Hl h' c0 Hc); auto.
Qed.

(** [removeAllListeners()] and [close()] put the connection at rest. *)
Lemma others_cleanup keep h l :
  keep = None \/ keep = Some h ->
  others_at_rest keep l ->
  others_at_rest None (update_nth h close_connection (update_nth h clear_connection l)).
Proof.
  intros Hk Hl h' c. rewrite !nth_error_update_nth.
  destruct (Nat.eqb h h') eqn:Hh.
  - apply Nat.eqb_eq in Hh. subst h'.
    destruct (nth_error l h); [|discriminate].
    simpl. intros [= <-]. right. split; reflexivity.
  - intros Hc. destruct (Hl h' c Hc) as [H | H]; auto.
    destruct Hk as [Hk | Hk]; rewrite Hk in H; [discriminate|].
    injection H as ->. now rewrite Nat.eqb_refl in Hh.
Qed.

Lemma others_weaken keep l : others_at_rest None l -> others_at_rest keep l.
Proof.
  intros Hl h c Hc. destruct (Hl h c Hc); [discriminate | auto].
Qed.

Lemma others_update_kept h f l :
  others_at_rest (Some h) l -> others_at_rest (Some h) (update_nth h f l).
Proof.
  intros Hl h' c. rewrite nth_error_update_nth.
  destruct (Nat.eqb h h') eqn:Hh; [|apply Hl].
  apply Nat.eqb_eq in Hh. subst h'. auto.
Qed.

Lemma others_new l c0 :
  others_at_rest None l -> others_at_rest (Some (List.length l)) (l ++ [c0]).
Proof.
  intros Hl h c Hc.
  destruct (Nat.eq_dec h (List.length l)) as [-> | Hh]; auto.
  assert (Hlt : h < List.length (l ++ [c0])) by (apply nth_error_Some; congruence).
  rewrite length_app in Hlt; simpl in Hlt.
  rewrite nth_error_app1 in Hc by lia.
  destruct (Hl h c Hc); [discriminate | auto].
Qed.

Lemma at_most_one_open keep l :
  others_at_rest keep l -> List.length (filter conn_open l) <= 1.
Proof.
  revert keep. induction l as [|c l IH]; intros keep Hl; simpl; [lia|].
  assert (Htl : forall k, (forall h, keep = Some (S h) -> k = Some h) ->
                          others_at_rest k l).
  { intros k Hk h c' Hc. destruct (Hl (S h) c' Hc) as [H | H]; auto. }
  destruct (conn_open c) eqn:Ho.
  - destruct (Hl 0 c eq_refl) as [H | [H _]]; [|congruence].
    assert (Hnone : others_at_rest None l).
    { apply Htl. intros h Hh. rewrite H in Hh. discriminate. }
    assert (Hf : filter conn_open l = []).
    { clear -Hnone. induction l as [|c' l IH]; simpl; auto.
      destruct (Hnone 0 c' eq_refl) as [H | [H _]]; [discriminate|].
      rewrite H. apply IH. intros h c Hc.
      destruct (Hnone (S h) c Hc); [discriminate | auto]. }
    rewrite Hf. simpl. lia.
  - apply (IH (match keep with Some (S h) => Some h | _ => None end)).
    apply Htl. intros h ->. reflexivity.
Qed.

(** The machine is in none of the states a hypothesis lists. *)
Ltac wrong_state :=
  match goal with
  | H : _ = _ \/ _ = _ \/ _ = _ |- _ => destruct H as [H | [H | H]]; discriminate
  end.

Lemma state_eqb_eq a b : state_eqb a b = true <-> a = b.
Proof. destruct a, b; simpl; split; intros H; try discriminate; auto. Qed.

(** Entering [disconnect]: the connection in memory is put at rest, and the
    machine goes on to [reconnect] unless it is closed. *)
Lemma go_disconnect w :
  settled w -> w_state w <> St_disconnect ->
  closed w = true \/ (pending_connects w = 0 /\ timers w = []) ->
  let w' := transition St_disconnect w in
  settled w' /\ closed w' = closed w /\
  pending_connects w' = pending_connects w /\
  (if closed w
   then w_state w' = St_disconnect /\ timers w' = timers w /\
        connects w' = connects w /\ timeouts w' = timeouts w
   else w_state w' = St_reconnect).
Proof.
  intros (H1 & H2 & H3 & H4) Hs Hc. unfold transition, transition_with.
  destruct (state_eqb St_disconnect (w_state w)) eqn:He.
  { apply state_eqb_eq in He. congruence. }
  cbn [onEnter].
  set (w0 := log (A_transition (w_state w) St_disconnect) (set_state St_disconnect w)).
  set (w1 := match mem_connection (w_memory w0) with Some _ => _ | None => _ end).
  assert (Hw1 : w_state w1 = St_disconnect /\ closed w1 = closed w /\
                pending_connects w1 = pending_connects w /\ timers w1 = timers w /\
                connects w1 = connects w /\ timeouts w1 = timeouts w /\
                others_at_rest None (connections w1)).
  { subst w1. destruct (mem_connection (w_memory w0)) as [h|] eqn:Hm; simpl.
    - repeat (split; [reflexivity|]).
      apply (others_cleanup (current w)); auto.
      unfold current. destruct (w_state w); auto.
    - repeat (split; [reflexivity|]).
      intros h c Hc'. destruct (H3 h c Hc') as [H | H]; auto.
      unfold current in H. destruct (w_state w); try discriminate.
      simpl in Hm. congruence. }
  destruct Hw1 as (S1 & S2 & S3 & S4 & S5 & S6 & S7).
  change (closed (log A_emit_disconnected w1)) with (closed w1). rewrite S2.
  destruct (closed w) eqn:Hcl.
  - unfold settled, current, connects, timeouts; simpl.
    fold (connects w1). fold (timeouts w1).
    rewrite S1, S3, S4. repeat split; auto; wrong_state.
  - destruct Hc as [Hc | [Hp Ht]]; [discriminate|].
    unfold transition_with. simpl. rewrite S1. simpl.
    unfold settled, current; simpl. rewrite S3, S4, Hp, Ht.
    repeat split; auto; try wrong_state; try discriminate.
Qed.

(** Entering [connect] *)
Lemma go_connect w :
  settled w -> w_state w <> St_connected ->
  pending_connects w = 0 -> timers w = [] ->
  let w' := transition St_connect w in
  settled w' /\ closed w' = closed w /\ w_state w' = St_connect /\
  timers w' = [] /\ timeouts w' = timeouts w /\ connects w' <= connects w + 1.
Proof.
  intros (H1 & H2 & H3 & H4) Hs Hp Ht. unfold transition, transition_with.
  destruct (state_eqb St_connect (w_state w)) eqn:He.
  { apply state_eqb_eq in He. unfold settled. repeat split; auto; lia. }
  assert (Hr : others_at_rest None (connections w)).
  { intros h c Hc. destruct (H3 h c Hc) as [H | H]; auto.
    unfold current in H. destruct (w_state w); try discriminate; contradiction. }
  cbn [onEnter onEnter_leaf].
  change (w_config (log (A_transition (w_state w) St_connect) (set_state St_connect w)))
    with (w_config w).
  destruct (connection (w_config w));
    unfold settled, current, connects, timeouts; simpl; rewrite ?Hp, ?Ht;
    repeat split; auto; try wrong_state; try discriminate; simpl; lia.
Qed.

(** The connect is resolved. *)
Lemma go_connected w :
  settled w -> w_state w <> St_connected ->
  pending_connects w = 0 -> timers w = [] ->
  let w' := connect_resolved w in
  settled w' /\ closed w' = closed w /\ w_state w' = St_connected /\
  timers w' = [] /\ timeouts w' = timeouts w /\ connects w' = connects w.
Proof.
  intros (H1 & H2 & H3 & H4) Hs Hp Ht.
  assert (He : state_eqb St_connected (w_state w) = false)
    by (destruct (w_state w); try reflexivity; contradiction).
  assert (Hr : others_at_rest None (connections w)).
  { intros h c Hc. destruct (H3 h c Hc) as [H | H]; auto.
    unfold current in H. destruct (w_state w); try discriminate; contradiction. }
  unfold connect_resolved, transition, transition_with.
  cbn [w_state set_memory set_connections]. rewrite He.
  unfold settled, current, connects, timeouts; simpl. rewrite ?Hp, ?Ht.
  split; [|repeat split].
  split; [simpl; lia|]. split; [auto|]. split; [|discriminate].
  do 2 apply others_update_kept. now apply others_new.
Qed.

Lemma winding_down_refl w : closed w = true -> winding_down w w.
Proof. intros H; constructor; auto. Qed.

Lemma winding_down_trans w1 w2 w3 :
  winding_down w1 w2 -> winding_down w2 w3 -> winding_down w1 w3.
Proof. intros [] []; constructor; auto; try congruence; lia. Qed.

(** An input to the machine.  An [error] comes from the connect that was
    pending. *)
Lemma handle_facts i w :
  consistent w ->
  (i = In_error -> pending_connects w = 0 /\ timers w = []) ->
  consistent (handle i w) /\ (closed w = true -> winding_down w (handle i w)).
Proof.
  intros [Hs Hc] Hi. pose proof Hs as (H1 & H2 & H3 & H4).
  assert (Hsame : consistent w /\ (closed w = true -> winding_down w w))
    by (split; [split; assumption | apply winding_down_refl]).
  unfold handle, dispatch. destruct (w_state w) eqn:Hst.
  - (* uninitialized *)
    assert (Hcl : closed w = false).
    { destruct (closed w); auto. destruct (Hc eq_refl) as [H _]. congruence. }
    destruct (H2 (or_introl eq_refl)) as [Hp Ht].
    set (w0 := log (A_transition St_uninitialized St_idle) (set_state St_idle w)).
    assert (Htr : transition St_idle w = w0)
      by (unfold transition, transition_with; rewrite Hst; reflexivity).
    rewrite Htr.
    assert (Hs0 : settled w0).
    { unfold settled, current; simpl. rewrite Hp, Ht. repeat split; auto; try discriminate.
      intros h c Hh. destruct (H3 h c Hh) as [H | H]; auto.
      unfold current in H. rewrite Hst in H. discriminate. }
    change (w_state w0) with St_idle. cbv iota.
    destruct i.
    + destruct (go_connect w0 Hs0) as (G1 & G2 & G3 & _); try assumption; try discriminate.
      split; [|intros H; congruence].
      split; [exact G1|]. rewrite G2, G3. intros H. change (closed w0) with (closed w) in H.
      congruence.
    + split; [|intros H; congruence]. split; [exact Hs0|]. simpl. intros H; congruence.
    + split; [|intros H; congruence]. split; [exact Hs0|]. simpl. intros H; congruence.
    + split; [|intros H; congruence]. split; [exact Hs0|]. simpl. intros H; congruence.
  - (* idle *)
    assert (Hcl : closed w = false).
    { destruct (closed w); auto. destruct (Hc eq_refl) as [_ H]. congruence. }
    destruct (H2 (or_intror (or_introl eq_refl))) as [Hp Ht].
    destruct i; try exact Hsame.
    destruct (go_connect w Hs) as (G1 & G2 & G3 & _); try assumption; try congruence.
    split; [|intros H; congruence].
    split; [exact G1|]. rewrite G2, G3. intros H; congruence.
  - (* connect *)
    destruct i; try exact Hsame.
    destruct (Hi eq_refl) as [Hp Ht].
    destruct (go_disconnect w Hs) as (G1 & G2 & G3 & G4); try congruence; auto.
    destruct (closed w) eqn:Hcl.
    + destruct G4 as (G4 & G5 & G6 & G7).
      split; [split; [exact G1|]; rewrite G4; intros _; split; discriminate|].
      intros _. constructor; auto. rewrite G5, G6. lia.
    + split; [|intros H; discriminate].
      split; [exact G1|]. rewrite G2. intros H; discriminate.
  - (* connected *)
    destruct (H2 (or_intror (or_intror eq_refl))) as [Hp Ht].
    assert (Hgo : consistent (transition St_disconnect w) /\
                  (closed w = true -> winding_down w (transition St_disconnect w))).
    { destruct (go_disconnect w Hs) as (G1 & G2 & G3 & G4); try congruence; auto.
      destruct (closed w) eqn:Hcl.
      + destruct G4 as (G4 & G5 & G6 & G7).
        split; [split; [exact G1|]; rewrite G4; intros _; split; discriminate|].
        intros _. constructor; auto. rewrite G5, G6. lia.
      + split; [|intros H; discriminate].
        split; [exact G1|]. rewrite G2. intros H; discriminate. }
    destruct i; try exact Hsame; exact Hgo.
  - destruct i; exact Hsame.
  - destruct i; exact Hsame.
Qed.

(** [close()]: from then on the machine is winding down. *)
Lemma close_facts w :
  consistent w -> consistent (fsm_close w) /\ winding_down w (fsm_close w).
Proof.
  intros [Hs Hc]. pose proof Hs as (H1 & H2 & H3 & H4). unfold fsm_close.
  set (w1 := set_closed true w).
  assert (Hs1 : settled w1).
  { unfold settled; simpl. fold (current w). repeat split; auto; now apply H2. }
  destruct (state_eqb St_disconnect (w_state w)) eqn:He.
  - unfold transition, transition_with. change (w_state w1) with (w_state w).
    rewrite He. apply state_eqb_eq in He.
    split; [split; [exact Hs1|]|constructor; auto].
    simpl. intros _. rewrite <- He. split; discriminate.
  - destruct (go_disconnect w1 Hs1) as (G1 & G2 & G3 & G4 & G5 & G6 & G7); auto.
    { simpl. intros H. rewrite H in He. discriminate. }
    split.
    + split; [exact G1|]. rewrite G4. intros _; split; discriminate.
    + constructor; [now rewrite G2 | exact G7 |].
      rewrite G5, G6. apply Nat.le_refl.
Qed.

Lemma step_facts w e :
  consistent w ->
  consistent (step w e) /\ (closed w = true -> winding_down w (step w e)).
Proof.
  intros Hw. pose proof Hw as [Hs Hc]. pose proof Hs as (H1 & H2 & H3 & H4).
  assert (Hsame : consistent w /\ (closed w = true -> winding_down w w))
    by (split; [assumption | apply winding_down_refl]).
  destruct e; simpl.
  - apply handle_facts; [exact Hw | discriminate].
  - destruct (close_facts w Hw); auto.
  - destruct (pending_connects w) as [|n] eqn:Hp; [exact Hsame|].
    assert (Ht : timers w = []) by (destruct (timers w); [auto | simpl in H1; lia]).
    assert (Hn : n = 0) by lia. subst n.
    assert (Hst : w_state w <> St_connected) by (intros H; destruct H2; auto; lia).
    set (w1 := set_pending_connects 0 w).
    assert (Hs1 : settled w1).
    { unfold settled; simpl. fold (current w). rewrite Ht. repeat split; auto. }
    destruct (go_connected w1 Hs1) as (G1 & G2 & G3 & G4 & G5 & G6); auto.
    split.
    + split; [exact G1|]. rewrite G3. intros _; split; discriminate.
    + intros Hcl. constructor; [now rewrite G2 | exact G5 |].
      rewrite G4, G6. change (connects w1) with (connects w). simpl. lia.
  - destruct (pending_connects w) as [|n] eqn:Hp; [exact Hsame|].
    assert (Ht : timers w = []) by (destruct (timers w); [auto | simpl in H1; lia]).
    assert (Hn : n = 0) by lia. subst n.
    assert (Hst : w_state w <> St_uninitialized /\ w_state w <> St_idle).
    { split; intros H; destruct H2; auto; lia. }
    set (w1 := set_pending_connects 0 w).
    assert (Hw1 : consistent w1).
    { split; [|exact Hc]. unfold settled; simpl. fold (current w). rewrite Ht.
      repeat split; auto. }
    destruct (handle_facts In_error w1 Hw1) as [G1 G2]; [auto|].
    split; [exact G1|]. intros Hcl. destruct (G2 Hcl) as [W1 W2 W3].
    constructor; auto.
  - unfold connection_emits.
    destruct (nth_error (connections w) h) as [c|]; [|exact Hsame].
    set (w1 := set_connections _ w).
    apply (fold_left_invariant
             (fun a => consistent a /\ (closed w = true -> winding_down w a))).
    + split; [|intros H; constructor; auto].
      split; [|exact Hc]. unfold settled; simpl. fold (current w).
      repeat split; auto; try (now apply H2).
      apply others_update; auto.
      intros c0. apply at_rest_after_emitting.
    + intros a l [Ha Hwd]. destruct (emitted_eqb l ev); [|auto].
      destruct (handle_facts (connection_listener ev) a Ha) as [G1 G2].
      { destruct ev; discriminate. }
      split; [exact G1|]. intros Hcl. specialize (Hwd Hcl).
      eapply winding_down_trans; [exact Hwd|]. apply G2. apply (wd_closed _ _ Hwd).
  - unfold advance.
    destruct (timers w) as [|t [|t' ts]] eqn:Ht; [| |simpl in H1; lia].
    + simpl. split.
      * split; [|exact Hc]. unfold settled; simpl. fold (current w).
        repeat split; auto. now apply H2.
      * intros Hcl. constructor; auto. simpl. rewrite Ht. auto.
    + assert (Hp : pending_connects w = 0) by (simpl in H1; lia).
      assert (Hst : w_state w <> St_uninitialized /\ w_state w <> St_idle /\
                    w_state w <> St_connected).
      { repeat split; intros H; destruct H2 as [_ H2]; auto; discriminate. }
      destruct Hst as (Hst1 & Hst2 & Hst3).
      cbn [filter]. destruct (is_due (now w + Z.max 0 ms) t) eqn:Hdue; cbn [negb].
      * cbn [sort_by_due fold_left insert_by_due]. unfold run_timer.
        destruct (callback t) as [n|k].
        -- match goal with |- context [transition St_connect ?x] => set (w2 := x) end.
           assert (Hs2 : settled w2).
           { unfold settled; simpl. rewrite Hp. fold (current w).
             repeat split; auto. }
           destruct (go_connect w2 Hs2) as (G1 & G2 & G3 & G4 & G5 & G6); auto.
           split.
           ++ split; [exact G1|]. rewrite G3. intros _; split; discriminate.
           ++ intros Hcl. constructor; [now rewrite G2 | exact G5 |].
              rewrite G4, Ht. change (connects w2) with (connects w) in G6.
              simpl. lia.
        -- split.
           ++ split; [|exact Hc]. unfold settled; simpl. fold (current w).
              rewrite Hp. repeat split; auto.
           ++ intros Hcl. constructor; auto. rewrite Ht. unfold connects. simpl. lia.
      * cbn [sort_by_due fold_left]. split.
        -- split; [|exact Hc]. unfold settled; simpl. fold (current w).
           rewrite Hp. repeat split; auto; exfalso; tauto.
        -- intros Hcl. constructor; auto. rewrite Ht. unfold connects. simpl. lia.
Qed.

Lemma reachable_consistent config evs :
  consistent (run evs (AmqpConnectionFsm config)).
Proof.
  unfold run. apply fold_left_invariant.
  - unfold consistent, settled, current; simpl. repeat split; auto; try discriminate.
    intros [|h] c Hc; discriminate.
  - intros a e Ha. now apply step_facts.
Qed.

(** This machine keeps one connection at a time: whatever happens, at most
    one connection is open, and a connection that is open or has a listener
    is the one in memory, with the machine in [connected]. *)
Theorem one_connection_at_a_time (config : config_object) (evs : list event) :
  let w := run evs (AmqpConnectionFsm config) in
  open_connections w <= 1 /\
  forall h c, nth_error (connections w) h = Some c ->
              conn_open c = true \/ conn_listeners c <> [] ->
              w_state w = St_connected /\ mem_connection (w_memory w) = Some h.
Proof.
  intros w. destruct (reachable_consistent config evs) as [(_ & _ & H3 & _) _].
  fold w in H3. split.
  - unfold open_connections. now apply (at_most_one_open (current w)).
  - intros h c Hc Ho. destruct (H3 h c Hc) as [H | [H1 H2]].
    + unfold current in H. destruct (w_state w); try discriminate. auto.
    + destruct Ho as [Ho | Ho]; [congruence | contradiction].
Qed.

(** [close()] stops the backoff, not the timer that is pending: from a call
    of [close()] on, whatever happens, the machine is closed, it sets no
    timer any more, and it asks for at most one more connection. *)
Theorem close_stops_the_backoff (config : config_object) (evs1 evs2 : list event) :
  let w0 := run evs1 (AmqpConnectionFsm config) in
  let w := run (evs1 ++ Call_close :: evs2) (AmqpConnectionFsm config) in
  closed w = true /\ timeouts w = timeouts w0 /\ connects w <= connects w0 + 1.
Proof.
  intros w0 w.
  pose proof (reachable_consistent config evs1) as Hw0. fold w0 in Hw0.
  assert (Hw : consistent w /\ winding_down w0 w).
  { subst w. unfold run. rewrite fold_left_app. fold (run evs1 (AmqpConnectionFsm config)).
    fold w0. cbn [fold_left].
    apply fold_left_invariant.
    - now apply close_facts.
    - intros a e [Ha Hwd]. destruct (step_facts a e Ha) as [G1 G2].
      split; [exact G1|].
      eapply winding_down_trans; [exact Hwd|]. apply G2, (wd_closed _ _ Hwd). }
  destruct Hw as [_ [W1 W2 W3]]. destruct Hw0 as [(H1 & _) _].
  repeat split; auto. lia.
Qed.

(** The bound is reached: the timer that was pending at [close()] runs, and
    the closed machine ends up connected. *)
Example pending_timer_still_connects :
  let w0 := run closed_in_backoff (AmqpConnectionFsm (Defaults.defaultsDeep empty_config)) in
  let w := run [Advance 200; Connect_resolved] w0 in
  closed w0 = true /\ connects w = connects w0 + 1 /\
  w_state w = St_connected /\ open_connections w = 1.
Proof. vm_compute. repeat split. Qed.

End ConnectionFsm_facts.
